(** * Clinical-rounds viewer: a shallow embedding of its state logic

    The development follows the TypeScript sources of the viewer:
    - [PatientSlice]   : src/store/patientSlice.ts (Redux reducers, on
                         integer payloads)
    - [PatientStore]   : src/store/patientSlice.ts (the reducers on every
                         number)
    - [AuthConfig]     : src/auth/authConfig.ts (environment validation)
    - [Store]          : src/store/index.ts (getAuthToken, fetchPatient,
                         startWritingTask) and components/patient.tsx
    - [PatientSOAP]    : components/PatientSOAP.tsx (round normalisation,
                         role filter, role toggle)
    - [Binary64]       : the doubles of the language, from the Standard
                         Library's specification of IEEE 754
    - [ScrollSpy]      : components/PatientSOAP.tsx (scroll spy)
    - [Backend]        : src/store/index.ts (URLs, checkUserGroupMembership,
                         getUserProfileWithValidation)
    - [MsalConfig]     : src/auth/authConfig.ts (msalConfig, securityGroups)
                         and components/LoginComponent.tsx
    - [PatientCards]   : components/PatientId.tsx (formatDate) and
                         components/PatientStats.tsx (formatPredictionName)
    - [SoapControls]   : components/PatientSOAP.tsx (toggleAllRoles, the
                         empty rendering)

    JavaScript strings are modelled as [string] over the code points
    0..255; objects used as dictionaries are [gmap string _]; [Set<string>]
    is [gset string]; arrays are lists. Code that awaits the browser, the
    network or the identity library runs in a monad [Store.M] of
    exceptions over a world that holds the scripted answers of the library
    and the trace of the calls made. The scroll spy computes on binary64
    numbers; the payload of a reducer, which is only compared, is a number
    given by its value. *)

From Stdlib Require Import ZArith Ascii String QArith Sorted SpecFloat.
From stdpp Require Import gmap strings list pretty.

Close Scope Q_scope.

(** ** JavaScript string primitives used by the sources *)
Module JsString.

(** White space removed by [String.prototype.trim], restricted to the
    code points 0..255: TAB, LF, VT, FF, CR, SPACE and NBSP. *)
Definition is_ws (c : ascii) : bool :=
  let n := nat_of_ascii c in
  (Nat.leb 9 n && Nat.leb n 13) || Nat.eqb n 32 || Nat.eqb n 160.

Fixpoint trimStart (s : string) : string :=
  match s with
  | EmptyString => EmptyString
  | String c s' => if is_ws c then trimStart s' else s
  end.

(** [trimEnd] drops the trailing white space: a character is kept when
    something non-blank follows it or it is itself non-blank. *)
Fixpoint trimEnd (s : string) : string :=
  match s with
  | EmptyString => EmptyString
  | String c s' =>
      match trimEnd s' with
      | EmptyString => if is_ws c then EmptyString else String c EmptyString
      | t => String c t
      end
  end.

Definition trim (s : string) : string := trimEnd (trimStart s).

(** [s.startsWith(p)] *)
Fixpoint startsWith (p s : string) : bool :=
  match p, s with
  | EmptyString, _ => true
  | String a p', String b s' => if Ascii.eqb a b then startsWith p' s' else false
  | String _ _, EmptyString => false
  end.

(** [s.toUpperCase()] on the letters a..z. *)
Definition upper_char (c : ascii) : ascii :=
  let n := nat_of_ascii c in
  if Nat.leb 97 n && Nat.leb n 122 then ascii_of_nat (n - 32) else c.

Fixpoint toUpperCase (s : string) : string :=
  match s with
  | EmptyString => EmptyString
  | String c s' => String (upper_char c) (toUpperCase s')
  end.

(** [parts.join(sep)] *)
Fixpoint join (sep : string) (parts : list string) : string :=
  match parts with
  | [] => EmptyString
  | [p] => p
  | p :: rest => p +:+ sep +:+ join sep rest
  end.

(** [s.split(c)] for a one-character separator: never the empty list,
    and a trailing separator produces a trailing empty piece. *)
Fixpoint split (sep : ascii) (s : string) : list string :=
  match s with
  | EmptyString => [EmptyString]
  | String c s' =>
      if Ascii.eqb c sep then EmptyString :: split sep s'
      else match split sep s' with
           | [] => [String c EmptyString]
           | p :: ps => String c p :: ps
           end
  end.

(** Truthiness of a string: only the empty string is falsy. *)
Definition truthy (s : string) : bool :=
  match s with EmptyString => false | _ => true end.

(** [/^\d+$/.test(k)] *)
Definition is_digit (c : ascii) : bool :=
  let n := nat_of_ascii c in Nat.leb 48 n && Nat.leb n 57.

Fixpoint all_digits (s : string) : bool :=
  match s with
  | EmptyString => true
  | String c s' => is_digit c && all_digits s'
  end.

Definition is_round_number (k : string) : bool :=
  truthy k && all_digits k.

Definition LF : ascii := ascii_of_nat 10.

End JsString.

(** ** src/store/patientSlice.ts on integer payloads *)
Module PatientSlice.

(** A [string] slot that may hold [undefined] (an array hole, or a read
    past the end of an array). *)
Inductive jsstr : Type :=
| Undefined
| Str (s : string).

#[global] Instance jsstr_eq_dec : EqDecision jsstr.
Proof. solve_decision. Defined.

(** String conversion performed by [+=]. *)
Definition to_string (v : jsstr) : string :=
  match v with Undefined => "undefined" | Str s => s end.

(** [arr[i]] *)
Definition array_get (arr : list jsstr) (i : nat) : jsstr :=
  default Undefined (arr !! i).

(** [arr[i] = v]: in range the slot is replaced; past the end the array
    grows to length [i + 1], the new slots before [i] being holes. *)
Definition array_set (arr : list jsstr) (i : nat) (v : jsstr) : list jsstr :=
  if decide (i < length arr) then <[i := v]> arr
  else arr ++ replicate (i - length arr) Undefined ++ [v].

(** [IPatientCollection] with [current] an array index, as it is for
    as long as the payloads of [setCurrentPatient] are integers (zero,
    [length - 1], or a range-checked integer payload); [PatientStore]
    below has the reducers on every number. *)
Record IPatientCollection : Type := mkState {
  current : nat;
  patients : list jsstr;
  currentPatient : jsstr
}.

Definition initialState : IPatientCollection :=
  {| current := 0; patients := []; currentPatient := Str "" |}.

Definition addPatient (state : IPatientCollection) (payload : string)
  : IPatientCollection :=
  let patients' := patients state ++ [Str payload] in
  {| current := length patients' - 1;
     patients := patients';
     currentPatient := Str payload |}.

Definition clearPatients (state : IPatientCollection) : IPatientCollection :=
  initialState.

(** The payload is an integer, possibly negative or out of range. *)
Definition setCurrentPatient (state : IPatientCollection) (payload : Z)
  : IPatientCollection :=
  if ((payload <? 0)%Z || (Z.of_nat (length (patients state)) <=? payload)%Z)%bool
  then state
  else {| current := Z.to_nat payload;
          patients := patients state;
          currentPatient := array_get (patients state) (Z.to_nat payload) |}.

Definition addToCurrentPatient (state : IPatientCollection) (payload : string)
  : IPatientCollection :=
  let i := current state in
  let patients' :=
    array_set (patients state) i
      (Str (to_string (array_get (patients state) i) +:+ payload)) in
  {| current := i;
     patients := patients';
     currentPatient := array_get patients' i |}.

Inductive action : Type :=
| AddPatient (payload : string)
| ClearPatients
| SetCurrentPatient (payload : Z)
| AddToCurrentPatient (payload : string).

Definition reducer (state : IPatientCollection) (a : action)
  : IPatientCollection :=
  match a with
  | AddPatient p => addPatient state p
  | ClearPatients => clearPatients state
  | SetCurrentPatient i => setCurrentPatient state i
  | AddToCurrentPatient s => addToCurrentPatient state s
  end.

(** The state reached from [initialState] by dispatching [acts] in order. *)
Definition dispatch_all (acts : list action) : IPatientCollection :=
  foldl reducer initialState acts.

Definition is_append (a : action) : bool :=
  match a with AddToCurrentPatient _ => true | _ => false end.

(** The store invariant. *)
Definition consistent (s : IPatientCollection) : Prop :=
  match patients s with
  | [] => current s = 0 ∧ currentPatient s = Str ""
  | _ :: _ =>
      current s < length (patients s) ∧
      currentPatient s = array_get (patients s) (current s)
  end.

End PatientSlice.

(** ** src/store/patientSlice.ts on every payload *)
Module PatientStore.
Import PatientSlice.

(** A number of the language, by its value. The reducers compare the
    payload and use it as a key; they do no arithmetic on it, and comparing
    two doubles is comparing their values. Both zeros are [Finite 0]. *)
Inductive number : Type :=
| Finite (q : Q)
| NaN
| Infinity (negative : bool).

Definition of_Z (z : Z) : number := Finite (inject_Z z).
Definition of_nat (n : nat) : number := of_Z (Z.of_nat n).

(** [x < y] *)
Definition ltb (x y : number) : bool :=
  match x, y with
  | NaN, _ | _, NaN => false
  | Finite a, Finite b => negb (Qle_bool b a)
  | Finite _, Infinity negative => negb negative
  | Infinity negative, Finite _ => negative
  | Infinity a, Infinity b => a && negb b
  end.

(** [x >= y] *)
Definition geb (x y : number) : bool :=
  match x, y with
  | NaN, _ | _, NaN => false
  | Finite a, Finite b => Qle_bool b a
  | Finite _, Infinity negative => negative
  | Infinity negative, Finite _ => negb negative
  | Infinity a, Infinity b => negb a || b
  end.

(** The array index a number names when used as a key: a number that is
    not a non-negative integer names a property that is no element. *)
Definition to_index (x : number) : option nat :=
  match x with
  | Finite q =>
      if ((0 <=? Qnum q) && (Z.rem (Qnum q) (Zpos (Qden q)) =? 0))%Z
      then Some (Z.to_nat (Qnum q / Zpos (Qden q)))
      else None
  | _ => None
  end.

(** [arr[x]] *)
Definition element (arr : list jsstr) (x : number) : jsstr :=
  match to_index x with
  | Some i => array_get arr i
  | None => Undefined
  end.

(** [IPatientCollection], with [current] any number. *)
Record State : Type := mkStore {
  current : number;
  patients : list jsstr;
  currentPatient : jsstr
}.

Definition initialState : State :=
  {| current := of_nat 0; patients := []; currentPatient := Str "" |}.

Definition addPatient (state : State) (payload : string) : State :=
  let patients' := patients state ++ [Str payload] in
  {| current := of_nat (length patients' - 1);
     patients := patients';
     currentPatient := Str payload |}.

Definition clearPatients (state : State) : State := initialState.

Definition setCurrentPatient (state : State) (payload : number) : State :=
  if ltb payload (of_nat 0) || geb payload (of_nat (length (patients state)))
  then state
  else {| current := payload;
          patients := patients state;
          currentPatient := element (patients state) payload |}.

(** [addToCurrentPatient] when [current] names an element. With another
    [current] the assignment [state.patients[state.current] += ...] writes
    a property of the array that is no element; arrays are lists here, and
    the reducer has no result. *)
Definition addToCurrentPatient (state : State) (payload : string) : option State :=
  match to_index (current state) with
  | Some i =>
      let patients' :=
        array_set (patients state) i
          (Str (to_string (array_get (patients state) i) +:+ payload)) in
      Some {| current := current state;
              patients := patients';
              currentPatient := array_get patients' i |}
  | None => None
  end.

Inductive action : Type :=
| AddPatient (payload : string)
| ClearPatients
| SetCurrentPatient (payload : number)
| AddToCurrentPatient (payload : string).

Definition reducer (state : State) (a : action) : option State :=
  match a with
  | AddPatient p => Some (addPatient state p)
  | ClearPatients => Some (clearPatients state)
  | SetCurrentPatient x => Some (setCurrentPatient state x)
  | AddToCurrentPatient p => addToCurrentPatient state p
  end.

(** The state reached from [initialState] by dispatching [acts] in order. *)
Definition dispatch_all (acts : list action) : option State :=
  foldl (fun state a => state ≫= fun s => reducer s a) (Some initialState) acts.

Definition is_append (a : action) : bool :=
  match a with AddToCurrentPatient _ => true | _ => false end.

(** [current] is a valid index into [patients]. *)
Definition valid_index (x : number) (arr : list jsstr) : Prop :=
  ∃ i, to_index x = Some i ∧ i < length arr.

(** The payload of [setCurrentPatient] is an integer. *)
Definition integer_payload (a : action) : Prop :=
  match a with
  | SetCurrentPatient x => ∃ z, x = of_Z z
  | _ => True
  end.

(** The states and the actions of [PatientSlice], where [current] and the
    payload are integers. *)
Definition of_collection (s : IPatientCollection) : State :=
  {| current := of_nat (PatientSlice.current s);
     patients := PatientSlice.patients s;
     currentPatient := PatientSlice.currentPatient s |}.

Definition of_index_action (a : PatientSlice.action) : action :=
  match a with
  | PatientSlice.AddPatient p => AddPatient p
  | PatientSlice.ClearPatients => ClearPatients
  | PatientSlice.SetCurrentPatient z => SetCurrentPatient (of_Z z)
  | PatientSlice.AddToCurrentPatient p => AddToCurrentPatient p
  end.

(** Two patients, the second one current, then a selection by [0.5]. *)
Definition half_selected : list action :=
  [AddPatient "MRN-1"; AddPatient "MRN-2"; SetCurrentPatient (Finite (1 # 2))].

End PatientStore.

(** ** JSON data as the viewer receives it *)
Module Json.

(** Values produced by [JSON.parse] or [response.json()], plus
    [undefined] for an absent property. Numbers are the integral ones. *)
#[warnings="-register-all"]
Inductive value : Type :=
| VUndefined
| VNull
| VBool (b : bool)
| VNumber (n : Z)
| VString (s : string)
| VArray (items : list value)
| VObject (fields : gmap string value).

(** [!!v] *)
Definition truthy (v : value) : bool :=
  match v with
  | VUndefined | VNull => false
  | VBool b => b
  | VNumber n => negb (n =? 0)%Z
  | VString s => JsString.truthy s
  | VArray _ | VObject _ => true
  end.

Definition nullish (v : value) : bool :=
  match v with VUndefined | VNull => true | _ => false end.

(** [v[key]] for a value that is neither [null] nor [undefined] and a key
    that is not an array index; only own properties and [length]. *)
Definition prop (v : value) (key : string) : value :=
  match v with
  | VObject fields => default VUndefined (fields !! key)
  | VString s =>
      if String.eqb key "length" then VNumber (Z.of_nat (String.length s))
      else VUndefined
  | VArray items =>
      if String.eqb key "length" then VNumber (Z.of_nat (length items))
      else VUndefined
  | _ => VUndefined
  end.

(** [v === "text"] *)
Definition is_string (v : value) (text : string) : bool :=
  match v with VString s => String.eqb s text | _ => false end.

End Json.

(** ** src/auth/authConfig.ts *)
Module AuthConfig.
Import JsString.

(** The three [import.meta.env] entries read by the module; an unset
    variable is [undefined]. *)
Record Env : Type := mkEnv {
  VITE_AZURE_CLIENT_ID : option string;
  VITE_AZURE_AUTHORITY : option string;
  VITE_AZURE_REDIRECT_URI : option string
}.

(** The object [required]. *)
Record Required : Type := mkRequired {
  clientId : option string;
  authority : option string;
  redirectUri : option string
}.

Inductive result (A : Type) : Type :=
| Returns (a : A)
| Throws (message : string).
Arguments Returns {A} a.
Arguments Throws {A} message.

Definition required (env : Env) : Required :=
  {| clientId := VITE_AZURE_CLIENT_ID env;
     authority := VITE_AZURE_AUTHORITY env;
     redirectUri := VITE_AZURE_REDIRECT_URI env |}.

(** [Object.entries(required)] *)
Definition entries (r : Required) : list (string * option string) :=
  [("clientId", clientId r); ("authority", authority r);
   ("redirectUri", redirectUri r)].

(** [!value || value.trim() === ''] *)
Definition blank (value : option string) : bool :=
  match value with
  | None => true
  | Some v => negb (truthy v) || String.eqb (trim v) ""
  end.

Definition label (key : string) : string := "VITE_AZURE_" +:+ toUpperCase key.

Definition missing (r : Required) : list string :=
  List.map (fun kv => label (fst kv))
    (List.filter (fun kv => blank (snd kv)) (entries r)).

Definition missing_message (names : list string) : string :=
  "Missing required Azure AD configuration: " +:+ join ", " names
    +:+ ". Please check your .env file.".

Definition invalid_message (uri : string) : string :=
  "Invalid redirect URI format: " +:+ uri
    +:+ ". Must start with http:// or https://".

Definition validateRequiredEnvVars (env : Env) : result Required :=
  let required := required env in
  let missing := missing required in
  if Nat.ltb 0 (length missing) then Throws (missing_message missing)
  else
    match redirectUri required with
    | None => Throws "TypeError: redirectUri is undefined"
    | Some uri =>
        if negb (startsWith "http://" uri) && negb (startsWith "https://" uri)
        then Throws (invalid_message uri)
        else Returns required
    end.

(** A variable is absent, or blank once trimmed. *)
Definition absent_or_blank (value : option string) : Prop :=
  value = None ∨ ∃ v, value = Some v ∧ trim v = EmptyString.

(** The configuration is incomplete. *)
Definition incomplete (env : Env) : Prop :=
  absent_or_blank (VITE_AZURE_CLIENT_ID env)
  ∨ absent_or_blank (VITE_AZURE_AUTHORITY env)
  ∨ absent_or_blank (VITE_AZURE_REDIRECT_URI env).

(** A complete configuration. *)
Definition local_env : Env :=
  {| VITE_AZURE_CLIENT_ID := Some "00000000-0000-0000-0000-000000000000";
     VITE_AZURE_AUTHORITY := Some "https://login.microsoftonline.com/common";
     VITE_AZURE_REDIRECT_URI := Some "http://localhost:5173" |}.

(** A configuration in which only the client ID is not set. *)
Definition client_id_unset : Env :=
  {| VITE_AZURE_CLIENT_ID := None;
     VITE_AZURE_AUTHORITY := Some "https://login.microsoftonline.com/common";
     VITE_AZURE_REDIRECT_URI := Some "http://localhost:5173" |}.

(** A configuration without client ID and with a blank authority. *)
Definition broken_env : Env :=
  {| VITE_AZURE_CLIENT_ID := None;
     VITE_AZURE_AUTHORITY := Some "  ";
     VITE_AZURE_REDIRECT_URI := Some "http://localhost:5173" |}.

End AuthConfig.

(** ** src/store/index.ts and src/components/patient.tsx *)
Module Store.
Import Json.

(** The result of an awaited call: a value, or a thrown error, of which
    the [message] is kept. *)
Inductive outcome (A : Type) : Type :=
| Resolved (a : A)
| Rejected (message : string).
Arguments Resolved {A} a.
Arguments Rejected {A} message.

(** What the identity library will answer, call after call: the number
    of accounts [getAllAccounts] returns, the [accessToken] of the
    responses of [acquireTokenSilent] and [acquireTokenPopup], and
    whether [loginPopup] resolves. A call past the end of a script is
    rejected. *)
Record Msal : Type := mkMsal {
  getAllAccounts : list (outcome nat);
  acquireTokenSilent : list (outcome string);
  acquireTokenPopup : list (outcome string);
  loginPopup : list (outcome unit)
}.

(** The calls the program makes on the outside world, in order. *)
Inductive event : Type :=
| GetAllAccounts
| AcquireTokenSilent
| AcquireTokenPopup
| LoginPopup
| Fetch (authorization : option string)
| AddMessage (message : value)
| CreateArticle (patient : string)
| AddToArticle (text : value).

(** [window.msalInstance] and the calls made so far. *)
Record World : Type := mkWorld {
  msalInstance : option Msal;
  trace : list event
}.

(** Computations that may throw and that act on the [World]. *)
Definition M (A : Type) : Type := World -> outcome A * World.

Definition ret {A} (a : A) : M A := fun w => (Resolved a, w).

Definition throw {A} (message : string) : M A := fun w => (Rejected message, w).

Definition bind {A B} (m : M A) (k : A -> M B) : M B :=
  fun w =>
    match m w with
    | (Resolved a, w') => k a w'
    | (Rejected e, w') => (Rejected e, w')
    end.

(** [try { m } catch (e) { handler e }] *)
Definition try_catch {A} (m : M A) (handler : string -> M A) : M A :=
  fun w =>
    match m w with
    | (Resolved a, w') => (Resolved a, w')
    | (Rejected e, w') => handler e w'
    end.

Definition emit (e : event) : M unit :=
  fun w => (Resolved tt, {| msalInstance := msalInstance w; trace := trace w ++ [e] |}).

Definition lift {A} (o : outcome A) : M A := fun w => (o, w).

Definition get_instance : M (option Msal) :=
  fun w => (Resolved (msalInstance w), w).

Definition put_instance (m : Msal) : M unit :=
  fun w => (Resolved tt, {| msalInstance := Some m; trace := trace w |}).

#[global] Instance M_ret : MRet M := @ret.
#[global] Instance M_bind : MBind M := fun A B k m => bind m k.

Fixpoint forEach {A} (l : list A) (f : A -> M unit) : M unit :=
  match l with
  | [] => ret tt
  | x :: l' => f x;; forEach l' f
  end.

Definition no_answer : string := "no response".
Definition type_error : string := "Cannot read properties of undefined".

(** The next answer of a script. *)
Definition next {A} (script : list (outcome A)) : outcome A * list (outcome A) :=
  match script with
  | [] => (Rejected no_answer, [])
  | o :: rest => (o, rest)
  end.

(** The answer a script gives to the next call. *)
Definition answer {A} (script : list (outcome A)) : outcome A := fst (next script).

(** The four calls on [msalInstance]; on a missing instance the method
    call is a [TypeError]. *)
Definition call_getAllAccounts : M nat :=
  inst ← get_instance;
  match inst with
  | None => throw type_error
  | Some m =>
      let (o, rest) := next (getAllAccounts m) in
      put_instance (mkMsal rest (acquireTokenSilent m) (acquireTokenPopup m) (loginPopup m));;
      emit GetAllAccounts;; lift o
  end.

Definition call_acquireTokenSilent : M string :=
  inst ← get_instance;
  match inst with
  | None => throw type_error
  | Some m =>
      let (o, rest) := next (acquireTokenSilent m) in
      put_instance (mkMsal (getAllAccounts m) rest (acquireTokenPopup m) (loginPopup m));;
      emit AcquireTokenSilent;; lift o
  end.

Definition call_acquireTokenPopup : M string :=
  inst ← get_instance;
  match inst with
  | None => throw type_error
  | Some m =>
      let (o, rest) := next (acquireTokenPopup m) in
      put_instance (mkMsal (getAllAccounts m) (acquireTokenSilent m) rest (loginPopup m));;
      emit AcquireTokenPopup;; lift o
  end.

Definition call_loginPopup : M unit :=
  inst ← get_instance;
  match inst with
  | None => throw type_error
  | Some m =>
      let (o, rest) := next (loginPopup m) in
      put_instance (mkMsal (getAllAccounts m) (acquireTokenSilent m) (acquireTokenPopup m) rest);;
      emit LoginPopup;; lift o
  end.

(** [getAuthToken]: [None] is [null]. *)
Definition getAuthToken : M (option string) :=
  try_catch
    (msal ← get_instance;
     match msal with
     | None => ret None
     | Some _ =>
         accounts ← call_getAllAccounts;
         if Nat.eqb accounts 0 then ret None
         else
           accessToken ← call_acquireTokenSilent;
           ret (Some accessToken)
     end)
    (fun error =>
       try_catch
         (msal ← get_instance;
          match msal with
          | Some _ =>
              accessToken ← call_acquireTokenPopup;
              ret (Some accessToken)
          | None => ret None
          end)
         (fun popupError => ret None)).

(** [if (token)] *)
Definition usable (token : option string) : option string :=
  match token with
  | Some t => if JsString.truthy t then Some t else None
  | None => None
  end.

Definition bearer (token : string) : string := "Bearer " +:+ token.

(** A [Response]: the body is the list of the texts that
    [new TextDecoder().decode] yields for the chunks read from it. *)
Record Response : Type := mkResponse {
  status : nat;
  statusText : string;
  body : option (list string);
  json : outcome value
}.

Definition ok (r : Response) : bool :=
  Nat.leb 200 (status r) && Nat.leb (status r) 299.

(** *** fetchPatient *)
Definition fetchPatient (network : list (outcome Response)) : M value :=
  token ← getAuthToken;
  match usable token with
  | None => throw "Authentication token not available. Please log in again."
  | Some t =>
      emit (Fetch (Some (bearer t)));;
      response ← lift (fst (next network));
      if Nat.eqb (status response) 401
      then throw "Authentication failed. Please log in again."
      else if negb (ok response)
      then throw ("Failed to fetch patient: " +:+ pretty (status response)
                    +:+ " " +:+ statusText response)
      else lift (json response)
  end.

(** [s.includes(sub)] *)
Fixpoint includes (sub s : string) : bool :=
  JsString.startsWith sub s ||
  match s with
  | EmptyString => false
  | String _ s' => includes sub s'
  end.

(** The React state of the [Patient] component. *)
Record PatientState : Type := mkPatientState {
  patientData : value;
  searchId : string;
  loading : bool;
  error : string;
  showSearch : bool
}.

Definition error_for (message : string) : string :=
  if includes "Authentication" message
  then "Authentication failed. Please refresh the page and log in again."
  else if includes "401" message
  then "Unauthorized access. Please check your permissions."
  else "Patient not found or error fetching patient data.".

Definition handleSearch (st : PatientState) (network : list (outcome Response))
  : M PatientState :=
  let st := mkPatientState VNull (searchId st) (loading st) "" (showSearch st) in
  if negb (JsString.truthy (JsString.trim (searchId st)))
  then ret (mkPatientState (patientData st) (searchId st) (loading st)
              "Please enter an MRN." (showSearch st))
  else
    let st := mkPatientState (patientData st) (searchId st) true (error st) (showSearch st) in
    st ← try_catch
            (response ← fetchPatient network;
             if nullish response then throw type_error
             else
               let patient :=
                 if truthy (prop response "patient") then prop response "patient"
                 else response in
               ret (mkPatientState patient (searchId st) (loading st) (error st) false))
            (fun err =>
               ret (mkPatientState VNull (searchId st) (loading st)
                      (error_for err) (showSearch st)));
    ret (mkPatientState (patientData st) (searchId st) false (error st) (showSearch st)).

(** *** startWritingTask *)
Section Writer.

(** [JSON.parse], and the comparison [v > 0] of the language with its
    conversion of [v] to a number. *)
Variable JSON_parse : string -> outcome value.
Variable greater_than_zero : value -> bool.

Definition error_message (text : string) : value :=
  VObject {[ "type" := VString "error"; "message" := VString text ]}.

Definition reauth_failed : string :=
  "Authentication failed. Please refresh the page and try again.".
Definition api_failed : string :=
  "API call failed. Please check your connection and try again.".

(** The body of the inner [for] loop, for one piece of a chunk. *)
Definition handlePart (part : string) : M unit :=
  let part := JsString.trim part in
  if negb (JsString.truthy part) then ret tt
  else
    message ← lift (JSON_parse part);
    emit (AddMessage message);;
    if nullish message then throw type_error
    else if is_string (prop message "type") "writer" then
      if truthy (prop message "data")
         && truthy (prop (prop message "data") "start")
      then emit (CreateArticle "")
      else ret tt
    else if is_string (prop message "type") "partial" then
      let text :=
        if nullish (prop message "data") then VUndefined
        else prop (prop message "data") "text" in
      if truthy text && greater_than_zero (prop text "length")
      then emit (AddToArticle text)
      else ret tt
    else ret tt.

(** The body of the [for await] loop, for one chunk. *)
Definition handleChunk (text : string) : M unit :=
  forEach (JsString.split JsString.LF text) handlePart.

Definition readBody (response : Response) : M unit :=
  match body response with
  | None => ret tt
  | Some chunks => forEach chunks handleChunk
  end.

(** The 401 branch of [callApi]: [Some (Some auth)] asks for the request
    to be sent again with the header [auth], [Some None] ends the call,
    [None] goes on to read the body. *)
Definition reauthenticate : M (option (option string)) :=
  msal ← get_instance;
  match msal with
  | None => ret None
  | Some _ =>
      try_catch
        (call_loginPopup;;
         newToken ← getAuthToken;
         match usable newToken with
         | Some t => ret (Some (Some (bearer t)))
         | None => ret None
         end)
        (fun error =>
           emit (AddMessage (error_message reauth_failed));;
           ret (Some None))
  end.

(** One run of the [try] block of [callApi] on the answer [o] of
    [fetch]; the result is the header of the request to send again,
    if any. *)
Definition attempt (o : outcome Response) (authorization : option string)
  : M (option string) :=
  try_catch
    (emit (Fetch authorization);;
     response ← lift o;
     decision ←
       (if Nat.eqb (status response) 401 then reauthenticate else ret None);
     match decision with
     | Some (Some auth) => ret (Some auth)
     | Some None => ret None
     | None => readBody response;; ret None
     end)
    (fun e =>
       emit (AddMessage (error_message api_failed));;
       ret None).

(** [callApi]: [network] lists the answers of the successive calls of
    [fetch]; past its end [fetch] is rejected. The recursive call made
    after a successful re-authentication consumes the next answer, so a run
    is as long as the script allows; a server that answers 401 for ever,
    on which the code keeps asking, has no finite script. The call
    [return callApi()] is not awaited inside the [try], so it is made here
    once the [try] block is left. *)
Fixpoint callApi (network : list (outcome Response))
    (authorization : option string) : M unit :=
  match network with
  | [] => attempt (Rejected no_answer) authorization;; ret tt
  | o :: network' =>
      again ← attempt o authorization;
      match again with
      | Some auth => callApi network' (Some auth)
      | None => ret tt
      end
  end.

Definition startWritingTask (network : list (outcome Response)) : M unit :=
  token ← getAuthToken;
  callApi network (bearer <$> usable token).

End Writer.

(** *** Reading traces *)

(** The arguments of the calls of [addMessage], in order. *)
Definition added (tr : list event) : list value :=
  omap (fun e => match e with AddMessage m => Some m | _ => None end) tr.

Definition is_fetch (e : event) : bool :=
  match e with Fetch _ => true | _ => false end.

Definition is_login (e : event) : bool :=
  match e with LoginPopup => true | _ => false end.

(** The events a run adds to the trace. *)
Definition new_events (before after : World) : list event :=
  drop (length (trace before)) (trace after).

(** [adds m w evs]: from [w] the computation [m] returns normally, leaves
    the identity library as it was and appends [evs] to the trace. *)
Definition adds (m : M unit) (w : World) (evs : list event) : Prop :=
  m w = (Resolved tt, {| msalInstance := msalInstance w; trace := trace w ++ evs |}).

Definition nonblank (part : string) : bool := JsString.truthy part.

(** The trimmed non-blank pieces of one text cut at the line feeds. *)
Definition pieces (text : string) : list string :=
  List.filter nonblank (JsString.trim <$> JsString.split JsString.LF text).

(** The lines of the stream: the pieces of the whole text, which is the
    concatenation of the chunks. *)
Definition stream_lines (chunks : list string) : list string :=
  pieces (foldr String.append EmptyString chunks).

(** The pieces of the chunks, each chunk cut on its own. *)
Definition chunk_pieces (chunks : list string) : list string :=
  chunks ≫= pieces.

Definition ends_with_LF (chunk : string) : Prop :=
  ∃ s, chunk = s +:+ String JsString.LF EmptyString.

(** [parses parse lines messages]: every line parses, to the message at
    the same position, and no message is [null]. *)
Definition parses (parse : string -> outcome value)
    (lines : list string) (messages : list value) : Prop :=
  Forall2 (fun line m => parse line = Resolved m ∧ nullish m = false)
    lines messages.

(** The calls [getAuthToken] may make. *)
Definition is_token_call (e : event) : bool :=
  match e with
  | GetAllAccounts | AcquireTokenSilent | AcquireTokenPopup => true
  | _ => false
  end.

(** [extends w w']: the trace of [w'] continues the trace of [w]. *)
Definition extends (w w' : World) : Prop :=
  ∃ evs, trace w' = trace w ++ evs.

(** A computation that only adds to the trace. *)
Definition monotone {A} (m : M A) : Prop := ∀ w, extends w (m w).2.

(** The world once the request was sent with [authorization] and
    [loginPopup] was called on the instance [m]. *)
Definition after_login (w : World) (m : Msal) (authorization : option string)
  : World :=
  {| msalInstance :=
       Some (mkMsal (getAllAccounts m) (acquireTokenSilent m)
               (acquireTokenPopup m) (snd (next (loginPopup m))));
     trace := trace w ++ [Fetch authorization; LoginPopup] |}.

(** A streamed answer with the given chunks. *)
Definition streamed (chunks : list string) : Response :=
  {| status := 200; statusText := "OK"; body := Some chunks;
     json := Rejected "body already read" |}.

(** The statement that the consumer passes to [addMessage] the lines of
    the stream, lines that span chunks included. *)
Definition decodes_lines_across_chunks (parse : string -> outcome value)
    (gt0 : value -> bool) : Prop :=
  ∀ chunks messages authorization w,
    parses parse (stream_lines chunks) messages →
    added (new_events w
             (callApi parse gt0 [Resolved (streamed chunks)] authorization w).2)
    = messages.

(** The statement that a run only reports failures: it never logs in
    again and sends at most one request. *)
Definition only_reports (evs : list event) : Prop :=
  length (List.filter is_fetch evs) ≤ 1 ∧ LoginPopup ∉ evs.

Definition writer_only_reports (parse : string -> outcome value)
    (gt0 : value -> bool) : Prop :=
  ∀ network w,
    only_reports (new_events w (startWritingTask parse gt0 network w).2).

(** *** Concrete worlds and answers *)

(** An HTTP 401 answer without a body. *)
Definition unauthorized : Response :=
  {| status := 401; statusText := "Unauthorized"; body := None;
     json := Rejected "Unexpected end of JSON input" |}.

(** A browser with one signed-in account: silent acquisition gives the
    token [t1], then [t2]; [loginPopup] succeeds once. *)
Definition signed_in : World :=
  {| msalInstance :=
       Some {| getAllAccounts := [Resolved 1; Resolved 1];
               acquireTokenSilent := [Resolved "t1"; Resolved "t2"];
               acquireTokenPopup := [];
               loginPopup := [Resolved tt] |};
     trace := [] |}.

(** A browser whose identity library rejects every call. *)
Definition login_refused : World :=
  {| msalInstance := Some (mkMsal [] [] [] []); trace := [] |}.

(** The search form with an MRN typed in. *)
Definition searching : PatientState :=
  {| patientData := VNull; searchId := " MRN-0042 "; loading := false;
     error := ""; showSearch := true |}.

(** A browser without MSAL instance. *)
Definition signed_out : World := {| msalInstance := None; trace := [] |}.

(** *** A fragment of [JSON.parse] for concrete runs *)

Fixpoint digits_value (acc : Z) (s : string) : Z :=
  match s with
  | EmptyString => acc
  | String c s' => digits_value (10 * acc + Z.of_nat (nat_of_ascii c - 48)) s'
  end.

(** A parser for the concrete runs, where the properties take
    [JSON.parse] as a parameter. It agrees with [JSON.parse] on the
    unsigned decimal integer literals below 2^53, which it reads exactly,
    and on the texts that are not JSON, which it rejects. The other JSON
    texts (signed or fractional numbers, longer literals, strings, arrays,
    objects) are outside the fragment, and no run below uses one. *)
Definition parse_numeral (text : string) : outcome value :=
  if JsString.is_round_number text
     && (String.eqb text "0" || negb (JsString.startsWith "0" text))
  then Resolved (VNumber (digits_value 0 text))
  else Rejected "SyntaxError: Unexpected token".

(** [v > 0] on numbers. *)
Definition number_gt0 (v : value) : bool :=
  match v with VNumber n => (0 <? n)%Z | _ => false end.

End Store.

(** ** src/components/PatientSOAP.tsx *)
Module PatientSOAP.
Import Json.

(** *** Round normalisation *)

Definition soapKeys : list string :=
  ["subjective"; "objective"; "assessment"; "plan"].

(** [obj[k] !== undefined] *)
Definition defined_at (fields : gmap string value) (k : string) : bool :=
  match fields !! k with
  | None | Some VUndefined => false
  | Some _ => true
  end.

(** [Object.keys(obj)] *)
Definition keys (fields : gmap string value) : list string :=
  (map_to_list fields).*1.

Definition isSingle (fields : gmap string value) : bool :=
  existsb (defined_at fields) soapKeys
  && negb (existsb JsString.is_round_number (keys fields)).

(** One step of the [forEach] over [Object.entries(rounds)]. The map holds
    the own properties of [result], which is a plain object: the
    assignment [result[k] = ...] with the key [__proto__] runs the setter
    inherited from [Object.prototype], which replaces the prototype of
    [result] by the array and creates no own property. *)
Definition addRound (k : string) (v : value) (result : gmap string (list value))
  : gmap string (list value) :=
  if negb (truthy v) then result
  else if String.eqb k "__proto__" then result
  else match v with
       | VArray items => <[k := items]> result
       | _ => <[k := [v]]> result
       end.

(** [normalizedRounds], as the map of its own properties: these are what
    [Object.keys] lists. The prop [rounds] is an object given by its own
    properties (as [JSON.parse] builds it), or is [null]/[undefined], here
    [None]. *)
Definition normalizedRounds (rounds : option (gmap string value))
  : gmap string (list value) :=
  match rounds with
  | None => ∅
  | Some fields =>
      if isSingle fields then {[ "1" := [VObject fields] ]}
      else map_fold addRound ∅ fields
  end.

(** The round a value stands for, if any: a falsy value gives none, an
    array gives its items, anything else a list of one. *)
Definition round_entries (v : value) : option (list value) :=
  if truthy v then Some (match v with VArray items => items | _ => [v] end)
  else None.

(** The input has at least one of the SOAP fields. *)
Definition has_soap_field (fields : gmap string value) : Prop :=
  ∃ k v, k ∈ soapKeys ∧ fields !! k = Some v ∧ v ≠ VUndefined.

(** The input has a key made of decimal digits only. *)
Definition has_round_key (fields : gmap string value) : Prop :=
  ∃ k, is_Some (fields !! k) ∧ JsString.is_round_number k = true.

Definition legacy_single_round (fields : gmap string value) : Prop :=
  has_soap_field fields ∧ ¬ has_round_key fields.

(** *** Entries and roles *)

(** [SOAPEntry]: every field is optional. *)
Record SOAPEntry : Type := mkEntry {
  subjective : option string;
  objective : option string;
  assessment : option string;
  plan : option string;
  role : option string
}.

(** The keys of [tabs]. *)
Inductive TabKey : Type := KSubjective | KObjective | KAssessment | KPlan.

#[global] Instance TabKey_eq_dec : EqDecision TabKey.
Proof. solve_decision. Defined.

Definition tabs : list TabKey := [KSubjective; KObjective; KAssessment; KPlan].

(** [e[sectionKey]] *)
Definition field (e : SOAPEntry) (sectionKey : TabKey) : option string :=
  match sectionKey with
  | KSubjective => subjective e
  | KObjective => objective e
  | KAssessment => assessment e
  | KPlan => plan e
  end.

(** Truthiness of an optional string: present and not empty. *)
Definition present (o : option string) : bool :=
  match o with Some s => JsString.truthy s | None => false end.

(** [set.add(r)] on a [Set] kept in insertion order. *)
Definition set_add (set : list string) (r : string) : list string :=
  if bool_decide (r ∈ set) then set else set ++ [r].

Fixpoint insert_sorted (r : string) (sorted : list string) : list string :=
  match sorted with
  | [] => [r]
  | x :: rest => if String.leb r x then r :: sorted else x :: insert_sorted r rest
  end.

(** [array.sort()] on strings: ascending in code-unit order. *)
Definition sort (l : list string) : list string := foldr insert_sorted [] l.

Definition allRoles (currentEntries : list SOAPEntry) : list string :=
  let set :=
    foldl (fun set e =>
             match role e with
             | Some r => if JsString.truthy r then set_add set r else set
             | None => set
             end) [] currentEntries in
  sort set.

(** *** toggleRole: the updater given to [setSelectedRoles] *)
Definition toggleRole (allRoles : list string) (role : string)
    (prev : gset string) : gset string :=
  let next := if bool_decide (role ∈ prev) then prev ∖ {[role]} else prev ∪ {[role]} in
  if Nat.eqb (size next) 0 then list_to_set allRoles else next.

(** *** renderSectionContent *)

(** The [div] rendered for one entry. *)
Record EntryBlock : Type := mkBlock {
  key : string + nat;
  heading : option string;
  content : string
}.

Inductive element : Type :=
| NoDataAvailable
| EntryList (children : list (option EntryBlock)).

(** [e.role ? selectedRoles.has(e.role) : true] *)
Definition role_selected (selectedRoles : gset string) (e : SOAPEntry) : bool :=
  match role e with
  | Some r => if JsString.truthy r then bool_decide (r ∈ selectedRoles) else true
  | None => true
  end.

Definition renderEntry (allRoles : list string) (sectionKey : TabKey)
    (idx : nat) (e : SOAPEntry) : option EntryBlock :=
  match field e sectionKey with
  | Some content =>
      if JsString.truthy content then
        Some {| key := match role e with
                       | Some r => if JsString.truthy r then inl r else inr idx
                       | None => inr idx
                       end;
                heading := if present (role e) && Nat.ltb 0 (length allRoles)
                           then role e else None;
                content := content |}
      else None
  | None => None
  end.

Definition renderSectionContent (currentEntries : list SOAPEntry)
    (selectedRoles : gset string) (sectionKey : TabKey) : element :=
  let allRoles := allRoles currentEntries in
  let entries :=
    if Nat.ltb 0 (length allRoles) && Nat.ltb 0 (size selectedRoles)
    then List.filter (role_selected selectedRoles) currentEntries
    else currentEntries in
  if Nat.eqb (length entries) 0 then NoDataAvailable
  else EntryList (imap (renderEntry allRoles sectionKey) entries).

(** The heading and the text of the blocks an element shows, top to
    bottom. *)
Definition shown (el : element) : list (option string * string) :=
  match el with
  | NoDataAvailable => []
  | EntryList children => (fun b => (heading b, content b)) <$> omap id children
  end.

(** An entry has no role when the property is absent or empty. *)
Definition no_role (e : SOAPEntry) : Prop :=
  role e = None ∨ role e = Some EmptyString.

(** The entries the role filter and the content test let through. *)
Definition passes (selectedRoles : gset string) (sectionKey : TabKey)
    (e : SOAPEntry) : bool :=
  role_selected selectedRoles e && present (field e sectionKey).

(** What is expected on screen for an entry: its role, if it has one, above
    its text for the section. *)
Definition block_of (sectionKey : TabKey) (e : SOAPEntry) : option string * string :=
  (if present (role e) then role e else None, default EmptyString (field e sectionKey)).

(** *** Concrete inputs *)

(** A legacy record: the SOAP fields at top level. *)
Definition legacy_rounds : gmap string value :=
  {[ "subjective" := VString "Reports mild pain";
     "plan" := VString "Continue current medication" ]}.

Definition physician_note : value :=
  VObject {[ "role" := VString "physician"; "assessment" := VString "Stable" ]}.

Definition nurse_note : value :=
  VObject {[ "role" := VString "nurse"; "objective" := VString "BP 120/80" ]}.

(** A record whose only key is [__proto__], as [JSON.parse] gives for the
    text [{"__proto__": [...]}]. *)
Definition proto_rounds : gmap string value :=
  {[ "__proto__" := VArray [nurse_note] ]}.

(** A record of three rounds: an array, a single entry and [null]. *)
Definition three_rounds : gmap string value :=
  {[ "1" := VArray [physician_note; nurse_note];
     "2" := nurse_note;
     "3" := VNull ]}.

(** Entries of a round: a nurse, a physician and an entry without role. *)
Definition round_entries_example : list SOAPEntry :=
  [ mkEntry (Some "Sleeps well") None None None (Some "nurse");
    mkEntry (Some "No complaints") None None (Some "Discharge") (Some "physician");
    mkEntry (Some "Family visit") None None None None ].

End PatientSOAP.

(** ** The numbers of the scroll spy: IEEE binary64 *)
Module Binary64.

Definition prec : Z := 53.
Definition emax : Z := 1024.

(** A [number] of the language. *)
Definition double : Type := spec_float.

Definition zero : double := S754_zero false.

(** The double of an integer literal. *)
Definition of_Z (z : Z) : double := binary_normalize prec emax z 0 false.

Definition ten : double := Eval vm_compute in of_Z 10.

(** [x + y], [x - y], [x / y] and [-x], rounded to nearest, ties to even. *)
Definition add : double → double → double := SFadd prec emax.
Definition sub : double → double → double := SFsub prec emax.
Definition div : double → double → double := SFdiv prec emax.
Definition neg : double → double := SFopp.

(** [x < y], [x > y] and [x >= y]: false when an operand is [NaN]. *)
Definition ltb (x y : double) : bool := SFltb x y.
Definition gtb (x y : double) : bool := SFltb y x.
Definition geb (x y : double) : bool := SFleb y x.

Definition is_negative_zero (x : double) : bool :=
  match x with S754_zero true => true | _ => false end.

(** [Math.max(x, y)] and [Math.min(x, y)]: [NaN] when an operand is [NaN],
    and [-0] counts as less than [+0]. *)
Definition max (x y : double) : double :=
  match SFcompare x y with
  | None => S754_nan
  | Some Gt => x
  | Some Lt => y
  | Some Eq => if is_negative_zero x then y else x
  end.

Definition min (x y : double) : double :=
  match SFcompare x y with
  | None => S754_nan
  | Some Lt => x
  | Some Gt => y
  | Some Eq => if is_negative_zero y then y else x
  end.



End Binary64.

(** ** src/components/PatientSOAP.tsx: the scroll spy *)
Module ScrollSpy.
Import PatientSOAP Binary64.

(** What [getBoundingClientRect] gives. *)
Record DOMRect : Type := mkRect {
  top : double;
  height : double
}.

Record Container : Type := mkContainer {
  scrollTop : double;
  clientHeight : double;
  scrollHeight : double;
  containerRect : DOMRect
}.

Definition visibilityRatio (container : Container) (rect : DOMRect) : double :=
  let containerHeight := clientHeight container in
  let elementTop := sub (top rect) (top (containerRect container)) in
  let visibleTop := max zero (neg elementTop) in
  let visibleBottom := min (height rect) (sub containerHeight elementTop) in
  let visibleHeight := max zero (sub visibleBottom visibleTop) in
  div visibleHeight (height rect).

(** The body of [tabs.forEach]: the pair is [mostVisibleSection] and
    [maxVisibility]. *)
Definition visit (container : Container) (sectionRefs : TabKey → option DOMRect)
    (acc : TabKey * double) (tab : TabKey) : TabKey * double :=
  match sectionRefs tab with
  | Some rect =>
      let visibilityRatio := visibilityRatio container rect in
      if gtb visibilityRatio (snd acc) then (tab, visibilityRatio) else acc
  | None => acc
  end.

(** [scrollTop + containerHeight >= scrollHeight - 10] *)
Definition atBottom (container : Container) : bool :=
  geb (add (scrollTop container) (clientHeight container))
      (sub (scrollHeight container) ten).

(** [handleScroll]: the value of [activeTab] after the event. *)
Definition handleScroll (containerRef : option Container)
    (sectionRefs : TabKey → option DOMRect) (activeTab : TabKey) : TabKey :=
  match containerRef with
  | None => activeTab
  | Some container =>
      if atBottom container then KPlan
      else
        let mostVisibleSection :=
          fst (foldl (visit container sectionRefs) (KSubjective, zero) tabs) in
        if bool_decide (mostVisibleSection ≠ activeTab)
        then mostVisibleSection else activeTab
  end.

(** *** The scroll spy in the words of its description *)


(** The visible fraction of the height of a section. *)
Definition visible_fraction (c : Container) (section : DOMRect) : double :=
  let offset := SFsub prec emax (top section) (top (containerRect c)) in
  let hidden_above := max zero (SFopp offset) in
  let shown_down_to :=
    min (height section) (SFsub prec emax (clientHeight c) offset) in
  let visible_height := max zero (SFsub prec emax shown_down_to hidden_above) in
  SFdiv prec emax visible_height (height section).




(** *** Concrete inputs *)



(** Four sections of 250 pixels each, laid out one under the other, as
    they are measured when the container is scrolled by 150 pixels. *)
Definition four_sections (tab : TabKey) : option DOMRect :=
  Some match tab with
       | KSubjective => {| top := of_Z (-50); height := of_Z 250 |}
       | KObjective => {| top := of_Z 200; height := of_Z 250 |}
       | KAssessment => {| top := of_Z 450; height := of_Z 250 |}
       | KPlan => {| top := of_Z 700; height := of_Z 250 |}
       end.

(** The largest double below 6. *)
Definition below_six : double :=
  Eval vm_compute in binary_normalize prec emax (6 * 2 ^ 50 - 1) (-50) false.

(** A container 384 pixels high over 400 pixels of content, scrolled by
    a little less than 6 pixels. *)
Definition container_below_threshold : Container :=
  {| scrollTop := below_six; clientHeight := of_Z 384; scrollHeight := of_Z 400;
     containerRect := {| top := of_Z 0; height := of_Z 384 |} |}.

End ScrollSpy.

(** ** More of the sources: string helpers *)
Module JsText.

(** [s.substring(start, end)]: both positions are clamped to the length
    and swapped when out of order. *)
Definition substring (s : string) (start finish : nat) : string :=
  let a := Nat.min start (String.length s) in
  let b := Nat.min finish (String.length s) in
  String.substring (Nat.min a b) (Nat.max a b - Nat.min a b) s.

(** [s.endsWith(suffix)] *)
Fixpoint endsWith (suffix s : string) : bool :=
  String.eqb s suffix ||
  match s with
  | EmptyString => false
  | String _ s' => endsWith suffix s'
  end.

(** The class [\w]: ASCII letters, digits and the underscore. *)
Definition is_word (c : ascii) : bool :=
  let n := nat_of_ascii c in
  (Nat.leb 97 n && Nat.leb n 122) || (Nat.leb 65 n && Nat.leb n 90)
  || (Nat.leb 48 n && Nat.leb n 57) || Nat.eqb n 95.

End JsText.

(** ** src/store/index.ts: URLs and the Microsoft Graph checks *)
Module Backend.
Import Json Store.

Section Urls.

(** [githubDevSubsPort] is imported from utils/ghutils; the URLs only
    use its result. *)
Variable githubDevSubsPort : string -> N -> string.

Definition apiPort : N := 8000%N.

(** The [endpoint] chosen from [window.location.hostname]. *)
Definition endpointFor (hostname : string) : string :=
  if String.eqb hostname "localhost" || String.eqb hostname "127.0.0.1"
  then "http://localhost:" +:+ pretty apiPort
  else if JsText.endsWith "github.dev" hostname
  then githubDevSubsPort hostname apiPort +:+ "/"
  else "".

(** [endpoint.endsWith("/") ? endpoint : endpoint + "/"] *)
Definition withSlash (endpoint : string) : string :=
  if JsText.endsWith "/" endpoint then endpoint else endpoint +:+ "/".

(** The [url] of [fetchPatient]; [apiBaseUrl] is [VITE_API_URL]. *)
Definition patientUrl (apiBaseUrl : option string) (hostname patient_id : string)
  : string :=
  let endpoint :=
    match apiBaseUrl with
    | Some base => if JsString.truthy base then base else endpointFor hostname
    | None => endpointFor hostname
    end in
  withSlash endpoint +:+ "api/patient/" +:+ patient_id.

(** The [url] of [startWritingTask]. *)
Definition writerUrl (hostname : string) : string :=
  withSlash (endpointFor hostname) +:+ "api/patient".

End Urls.

(** The two group variables of [import.meta.env]. *)
Record GroupEnv : Type := mkGroupEnv {
  VITE_CLINICAL_STAFF_GROUP_ID : option string;
  VITE_ADMIN_GROUP_ID : option string
}.

(** [id && id.length > 0] *)
Definition configured (id : option string) : bool :=
  match id with
  | Some s => JsString.truthy s && Nat.ltb 0 (String.length s)
  | None => false
  end.

(** [authorizedGroups]: the configured identifiers, in order. *)
Definition authorizedGroups (env : GroupEnv) : list string :=
  omap (fun id => if configured id then id else None)
    [VITE_CLINICAL_STAFF_GROUP_ID env; VITE_ADMIN_GROUP_ID env].

(** [authorizedGroups.includes(v)]: only a string can be found. *)
Definition includes_id (groups : list string) (v : value) : bool :=
  match v with
  | VString s => bool_decide (s ∈ groups)
  | _ => false
  end.

(** [userGroups.some(group => authorizedGroups.includes(group.id))]: the
    scan stops at the first member found; reading [id] of [null] throws. *)
Fixpoint some_authorized (groups : list string) (userGroups : list value)
  : outcome bool :=
  match userGroups with
  | [] => Resolved false
  | group :: rest =>
      if nullish group then Rejected type_error
      else if includes_id groups (prop group "id") then Resolved true
      else some_authorized groups rest
  end.

(** [checkUserGroupMembership]; [network] holds the answer of Microsoft
    Graph to the request for [/me/memberOf]. *)
Definition checkUserGroupMembership (env : GroupEnv)
    (network : list (outcome Response)) : M bool :=
  try_catch
    (token ← getAuthToken;
     match usable token with
     | None => ret false
     | Some t =>
         emit (Fetch (Some (bearer t)));;
         response ← lift (answer network);
         if negb (ok response) then ret false
         else
           data ← lift (json response);
           if nullish data then throw type_error
           else
             let userGroups :=
               if truthy (prop data "value") then prop data "value"
               else VArray [] in
             match userGroups with
             | VArray items => lift (some_authorized (authorizedGroups env) items)
             | _ => throw type_error
             end
     end)
    (fun error => ret false).

(** The object [getUserProfileWithValidation] resolves to. *)
Record Validation : Type := mkValidation {
  isAuthorized : bool;
  profile : option value
}.

(** [getUserProfileWithValidation]: the first answer of [network] is for
    [/me], the second for [/me/memberOf]. *)
Definition getUserProfileWithValidation (env : GroupEnv)
    (network : list (outcome Response)) : M Validation :=
  try_catch
    (token ← getAuthToken;
     match usable token with
     | None => ret (mkValidation false None)
     | Some t =>
         emit (Fetch (Some (bearer t)));;
         profileResponse ← lift (answer network);
         if negb (ok profileResponse) then ret (mkValidation false None)
         else
           profile ← lift (json profileResponse);
           isAuthorized ← checkUserGroupMembership env (snd (next network));
           ret (mkValidation isAuthorized (Some profile))
     end)
    (fun error => ret (mkValidation false None)).

(** How many requests and how many login popups a run made. *)
Definition fetches (evs : list event) : nat := length (List.filter is_fetch evs).
Definition logins (evs : list event) : nat := length (List.filter is_login evs).

(** [emits P m]: the computation [m] only adds events that satisfy [P]. *)
Definition emits {A} (P : event -> Prop) (m : M A) : Prop :=
  ∀ w, ∃ evs, trace (m w).2 = trace w ++ evs ∧ Forall P evs.

(** The request carries a non-empty bearer token. *)
Definition authenticated (e : event) : Prop :=
  match e with
  | Fetch authorization =>
      ∃ t, authorization = Some (bearer t) ∧ t ≠ EmptyString
  | _ => True
  end.

(** A signed-in browser whose silent acquisition succeeds once. *)
Definition one_token : World :=
  {| msalInstance := Some (mkMsal [Resolved 1] [Resolved "t1"] [] []);
     trace := [] |}.

(** The answer of Microsoft Graph that lists the given groups. *)
Definition member_of (ids : list string) : Response :=
  {| status := 200; statusText := "OK"; body := None;
     json := Resolved
               (VObject {[ "value" :=
                  VArray ((fun id => VObject {[ "id" := VString id ]}) <$> ids) ]}) |}.

(** A patient record as the backend sends it. *)
Definition patient_answer : Response :=
  {| status := 200; statusText := "OK"; body := None;
     json := Resolved
               (VObject {[ "patient" := VObject {[ "mrn" := VString "MRN-0042" ]} ]}) |}.

(** The data of [patient_answer]. *)
Definition patient_record : value :=
  VObject {[ "patient" := VObject {[ "mrn" := VString "MRN-0042" ]} ]}.

(** What [fetchPatient] answers once the token is known. *)
Definition patient_result (network : list (outcome Response)) : outcome value :=
  match answer network with
  | Rejected e => Rejected e
  | Resolved response =>
      if Nat.eqb (status response) 401
      then Rejected "Authentication failed. Please log in again."
      else if negb (ok response)
      then Rejected ("Failed to fetch patient: " +:+ pretty (status response)
                       +:+ " " +:+ statusText response)
      else json response
  end.

(** What the reading of a body may call. *)
Definition is_callback (e : event) : Prop :=
  match e with
  | AddMessage _ | CreateArticle _ | AddToArticle _ => True
  | _ => False
  end.

(** An event that is not a request. *)
Definition not_fetch (e : event) : Prop := is_fetch e = false.

(** [fails m w e evs]: from [w] the computation [m] throws [e] after
    appending [evs] to the trace. *)
Definition fails (m : M unit) (w : World) (e : string) (evs : list event) : Prop :=
  m w = (Rejected e, {| msalInstance := msalInstance w; trace := trace w ++ evs |}).

(** Only the group of the clinical staff is configured. *)
Definition clinical_only : GroupEnv := mkGroupEnv (Some "g-clinical") None.

(** What the check answers once the token is known. *)
Definition membership_result (env : GroupEnv) (network : list (outcome Response))
    (token : option string) : bool :=
  match usable token, answer network with
  | Some _, Resolved response =>
      ok response &&
      match json response with
      | Resolved data =>
          negb (nullish data) &&
          match (if truthy (prop data "value") then prop data "value" else VArray []) with
          | VArray items =>
              match some_authorized (authorizedGroups env) items with
              | Resolved b => b
              | Rejected _ => false
              end
          | _ => false
          end
      | Rejected _ => false
      end
  | _, _ => false
  end.

End Backend.

(** ** src/auth/authConfig.ts: the MSAL configuration; LoginComponent.tsx *)
Module MsalConfig.
Import JsString AuthConfig.

(** [getRedirectUri]; [origin] is [window.location.origin]. *)
Definition getRedirectUri (env : Env) (origin : string) : string :=
  match VITE_AZURE_REDIRECT_URI env with
  | Some envRedirectUri =>
      if truthy envRedirectUri then envRedirectUri
      else origin +:+ "/auth/callback"
  | None => origin +:+ "/auth/callback"
  end.

(** The [auth] part of [msalConfig]. *)
Record Auth : Type := mkAuth {
  auth_clientId : option string;
  auth_authority : option string;
  auth_redirectUri : string;
  postLogoutRedirectUri : string
}.

(** The initialisation of the module up to [msalConfig.auth]: the
    validation runs first and its error leaves the module. *)
Definition msalConfig_auth (env : Env) (origin : string) : result Auth :=
  match validateRequiredEnvVars env with
  | Throws message => Throws message
  | Returns envVars =>
      Returns {| auth_clientId := clientId envVars;
                 auth_authority := authority envVars;
                 auth_redirectUri := getRedirectUri env origin;
                 postLogoutRedirectUri := origin |}
  end.

(** The [console] method a log line goes to. *)
Inductive channel : Type := ConsoleError | ConsoleWarn | ConsoleInfo | ConsoleDebug.

(** [loggerCallback]: what is written, if anything; [prod] is
    [import.meta.env.PROD]. *)
Definition loggerCallback (prod : bool) (level : Z) (message : string)
    (containsPii : bool) : option (channel * string) :=
  if containsPii then None
  else
    let logLevel := if prod then 1%Z else 3%Z in
    if (level <=? logLevel)%Z then
      if (level =? 0)%Z then Some (ConsoleError, "[MSAL Error]: " +:+ message)
      else if (level =? 1)%Z then Some (ConsoleWarn, "[MSAL Warning]: " +:+ message)
      else if (level =? 2)%Z then Some (ConsoleInfo, "[MSAL Info]: " +:+ message)
      else if (level =? 3)%Z then Some (ConsoleDebug, "[MSAL Debug]: " +:+ message)
      else None
    else None.

(** [v || ""] for an optional string. *)
Definition or_empty (v : option string) : string :=
  match v with Some s => s | None => EmptyString end.

(** [securityGroups.authorizedUsers] *)
Definition authorizedUsers (env : Backend.GroupEnv) : list string :=
  List.filter (fun id => Nat.ltb 0 (String.length id))
    [ or_empty (Backend.VITE_CLINICAL_STAFF_GROUP_ID env);
      or_empty (Backend.VITE_ADMIN_GROUP_ID env) ].

(** The check of the effect of [LoginComponent]: the error it sets, if
    any. *)
Definition configError (env : Env) : string :=
  let falsy (v : option string) :=
    match v with Some s => negb (truthy s) | None => true end in
  if falsy (VITE_AZURE_CLIENT_ID env) || falsy (VITE_AZURE_AUTHORITY env)
     || falsy (VITE_AZURE_REDIRECT_URI env)
  then "Azure AD configuration is incomplete. Please check environment variables."
  else "".

(** The [auth] part expected for [local_env]. *)
Definition local_auth : Auth :=
  {| auth_clientId := Some "00000000-0000-0000-0000-000000000000";
     auth_authority := Some "https://login.microsoftonline.com/common";
     auth_redirectUri := "http://localhost:5173";
     postLogoutRedirectUri := "https://ward.example.org" |}.

End MsalConfig.

(** ** src/components/PatientId.tsx, PatientStats.tsx *)
Module PatientCards.

(** [formatDate]; the [try] around the template cannot fail. *)
Definition formatDate (dateStr : option string) : string :=
  match dateStr with
  | None => "N/A"
  | Some s =>
      if negb (JsString.truthy s) then "N/A"
      else if Nat.eqb (String.length s) 8
      then JsText.substring s 4 6 +:+ "/" +:+ JsText.substring s 6 8
             +:+ "/" +:+ JsText.substring s 0 4
      else s
  end.

(** [formatDate(admit_date) || 'MM/DD/YYYY'] *)
Definition admittedText (admit_date : option string) : string :=
  if JsString.truthy (formatDate admit_date) then formatDate admit_date
  else "MM/DD/YYYY".

(** [name.replace(/_/g, ' ')] *)
Fixpoint replaceUnderscores (name : string) : string :=
  match name with
  | EmptyString => EmptyString
  | String c rest =>
      String (if Ascii.eqb c "_" then " "%char else c) (replaceUnderscores rest)
  end.

(** [s.replace(/\b\w/g, l => l.toUpperCase())]: a word character is
    matched when it starts the text or follows a character that is not a
    word character; [afterWord] tells whether the previous character of
    the text is a word character. *)
Fixpoint capitalizeWords (afterWord : bool) (s : string) : string :=
  match s with
  | EmptyString => EmptyString
  | String c rest =>
      String (if JsText.is_word c && negb afterWord then JsString.upper_char c else c)
        (capitalizeWords (JsText.is_word c) rest)
  end.

Definition formatPredictionName (name : string) : string :=
  capitalizeWords false (replaceUnderscores name).

(** The text has no underscore. *)
Fixpoint no_underscore (s : string) : Prop :=
  match s with
  | EmptyString => True
  | String c rest => c ≠ "_"%char ∧ no_underscore rest
  end.

End PatientCards.

(** ** src/components/PatientSOAP.tsx: what the claims leave out *)
Module SoapControls.
Import Json PatientSOAP.

Definition showAllRolesSelected (allRoles : list string)
    (selectedRoles : gset string) : bool :=
  Nat.eqb (size selectedRoles) (length allRoles).

(** [toggleAllRoles]: the selection after the click. *)
Definition toggleAllRoles (allRoles : list string) (selectedRoles : gset string)
  : gset string :=
  if showAllRolesSelected allRoles selectedRoles then
    match allRoles with
    | first :: _ => if JsString.truthy first then {[ first ]} else selectedRoles
    | [] => selectedRoles
    end
  else list_to_set allRoles.

Section RoundKeys.

(** [keys.sort((a, b) => Number(a) - Number(b))], of which only the
    length of the result is used here. *)
Variable sortByNumber : list string -> list string.

(** [Object.keys(normalizedRounds).sort(...)] *)
Definition roundKeys (rounds : option (gmap string value)) : list string :=
  sortByNumber (map_to_list (normalizedRounds rounds)).*1.

(** [!rounds || roundKeys.length === 0]: the component returns [null]. *)
Definition rendersNothing (rounds : option (gmap string value)) : bool :=
  match rounds with
  | None => true
  | Some _ => Nat.eqb (length (roundKeys rounds)) 0
  end.

End RoundKeys.

(** Sorting the digit keys by their value. *)
Fixpoint insert_by_number (k : string) (sorted : list string) : list string :=
  match sorted with
  | [] => [k]
  | x :: rest =>
      if (Store.digits_value 0 k <=? Store.digits_value 0 x)%Z
      then k :: sorted else x :: insert_by_number k rest
  end.

Definition sort_digit_keys (l : list string) : list string :=
  foldr insert_by_number [] l.

(** The order of [array.sort()]: code-unit order on strings. *)
Definition leb_string (a b : string) : Prop := String.leb a b = true.

(** A record whose only round is [null]. *)
Definition one_null_round : gmap string value := {[ "1" := VNull ]}.

End SoapControls.

(** * Properties *)

(** ** The patient store *)
Section PatientSliceFacts.
Import PatientSlice.

Lemma array_set_length arr i v :
  length (array_set arr i v) = Nat.max (length arr) (S i).
Proof.
  unfold array_set. case_decide.
  - rewrite length_insert. lia.
  - rewrite !length_app, length_replicate. simpl. lia.
Qed.

Lemma array_get_set arr i v : array_get (array_set arr i v) i = v.
Proof.
  unfold array_get, array_set. case_decide.
  - by rewrite list_lookup_insert_eq.
  - rewrite lookup_app_r by lia.
    rewrite lookup_app_r by (rewrite length_replicate; lia).
    rewrite length_replicate.
    by replace (i - length arr - (i - length arr)) with 0 by lia.
Qed.

Lemma array_get_last arr v : array_get (arr ++ [v]) (length (arr ++ [v]) - 1) = v.
Proof.
  unfold array_get. rewrite length_app. simpl.
  replace (length arr + 1 - 1) with (length arr + 0) by lia.
  by rewrite lookup_app_r, Nat.add_comm, Nat.add_sub by lia.
Qed.

Lemma consistent_nonempty s :
  patients s ≠ [] →
  consistent s ↔
    current s < length (patients s)
    ∧ currentPatient s = array_get (patients s) (current s).
Proof. unfold consistent. by destruct (patients s). Qed.

Lemma consistent_empty s :
  patients s = [] →
  consistent s ↔ current s = 0 ∧ currentPatient s = Str "".
Proof. unfold consistent. by intros ->. Qed.

Lemma initialState_consistent : consistent initialState.
Proof. by apply consistent_empty. Qed.

Lemma addPatient_consistent s p : consistent (addPatient s p).
Proof.
  apply consistent_nonempty; simpl.
  - by destruct (patients s).
  - split; [rewrite length_app; simpl; lia|].
    symmetry. apply array_get_last.
Qed.

Lemma setCurrentPatient_consistent s i :
  consistent s → consistent (setCurrentPatient s i).
Proof.
  intros Hs. unfold setCurrentPatient.
  destruct (_ || _) eqn:Hrange; [done|].
  apply orb_false_iff in Hrange as [Hlo Hhi].
  apply Z.ltb_ge in Hlo. apply Z.leb_gt in Hhi.
  apply consistent_nonempty; simpl.
  - intros Hnil. rewrite Hnil in Hhi. simpl in Hhi. lia.
  - split; [lia|done].
Qed.

Lemma addToCurrentPatient_consistent s p :
  consistent s → consistent (addToCurrentPatient s p).
Proof.
  intros Hs. apply consistent_nonempty; simpl.
  - intros Hnil. apply (f_equal length) in Hnil.
    rewrite array_set_length in Hnil. simpl in Hnil. lia.
  - split; [rewrite array_set_length; lia|done].
Qed.

Lemma reducer_consistent s a : consistent s → consistent (reducer s a).
Proof.
  destruct a; simpl; intros Hs.
  - apply addPatient_consistent.
  - apply initialState_consistent.
  - by apply setCurrentPatient_consistent.
  - by apply addToCurrentPatient_consistent.
Qed.

Lemma foldl_reducer_consistent acts s :
  consistent s → consistent (foldl reducer s acts).
Proof.
  revert s. induction acts as [|a acts IH]; simpl; [done|].
  intros s Hs. by apply IH, reducer_consistent.
Qed.

(** C9. [setCurrentPatient] leaves the state untouched for a payload
    that is negative or at least the length of [patients]; for a payload
    in range it sets [current] to it and [currentPatient] to the patient
    at that index, and keeps [patients]. *)
Theorem setCurrentPatient_atomic (s : IPatientCollection) (i : Z) :
  ((i < 0 ∨ Z.of_nat (length (patients s)) ≤ i)%Z →
     setCurrentPatient s i = s)
  ∧ ((0 ≤ i < Z.of_nat (length (patients s)))%Z →
     Z.of_nat (current (setCurrentPatient s i)) = i
     ∧ patients s !! Z.to_nat i = Some (currentPatient (setCurrentPatient s i))
     ∧ patients (setCurrentPatient s i) = patients s).
Proof.
  unfold setCurrentPatient. split.
  - intros Hout.
    destruct (_ || _) eqn:Hrange; [done|].
    apply orb_false_iff in Hrange as [Hlo Hhi].
    apply Z.ltb_ge in Hlo. apply Z.leb_gt in Hhi. lia.
  - intros [Hlo Hhi].
    destruct (_ || _) eqn:Hrange.
    { apply orb_true_iff in Hrange as [H|H];
        [apply Z.ltb_lt in H|apply Z.leb_le in H]; lia. }
    simpl. split; [lia|]. split; [|done].
    unfold array_get.
    destruct (lookup_lt_is_Some_2 (patients s) (Z.to_nat i)) as [x ->]; [lia|done].
Qed.

Lemma setCurrentPatient_atomic_witness :
  let s := mkState 1 [Str "MRN-1"; Str "MRN-2"] (Str "MRN-2") in
  setCurrentPatient s 2 = s
  ∧ setCurrentPatient s (-1) = s
  ∧ (Z.of_nat (current (setCurrentPatient s 0)) = 0%Z
     ∧ patients s !! Z.to_nat 0 = Some (currentPatient (setCurrentPatient s 0))
     ∧ patients (setCurrentPatient s 0) = patients s).
Proof.
  intros s. split; [|split].
  - apply (setCurrentPatient_atomic s 2). simpl. lia.
  - apply (setCurrentPatient_atomic s (-1)). simpl. lia.
  - apply (setCurrentPatient_atomic s 0). simpl. lia.
Defined.

End PatientSliceFacts.

(** ** The patient store on every payload *)
Section PatientStoreFacts.
Import PatientSlice PatientStore.

Lemma Qle_bool_inject_Z (a b : Z) :
  Qle_bool (inject_Z a) (inject_Z b) = (a <=? b)%Z.
Proof. unfold Qle_bool. simpl. by rewrite !Z.mul_1_r. Qed.

Lemma ltb_of_Z (a b : Z) : ltb (of_Z a) (of_Z b) = (a <? b)%Z.
Proof.
  unfold ltb, of_Z. rewrite Qle_bool_inject_Z.
  destruct (Z.leb_spec b a), (Z.ltb_spec a b); simpl; lia || done.
Qed.

Lemma geb_of_Z (a b : Z) : geb (of_Z a) (of_Z b) = (b <=? a)%Z.
Proof. unfold geb, of_Z. apply Qle_bool_inject_Z. Qed.

Lemma to_index_of_Z (z : Z) :
  to_index (of_Z z) = if (0 <=? z)%Z then Some (Z.to_nat z) else None.
Proof.
  unfold to_index, of_Z. simpl. rewrite Z.rem_1_r, Z.div_1_r. simpl.
  by rewrite andb_true_r.
Qed.

Lemma to_index_of_nat (n : nat) : to_index (of_nat n) = Some n.
Proof.
  unfold of_nat. rewrite to_index_of_Z.
  destruct (Z.leb_spec 0 (Z.of_nat n)); [|lia]. by rewrite Nat2Z.id.
Qed.

(** On integers the reducers are those of [PatientSlice]. *)
Lemma reducer_of_collection (s : PatientSlice.IPatientCollection)
    (a : PatientSlice.action) :
  reducer (of_collection s) (of_index_action a)
  = Some (of_collection (PatientSlice.reducer s a)).
Proof.
  destruct a as [p| |z|p]; simpl; try done.
  - unfold setCurrentPatient, PatientSlice.setCurrentPatient, of_nat.
    cbn [of_collection patients]. rewrite ltb_of_Z, geb_of_Z.
    change (Z.of_nat 0) with 0%Z.
    destruct (_ || _) eqn:Hrange; [done|].
    apply orb_false_iff in Hrange as [Hlo%Z.ltb_ge _].
    unfold of_collection, element.
    cbn [PatientSlice.current PatientSlice.patients PatientSlice.currentPatient].
    rewrite to_index_of_Z. destruct (Z.leb_spec 0 z); [|lia].
    unfold of_nat. by rewrite Z2Nat.id.
  - unfold addToCurrentPatient, of_collection.
    cbn [current patients]. by rewrite to_index_of_nat.
Qed.

Lemma dispatch_all_of_index_actions (acts : list PatientSlice.action) :
  dispatch_all (of_index_action <$> acts)
  = Some (of_collection (PatientSlice.dispatch_all acts)).
Proof.
  unfold dispatch_all, PatientSlice.dispatch_all.
  change (Some initialState) with (Some (of_collection PatientSlice.initialState)).
  generalize PatientSlice.initialState. 
  induction acts as [|a acts IH]; intros s; simpl; [done|].
  by rewrite reducer_of_collection, IH.
Qed.

Lemma integer_payloads_of_index_actions (acts : list action) :
  Forall integer_payload acts →
  ∃ acts', acts = of_index_action <$> acts'.
Proof.
  induction 1 as [|a acts Ha _ [acts' ->]]; [by exists []|].
  destruct a as [p| |x|p].
  - by exists (PatientSlice.AddPatient p :: acts').
  - by exists (PatientSlice.ClearPatients :: acts').
  - destruct Ha as [z ->]. by exists (PatientSlice.SetCurrentPatient z :: acts').
  - by exists (PatientSlice.AddToCurrentPatient p :: acts').
Qed.

Lemma is_append_of_index_action (acts : list PatientSlice.action) :
  existsb is_append (of_index_action <$> acts)
  = existsb PatientSlice.is_append acts.
Proof.
  induction acts as [|a acts IH]; [done|].
  rewrite fmap_cons. cbn [existsb]. rewrite IH. by destruct a.
Qed.

(** C8, amended. In every state reached from the initial state by
    dispatching [addPatient], [clearPatients], [setCurrentPatient] and
    [addToCurrentPatient] actions, the payloads of [setCurrentPatient]
    being integers: when [patients] is not empty, [current] is a valid
    index and [currentPatient] is [patients[current]]; when [patients] is
    empty and no [addToCurrentPatient] was dispatched, [current] is 0 and
    [currentPatient] is the empty string. *)
Theorem patient_store_invariant (acts : list action) :
  Forall integer_payload acts →
  ∃ s, dispatch_all acts = Some s
    ∧ (patients s ≠ [] →
       ∃ i, to_index (current s) = Some i
            ∧ i < length (patients s)
            ∧ patients s !! i = Some (currentPatient s))
    ∧ (patients s = [] → existsb is_append acts = false →
       current s = of_nat 0 ∧ currentPatient s = Str "").
Proof.
  intros [acts' ->]%integer_payloads_of_index_actions.
  rewrite dispatch_all_of_index_actions. eexists. split; [done|].
  assert (Hs : PatientSlice.consistent (PatientSlice.dispatch_all acts'))
    by apply foldl_reducer_consistent, initialState_consistent.
  cbn [of_collection current patients currentPatient]. split.
  - intros Hne. apply consistent_nonempty in Hs as [Hlt Hcur]; [|done].
    exists (PatientSlice.current (PatientSlice.dispatch_all acts')).
    rewrite to_index_of_nat. split; [done|]. split; [done|].
    rewrite Hcur. unfold PatientSlice.array_get.
    by destruct (lookup_lt_is_Some_2 _ _ Hlt) as [x ->].
  - intros Hnil _. apply consistent_empty in Hs as [-> ->]; done.
Qed.

Lemma patient_store_invariant_witness :
  ∃ s, dispatch_all [AddPatient "MRN-1"; AddPatient "MRN-2";
                     SetCurrentPatient (of_Z 0); AddToCurrentPatient "!"]
       = Some s
    ∧ (patients s ≠ [] →
       ∃ i, to_index (current s) = Some i
            ∧ i < length (patients s)
            ∧ patients s !! i = Some (currentPatient s))
    ∧ (patients s = [] →
       existsb is_append [AddPatient "MRN-1"; AddPatient "MRN-2";
                          SetCurrentPatient (of_Z 0); AddToCurrentPatient "!"]
       = false →
       current s = of_nat 0 ∧ currentPatient s = Str "").
Proof.
  apply (patient_store_invariant
           [AddPatient "MRN-1"; AddPatient "MRN-2";
            SetCurrentPatient (of_Z 0); AddToCurrentPatient "!"]).
  repeat constructor. by exists 0%Z.
Defined.

(** The range check of [setCurrentPatient] lets the payload [0.5]
    through: with two patients in the store, [current] becomes [0.5], which
    is no index, and [currentPatient] becomes [undefined]. *)
Lemma fractional_payload_breaks_invariant :
  ∃ s, dispatch_all half_selected = Some s
    ∧ patients s = [PatientSlice.Str "MRN-1"; PatientSlice.Str "MRN-2"]
    ∧ current s = Finite (1 # 2)
    ∧ ¬ valid_index (current s) (patients s)
    ∧ currentPatient s = PatientSlice.Undefined.
Proof.
  eexists. split; [reflexivity|]. simpl. repeat split.
  intros (i & Hi & _). discriminate Hi.
Qed.

End PatientStoreFacts.

(** ** The SOAP viewer: roles *)
Section RoleFacts.
Import PatientSOAP.

Lemma gset_size_zero (X : gset string) : Nat.eqb (size X) 0 = true ↔ X = ∅.
Proof. rewrite Nat.eqb_eq, size_empty_iff. by unfold_leibniz. Qed.

(** C10. With a non-empty list of available roles, [toggleRole] adds a
    role that was not selected, removes a selected role when others stay
    selected, selects all the available roles when the removal would leave
    nothing, and so never produces the empty selection. *)
Theorem toggleRole_never_empty (allRoles : list string) (role : string)
    (prev : gset string) :
  allRoles ≠ [] →
  (role ∉ prev → toggleRole allRoles role prev = prev ∪ {[role]})
  ∧ (role ∈ prev → prev ∖ {[role]} ≠ ∅ →
     toggleRole allRoles role prev = prev ∖ {[role]})
  ∧ (role ∈ prev → prev ∖ {[role]} = ∅ →
     toggleRole allRoles role prev = list_to_set allRoles)
  ∧ toggleRole allRoles role prev ≠ ∅.
Proof.
  intros Hroles. unfold toggleRole.
  assert (Hall : list_to_set allRoles ≠ (∅ : gset string)).
  { destruct allRoles as [|r rest]; [done|]. set_solver. }
  destruct (bool_decide_reflect (role ∈ prev)) as [Hin|Hout].
  - destruct (Nat.eqb _ 0) eqn:Hsize.
    + apply gset_size_zero in Hsize. by repeat split.
    + assert (prev ∖ {[role]} ≠ ∅).
      { intros Hemp. apply gset_size_zero in Hemp. congruence. }
      by repeat split.
  - assert (Hne : prev ∪ {[role]} ≠ ∅) by set_solver.
    destruct (Nat.eqb _ 0) eqn:Hsize.
    + by apply gset_size_zero in Hsize.
    + by repeat split.
Qed.

Lemma toggleRole_never_empty_witness :
  toggleRole ["nurse"; "physician"] "nurse" {["nurse"]}
  = list_to_set ["nurse"; "physician"]
  ∧ toggleRole ["nurse"; "physician"] "nurse" {["physician"]}
    = {["physician"]} ∪ {["nurse"]}
  ∧ toggleRole ["nurse"; "physician"] "nurse" {["nurse"; "physician"]}
    = {["nurse"; "physician"]} ∖ {["nurse"]}.
Proof.
  assert (Hroles : ["nurse"; "physician"] ≠ ([] : list string)) by discriminate.
  split; [|split].
  - destruct (toggleRole_never_empty _ "nurse" {["nurse"]} Hroles)
      as (_ & _ & Hall & _).
    apply Hall; set_solver.
  - destruct (toggleRole_never_empty _ "nurse" {["physician"]} Hroles)
      as (Hadd & _).
    apply Hadd. rewrite elem_of_singleton. discriminate.
  - destruct (toggleRole_never_empty _ "nurse" {["nurse"; "physician"]} Hroles)
      as (_ & Hdel & _).
    apply Hdel; [set_solver|].
    intros Hemp.
    assert (Hin : "physician" ∈ ({["nurse"; "physician"]} ∖ {["nurse"]} : gset string)).
    { apply elem_of_difference. split; [set_solver|].
      rewrite elem_of_singleton. discriminate. }
    rewrite Hemp in Hin. set_solver.
Defined.

Lemma insert_sorted_nonempty r sorted : insert_sorted r sorted ≠ [].
Proof. destruct sorted; simpl; [done|]. by destruct (String.leb _ _). Qed.

Lemma sort_nil l : sort l = [] ↔ l = [].
Proof.
  split; [|by intros ->].
  destruct l as [|x l]; [done|]. simpl. intros H.
  by apply insert_sorted_nonempty in H.
Qed.

Lemma set_add_nonempty set r : set_add set r ≠ [].
Proof.
  unfold set_add. case_bool_decide as Hin.
  - intros ->. by apply not_elem_of_nil in Hin.
  - by destruct set.
Qed.

Lemma collect_roles_nil (entries : list SOAPEntry) (set : list string) :
  foldl (fun set e =>
           match role e with
           | Some r => if JsString.truthy r then set_add set r else set
           | None => set
           end) set entries = []
  ↔ set = [] ∧ ∀ e, e ∈ entries → present (role e) = false.
Proof.
  revert set. induction entries as [|e entries IH]; intros set; simpl.
  - split; [intros ->; split; [done|]|by intros [? _]].
    intros e He. by apply not_elem_of_nil in He.
  - rewrite IH. unfold present. split.
    + intros [Hset Hrest].
      destruct (role e) as [r|] eqn:Hr; [destruct (JsString.truthy r) eqn:Ht|].
      * by apply set_add_nonempty in Hset.
      * split; [done|]. intros e' [->|He']%elem_of_cons; [by rewrite Hr|auto].
      * split; [done|]. intros e' [->|He']%elem_of_cons; [by rewrite Hr|auto].
    + intros [-> Hall]. split.
      * specialize (Hall e (list_elem_of_here _ _)).
        destruct (role e) as [r|]; [by rewrite Hall|done].
      * intros e' He'. apply Hall. by apply list_elem_of_further.
Qed.

Lemma forall_false_or_exists {A} (p : A → bool) (l : list A) :
  (∀ x, x ∈ l → p x = false) ∨ ∃ x, x ∈ l ∧ p x = true.
Proof.
  induction l as [|x l [IH|(y & Hy & Hp)]].
  - left. intros x Hx. by apply not_elem_of_nil in Hx.
  - destruct (p x) eqn:Hp.
    + right. exists x. split; [apply list_elem_of_here|done].
    + left. intros y [->|Hy]%elem_of_cons; auto.
  - right. exists y. split; [by apply list_elem_of_further|done].
Qed.

Lemma allRoles_nonempty (entries : list SOAPEntry) :
  allRoles entries ≠ [] ↔ ∃ e, e ∈ entries ∧ present (role e) = true.
Proof.
  unfold allRoles. rewrite sort_nil, collect_roles_nil. split.
  - intros Hno.
    destruct (forall_false_or_exists (fun e => present (role e)) entries)
      as [Hall|Hex]; [|done].
    by destruct Hno.
  - intros (e & He & Hp) [_ Hall]. rewrite (Hall e He) in Hp. done.
Qed.

Lemma role_selected_spec (selectedRoles : gset string) (e : SOAPEntry) :
  role_selected selectedRoles e = true
  ↔ no_role e ∨ ∃ r, role e = Some r ∧ r ∈ selectedRoles.
Proof.
  unfold role_selected, no_role.
  destruct (role e) as [r|]; [|split; [by left; left|done]].
  destruct r as [|c r]; simpl; [split; [by left; right|done]|].
  rewrite bool_decide_eq_true. split.
  - intros Hin. right. by eexists.
  - intros [[|]|(r' & [= <-] & Hin)]; done.
Qed.

Lemma present_spec (o : option string) :
  present o = true ↔ ∃ c, o = Some c ∧ c ≠ EmptyString.
Proof.
  destruct o as [[|c s]|]; simpl; split; try done.
  - by intros (c & [= <-] & Hc).
  - intros _. by eexists.
  - by intros (c & ? & _).
Qed.

Lemma filter_filter_andb {A} (p q : A → bool) (l : list A) :
  List.filter q (List.filter p l) = List.filter (fun x => p x && q x) l.
Proof.
  induction l as [|x l IH]; simpl; [done|].
  destruct (p x); simpl; [destruct (q x)|]; by rewrite ?IH.
Qed.

Lemma filter_nil_iff {A} (p : A → bool) (l : list A) :
  List.filter p l = [] ↔ ∀ x, x ∈ l → p x = false.
Proof.
  induction l as [|x l IH]; simpl.
  - split; [|done]. intros _ x Hx. by apply not_elem_of_nil in Hx.
  - destruct (p x) eqn:Hp.
    + split; [done|]. intros H. specialize (H x (list_elem_of_here _ _)). congruence.
    + rewrite IH. split.
      * intros H y [->|Hy]%elem_of_cons; auto.
      * intros H y Hy. apply H. by apply list_elem_of_further.
Qed.

(** The blocks shown for a list of entries are those of the entries that
    have text for the section, whatever the index the keys start from. *)
Lemma shown_imap_renderEntry (roles : list string) (sectionKey : TabKey)
    (entries : list SOAPEntry) (start : nat) :
  roles ≠ [] →
  (fun b => (heading b, content b))
    <$> omap id (imap (fun i => renderEntry roles sectionKey (start + i)) entries)
  = block_of sectionKey
      <$> List.filter (fun e => present (field e sectionKey)) entries.
Proof.
  intros Hroles. revert start.
  induction entries as [|e entries IH]; intros start; [done|].
  rewrite imap_cons. simpl.
  assert (Hshift :
    imap ((fun i => renderEntry roles sectionKey (start + i)) ∘ S) entries
    = imap (fun i => renderEntry roles sectionKey (S start + i)) entries).
  { apply imap_ext. intros i x _. simpl. f_equal. lia. }
  rewrite Hshift. unfold renderEntry at 1, present at 2.
  destruct (field e sectionKey) as [c|] eqn:Hc; [|apply IH].
  destruct (JsString.truthy c) eqn:Ht; [|apply IH].
  simpl. f_equal; [|apply (IH (S start))].
  unfold block_of. rewrite Hc. simpl.
  f_equal. destruct roles; [done|]. simpl. by rewrite andb_true_r.
Qed.

(** When the entries of the round carry at least one role and the
    selection is not empty, a section shows, in the order of the entries,
    exactly the entries whose role is absent (or empty) or selected and
    whose text for the section is not empty; it shows 'No data available'
    exactly when no entry passes the test on the role. *)
Lemma renderSectionContent_role_filter (currentEntries : list SOAPEntry)
    (selectedRoles : gset string) (sectionKey : TabKey) :
  (∃ e, e ∈ currentEntries ∧ present (role e) = true) →
  selectedRoles ≠ ∅ →
  let el := renderSectionContent currentEntries selectedRoles sectionKey in
  shown el
  = block_of sectionKey
      <$> List.filter (passes selectedRoles sectionKey) currentEntries
  ∧ (∀ e, passes selectedRoles sectionKey e = true
          ↔ (no_role e ∨ ∃ r, role e = Some r ∧ r ∈ selectedRoles)
            ∧ ∃ c, field e sectionKey = Some c ∧ c ≠ EmptyString)
  ∧ (el = NoDataAvailable
     ↔ ∀ e, e ∈ currentEntries →
            ¬ (no_role e ∨ ∃ r, role e = Some r ∧ r ∈ selectedRoles)).
Proof.
  intros Hroles%allRoles_nonempty Hsel el. subst el.
  unfold renderSectionContent.
  assert (Hlen : Nat.ltb 0 (length (allRoles currentEntries)) = true).
  { apply Nat.ltb_lt. destruct (allRoles currentEntries); [done|simpl; lia]. }
  assert (Hsize : Nat.ltb 0 (size selectedRoles) = true).
  { apply Nat.ltb_lt. destruct (size selectedRoles) eqn:Hs; [|lia].
    destruct Hsel. by apply gset_size_zero; rewrite Hs. }
  rewrite Hlen, Hsize. simpl.
  split; [|split].
  - destruct (Nat.eqb _ 0) eqn:Hnone.
    + apply Nat.eqb_eq, nil_length_inv in Hnone. simpl.
      unfold passes. by rewrite <- filter_filter_andb, Hnone.
    + simpl.
      rewrite (shown_imap_renderEntry _ _ _ 0 Hroles).
      unfold passes. by rewrite filter_filter_andb.
  - intros e. unfold passes.
    by rewrite andb_true_iff, role_selected_spec, present_spec.
  - destruct (Nat.eqb _ 0) eqn:Hnone.
    + apply Nat.eqb_eq, nil_length_inv in Hnone. split; [intros _|done].
      intros e He Hpass%role_selected_spec.
      rewrite filter_nil_iff in Hnone. rewrite (Hnone e He) in Hpass. done.
    + split; [done|]. intros Hall.
      apply Nat.eqb_neq in Hnone. destruct Hnone.
      apply length_zero_iff_nil, filter_nil_iff. intros e He.
      specialize (Hall e He). rewrite <- role_selected_spec in Hall.
      by destruct (role_selected selectedRoles e).
Qed.

Example renderSectionContent_example :
  shown (renderSectionContent round_entries_example {["nurse"]} KSubjective)
  = [(Some "nurse", "Sleeps well"); (None, "Family visit")].
Proof. by vm_compute. Qed.

(** C7. The last sentence of the claim fails when entries pass the test
    on the role but have no text for the section. The round holds a nurse,
    a physician and an entry without role; only the physician has a plan;
    with the nurse selected no entry passes the filter for the plan, and
    the section is an empty list of blocks, not 'No data available'. *)
Theorem renderSectionContent_blank_section :
  (∃ e, e ∈ round_entries_example ∧ present (role e) = true)
  ∧ ({["nurse"]} : gset string) ≠ ∅
  ∧ (∀ e, e ∈ round_entries_example →
       ¬ ((no_role e ∨ ∃ r, role e = Some r ∧ r ∈ ({["nurse"]} : gset string))
          ∧ ∃ c, field e KPlan = Some c ∧ c ≠ EmptyString))
  ∧ renderSectionContent round_entries_example {["nurse"]} KPlan
    = EntryList [None; None]
  ∧ renderSectionContent round_entries_example {["nurse"]} KPlan
    ≠ NoDataAvailable.
Proof.
  split; [|split; [|split; [|split]]].
  - exists (mkEntry (Some "Sleeps well") None None None (Some "nurse")).
    split; [apply list_elem_of_here|reflexivity].
  - intros Hempty.
    assert (Hin : "nurse" ∈ ({["nurse"]} : gset string))
      by by apply elem_of_singleton.
    rewrite Hempty in Hin. by apply not_elem_of_empty in Hin.
  - intros e He [Hrole (c & Hc & Hne)].
    apply elem_of_cons in He as [->|He]; [by simpl in Hc|].
    apply elem_of_cons in He as [->|He].
    + destruct Hrole as [[Hr|Hr]|(r & [= <-] & Hr)]; [done|done|].
      by apply elem_of_singleton in Hr.
    + apply list_elem_of_singleton in He as ->. by simpl in Hc.
  - by vm_compute.
  - intros H. vm_compute in H. discriminate H.
Qed.

End RoleFacts.

(** ** The SOAP viewer: normalisation of the rounds *)
Section NormalizationFacts.
Import Json PatientSOAP.

Lemma defined_at_spec (fields : gmap string value) (k : string) :
  defined_at fields k = true ↔ ∃ v, fields !! k = Some v ∧ v ≠ VUndefined.
Proof.
  unfold defined_at. destruct (fields !! k) as [v|].
  - destruct v; split; try done; try (intros _; eexists; split; done).
    intros (v & [= <-] & Hv). done.
  - split; [done|]. by intros (v & Hv & _).
Qed.

Lemma elem_of_keys (fields : gmap string value) (k : string) :
  k ∈ keys fields ↔ is_Some (fields !! k).
Proof.
  unfold keys. rewrite list_elem_of_fmap. split.
  - intros ([k' v] & -> & Hkv). apply elem_of_map_to_list in Hkv. by exists v.
  - intros [v Hv]. exists (k, v). split; [done|]. by apply elem_of_map_to_list.
Qed.

Lemma isSingle_spec (fields : gmap string value) :
  isSingle fields = true ↔ legacy_single_round fields.
Proof.
  unfold isSingle, legacy_single_round, has_soap_field, has_round_key.
  rewrite andb_true_iff, negb_true_iff, <- not_true_iff_false, !existsb_exists.
  split.
  - intros [(k & Hk & Hdef) Hno]. split.
    + apply defined_at_spec in Hdef as (v & Hv & Hu).
      exists k, v. by rewrite list_elem_of_In.
    + intros (k' & Hsome & Hnum). apply Hno. exists k'. split; [|done].
      by apply list_elem_of_In, elem_of_keys.
  - intros [(k & v & Hk & Hv & Hu) Hno]. split.
    + exists k. split; [by apply list_elem_of_In|].
      apply defined_at_spec. by exists v.
    + intros (k' & Hin & Hnum). apply Hno. exists k'. split; [|done].
      by apply elem_of_keys, list_elem_of_In.
Qed.

Lemma lookup_addRound i v result k :
  addRound i v result !! k
  = if decide (i = k ∧ i ≠ "__proto__") then
      match round_entries v with Some l => Some l | None => result !! k end
    else result !! k.
Proof.
  unfold addRound, round_entries.
  destruct (truthy v) eqn:Ht; simpl.
  - destruct (String.eqb_spec i "__proto__") as [->|Hproto].
    + case_decide as Hk; [by destruct Hk|done].
    + destruct v; rewrite lookup_insert; repeat case_decide; intuition.
  - by case_decide.
Qed.

Lemma lookup_forEach_addRound (fields : gmap string value) (k : string) :
  map_fold addRound ∅ fields !! k
  = if decide (k = "__proto__") then None else fields !! k ≫= round_entries.
Proof.
  revert k.
  apply (map_fold_weak_ind
           (fun result m =>
              ∀ k, result !! k
                   = if decide (k = "__proto__") then None
                     else m !! k ≫= round_entries)).
  - intros k. rewrite !lookup_empty. by case_decide.
  - intros i x m r Hfresh IH k.
    rewrite lookup_addRound, lookup_insert, IH.
    destruct (decide (k = "__proto__")) as [->|Hk].
    + case_decide as Hi; [by destruct Hi|done].
    + destruct (decide (i = k)) as [->|Hik].
      * rewrite decide_True by done. simpl. rewrite Hfresh.
        by destruct (round_entries x).
      * rewrite decide_False; [done|]. by intros [? _].
Qed.

(** The display model on every input: [null]/[undefined] gives the empty
    map; a legacy single round (an object with one of the SOAP fields and
    no all-digit key) gives the one round ["1"] holding the input itself;
    any other object is taken key by key, the key [__proto__] apart: an
    array is kept, an object is wrapped in a one-element list, [null],
    [undefined] and missing keys give no round. The key [__proto__] never
    gives a round. *)
Lemma normalizedRounds_by_key :
  normalizedRounds None = ∅
  ∧ ∀ fields : gmap string value,
      (legacy_single_round fields →
         normalizedRounds (Some fields) = {[ "1" := [VObject fields] ]})
      ∧ (¬ legacy_single_round fields →
         normalizedRounds (Some fields) !! "__proto__" = None
         ∧ ∀ k : string, k ≠ "__proto__" →
           (∀ items, fields !! k = Some (VArray items) →
              normalizedRounds (Some fields) !! k = Some items)
           ∧ (∀ o, fields !! k = Some (VObject o) →
              normalizedRounds (Some fields) !! k = Some [VObject o])
           ∧ (fields !! k = Some VNull ∨ fields !! k = Some VUndefined
              ∨ fields !! k = None →
              normalizedRounds (Some fields) !! k = None)).
Proof.
  split; [done|]. intros fields. unfold normalizedRounds. split.
  - intros Hsingle%isSingle_spec. by rewrite Hsingle.
  - intros Hmulti. destruct (isSingle fields) eqn:Hs.
    { by apply isSingle_spec in Hs. }
    split; [by rewrite lookup_forEach_addRound|].
    intros k Hk. rewrite lookup_forEach_addRound, decide_False by done.
    split; [|split].
    + by intros items ->.
    + by intros o ->.
    + by intros [->|[->| ->]].
Qed.

Example normalizedRounds_examples :
  normalizedRounds (Some legacy_rounds) = {[ "1" := [VObject legacy_rounds] ]}
  ∧ normalizedRounds (Some three_rounds) !! "1" = Some [physician_note; nurse_note]
  ∧ normalizedRounds (Some three_rounds) !! "2" = Some [nurse_note]
  ∧ normalizedRounds (Some three_rounds) !! "3" = None.
Proof. by vm_compute. Qed.

(** C1. The claim fails on the key [__proto__]: for the record
    [{"__proto__": [note]}], which is no legacy single round and holds an
    array under its key, [normalizedRounds] has no round at all, where the
    claim keeps the array under the key. *)
Theorem normalizedRounds_drops_proto_round :
  ¬ legacy_single_round proto_rounds
  ∧ proto_rounds !! "__proto__" = Some (VArray [nurse_note])
  ∧ normalizedRounds (Some proto_rounds) !! "__proto__" = None
  ∧ normalizedRounds (Some proto_rounds) = ∅.
Proof.
  split; [|by vm_compute].
  intros Hs%isSingle_spec. vm_compute in Hs. discriminate Hs.
Qed.

End NormalizationFacts.

(** ** Validation of the environment *)
Section AuthConfigFacts.
Import JsString AuthConfig.

Lemma blank_spec (value : option string) :
  blank value = true ↔ absent_or_blank value.
Proof.
  unfold blank, absent_or_blank. destruct value as [v|].
  - rewrite orb_true_iff, String.eqb_eq. split.
    + intros [Hempty|Htrim]; right; exists v; split; try done.
      by destruct v.
    + intros [|(v' & [= <-] & Htrim)]; [done|by right].
  - split; [by left|done].
Qed.

Lemma blank_false_spec (value : option string) :
  blank value = false ↔ ¬ absent_or_blank value.
Proof. rewrite <- blank_spec. by destruct (blank value). Qed.

Lemma incomplete_spec (env : Env) :
  incomplete env
  ↔ blank (VITE_AZURE_CLIENT_ID env) || blank (VITE_AZURE_AUTHORITY env)
    || blank (VITE_AZURE_REDIRECT_URI env) = true.
Proof.
  unfold incomplete. rewrite !orb_true_iff, !blank_spec. tauto.
Qed.

Lemma missing_unfold (env : Env) :
  missing (required env)
  = (if blank (VITE_AZURE_CLIENT_ID env) then ["VITE_AZURE_CLIENTID"] else [])
    ++ (if blank (VITE_AZURE_AUTHORITY env) then ["VITE_AZURE_AUTHORITY"] else [])
    ++ (if blank (VITE_AZURE_REDIRECT_URI env) then ["VITE_AZURE_REDIRECTURI"] else []).
Proof.
  unfold missing, required, entries. simpl.
  by destruct (blank (VITE_AZURE_CLIENT_ID env)),
    (blank (VITE_AZURE_AUTHORITY env)), (blank (VITE_AZURE_REDIRECT_URI env)).
Qed.

Lemma elem_of_if_singleton (b : bool) (x y : string) :
  x ∈ (if b then [y] else []) ↔ b = true ∧ x = y.
Proof.
  destruct b.
  - rewrite list_elem_of_singleton. tauto.
  - rewrite elem_of_nil. split; [done|]. by intros [? _].
Qed.

Lemma invalid_is_not_missing (uri : string) (names : list string) :
  invalid_message uri ≠ missing_message names.
Proof. unfold invalid_message, missing_message. simpl. discriminate. Qed.

(** Validation throws the error built from the labels of the missing
    entries exactly when one of the three variables is absent or blank
    once trimmed; the label of an entry is listed exactly when its
    variable is the one missing; with a complete configuration it throws
    when the redirect URI starts with neither [http://] nor [https://],
    and otherwise returns the three values as they are. *)
Lemma validateRequiredEnvVars_complete_or_throws (env : Env) :
  (incomplete env
   ↔ validateRequiredEnvVars env
     = Throws (missing_message (missing (required env))))
  ∧ (("VITE_AZURE_CLIENTID" ∈ missing (required env)
      ↔ absent_or_blank (VITE_AZURE_CLIENT_ID env))
     ∧ ("VITE_AZURE_AUTHORITY" ∈ missing (required env)
        ↔ absent_or_blank (VITE_AZURE_AUTHORITY env))
     ∧ ("VITE_AZURE_REDIRECTURI" ∈ missing (required env)
        ↔ absent_or_blank (VITE_AZURE_REDIRECT_URI env)))
  ∧ (¬ incomplete env →
     ∃ uri, VITE_AZURE_REDIRECT_URI env = Some uri
       ∧ validateRequiredEnvVars env
         = if startsWith "http://" uri || startsWith "https://" uri
           then Returns {| clientId := VITE_AZURE_CLIENT_ID env;
                           authority := VITE_AZURE_AUTHORITY env;
                           redirectUri := VITE_AZURE_REDIRECT_URI env |}
           else Throws (invalid_message uri)).
Proof.
  assert (Hcomplete : ¬ incomplete env →
     ∃ uri, VITE_AZURE_REDIRECT_URI env = Some uri
       ∧ validateRequiredEnvVars env
         = if startsWith "http://" uri || startsWith "https://" uri
           then Returns (required env) else Throws (invalid_message uri)).
  { rewrite incomplete_spec. intros Hc.
    apply not_true_is_false in Hc.
    apply orb_false_iff in Hc as [[Hid Hauth]%orb_false_iff Huri].
    unfold validateRequiredEnvVars. rewrite missing_unfold, Hid, Hauth, Huri.
    cbn -[startsWith invalid_message missing_message].
    destruct (VITE_AZURE_REDIRECT_URI env) as [uri|] eqn:Hr; [|done].
    exists uri. split; [done|].
    by destruct (startsWith "http://" uri), (startsWith "https://" uri). }
  split; [|split].
  - split.
    + rewrite incomplete_spec. intros Hinc.
      unfold validateRequiredEnvVars. rewrite missing_unfold.
      destruct (blank (VITE_AZURE_CLIENT_ID env)),
        (blank (VITE_AZURE_AUTHORITY env)),
        (blank (VITE_AZURE_REDIRECT_URI env)); done.
    + intros Hthrow.
      destruct (forall_false_or_exists blank
                  [VITE_AZURE_CLIENT_ID env; VITE_AZURE_AUTHORITY env;
                   VITE_AZURE_REDIRECT_URI env]) as [Hall|(v & Hv & Hb)].
      * assert (Hno : ¬ incomplete env).
        { rewrite incomplete_spec.
          rewrite !Hall by (repeat constructor). done. }
        destruct (Hcomplete Hno) as (uri & _ & Hres).
        rewrite Hres in Hthrow.
        destruct (_ || _); [done|].
        assert (Hmsg : invalid_message uri
                       = missing_message (missing (required env)))
          by congruence.
        by apply invalid_is_not_missing in Hmsg.
      * apply blank_spec in Hb. unfold incomplete.
        apply elem_of_cons in Hv as [->|Hv]; [tauto|].
        apply elem_of_cons in Hv as [->|Hv]; [tauto|].
        apply list_elem_of_singleton in Hv as ->. tauto.
  - rewrite missing_unfold, <- !blank_spec.
    rewrite !elem_of_app, !elem_of_if_singleton.
    repeat split; intros H; intuition (try discriminate; auto).
  - exact Hcomplete.
Qed.

(** C4. The message does not list the missing variable: with
    [VITE_AZURE_CLIENT_ID] not set, the text thrown names
    [VITE_AZURE_CLIENTID], the upper-cased key of the entry, and the name
    of the variable occurs nowhere in it. *)
Theorem validateRequiredEnvVars_misnames_variable :
  validateRequiredEnvVars client_id_unset
  = Throws "Missing required Azure AD configuration: VITE_AZURE_CLIENTID. Please check your .env file."
  ∧ Store.includes "VITE_AZURE_CLIENTID"
      "Missing required Azure AD configuration: VITE_AZURE_CLIENTID. Please check your .env file."
    = true
  ∧ Store.includes "VITE_AZURE_CLIENT_ID"
      "Missing required Azure AD configuration: VITE_AZURE_CLIENTID. Please check your .env file."
    = false.
Proof. by vm_compute. Qed.

Example missing_message_example :
  validateRequiredEnvVars broken_env
  = Throws "Missing required Azure AD configuration: VITE_AZURE_CLIENTID, VITE_AZURE_AUTHORITY. Please check your .env file.".
Proof. reflexivity. Qed.

End AuthConfigFacts.

(** ** Token acquisition *)
Section TokenFacts.
Import Json Store.

(** Unfolds the monad down to functions on the world. *)
Ltac run :=
  cbv [getAuthToken fetchPatient handleSearch try_catch mbind M_bind bind mret
       M_ret ret throw lift emit get_instance put_instance
       call_getAllAccounts call_acquireTokenSilent call_acquireTokenPopup
       call_loginPopup next answer msalInstance trace].

(** C5. [getAuthToken] never throws. It returns [null] when there is no
    MSAL instance or no account; with an account it returns the token of
    the silent acquisition, or, when that fails, the token of the popup
    acquisition, and [null] only when both fail. *)
Theorem getAuthToken_never_throws (w : World) :
  (∃ token, (getAuthToken w).1 = Resolved token)
  ∧ (msalInstance w = None → (getAuthToken w).1 = Resolved None)
  ∧ (∀ m, msalInstance w = Some m →
       (answer (getAllAccounts m) = Resolved 0 →
          (getAuthToken w).1 = Resolved None)
       ∧ (∀ n, answer (getAllAccounts m) = Resolved (S n) →
            (∀ t, answer (acquireTokenSilent m) = Resolved t →
               (getAuthToken w).1 = Resolved (Some t))
            ∧ (∀ e t, answer (acquireTokenSilent m) = Rejected e →
                 answer (acquireTokenPopup m) = Resolved t →
                 (getAuthToken w).1 = Resolved (Some t))
            ∧ ((getAuthToken w).1 = Resolved None
               ↔ (∃ e, answer (acquireTokenSilent m) = Rejected e)
                 ∧ (∃ e, answer (acquireTokenPopup m) = Rejected e)))).
Proof.
  destruct w as [[[accounts silent popup login]|] tr].
  - split; [|split; [done|]].
    + run.
      destruct accounts as [|[[|n]|e] accounts];
        destruct silent as [|[t|e'] silent];
        destruct popup as [|[t'|e''] popup]; simpl; eauto.
    + intros m [= <-]. simpl. split.
      * run. destruct accounts as [|[[|n]|e] accounts]; simpl; done.
      * intros n Hacc. run. unfold answer in *.
        destruct accounts as [|[[|n']|e] accounts]; simpl in Hacc; try done.
        split; [|split].
        -- intros t Hs. destruct silent as [|[t'|e'] silent]; simpl in *; congruence.
        -- intros e t Hs Hp.
           destruct silent as [|[t'|e'] silent]; simpl in *; try done;
             destruct popup as [|[t''|e''] popup]; simpl in *; congruence.
        -- destruct silent as [|[t'|e'] silent]; simpl;
             destruct popup as [|[t''|e''] popup]; simpl;
             split; try done; try (intros [[? ?] [? ?]]; done); eauto.
  - split; [by eexists|]. split; [done|]. by intros m.
Qed.

Lemma getAuthToken_never_throws_witness :
  (getAuthToken signed_out).1 = Resolved None
  ∧ (getAuthToken signed_in).1 = Resolved (Some "t1").
Proof.
  split.
  - apply (getAuthToken_never_throws signed_out). reflexivity.
  - destruct (getAuthToken_never_throws signed_in) as (_ & _ & Hinst).
    destruct (Hinst _ eq_refl) as [_ Haccount].
    destruct (Haccount 0 eq_refl) as [Hsilent _].
    apply Hsilent. reflexivity.
Defined.

End TokenFacts.

(** ** The streaming consumer *)
Section WriterFacts.
Import Json Store.

Variable JSON_parse : string → outcome value.
Variable greater_than_zero : value → bool.

Lemma added_app (evs1 evs2 : list event) :
  added (evs1 ++ evs2) = added evs1 ++ added evs2.
Proof. apply omap_app. Qed.

Lemma added_message (m : value) (evs : list event) :
  added (AddMessage m :: evs) = m :: added evs.
Proof. done. Qed.

Lemma adds_nil (w : World) : adds (ret tt) w [].
Proof. unfold adds, ret. rewrite app_nil_r. by destruct w. Qed.

Lemma adds_bind (m k : M unit) (w : World) (evs1 evs2 : list event) :
  adds m w evs1 →
  adds k {| msalInstance := msalInstance w; trace := trace w ++ evs1 |} evs2 →
  adds (m;; k) w (evs1 ++ evs2).
Proof.
  unfold adds, mbind, M_bind, bind. intros -> ->. simpl. by rewrite app_assoc.
Qed.

Lemma handlePart_blank (part : string) (w : World) :
  nonblank (JsString.trim part) = false →
  adds (handlePart JSON_parse greater_than_zero part) w [].
Proof.
  unfold nonblank, handlePart. intros ->. simpl. apply adds_nil.
Qed.

Lemma handlePart_message (part : string) (m : value) (w : World) :
  nonblank (JsString.trim part) = true →
  JSON_parse (JsString.trim part) = Resolved m →
  nullish m = false →
  ∃ evs, adds (handlePart JSON_parse greater_than_zero part) w (AddMessage m :: evs)
         ∧ added evs = [].
Proof.
  unfold nonblank, handlePart, adds. intros -> Hparse Hnull. simpl.
  cbv [mbind M_bind bind lift emit]. rewrite Hparse. simpl. rewrite Hnull.
  destruct (is_string (prop m "type") "writer").
  { destruct (_ && _).
    - exists [CreateArticle ""]. split; [|done].
      cbv [emit]. simpl. by rewrite <- app_assoc.
    - by exists []. }
  destruct (is_string (prop m "type") "partial"); [|by exists []].
  destruct (_ && _); [|by exists []].
  eexists [AddToArticle _]. split; [|done].
  cbv [emit]. simpl. by rewrite <- app_assoc.
Qed.

Lemma forEach_parts (parts : list string) (messages : list value) (w : World) :
  parses JSON_parse (List.filter nonblank (JsString.trim <$> parts)) messages →
  ∃ evs, adds (forEach parts (handlePart JSON_parse greater_than_zero)) w evs
         ∧ added evs = messages.
Proof.
  revert messages w. induction parts as [|part parts IH]; intros messages w Hp.
  - apply Forall2_nil_inv_l in Hp as ->. exists []. split; [apply adds_nil|done].
  - simpl in Hp. destruct (nonblank (JsString.trim part)) eqn:Hb.
    + apply Forall2_cons_inv_l in Hp as (m & rest & [Hparse Hnull] & Hrest & ->).
      destruct (handlePart_message part m w Hb Hparse Hnull) as (evs1 & H1 & Hnone).
      destruct (IH rest {| msalInstance := msalInstance w;
                           trace := trace w ++ AddMessage m :: evs1 |} Hrest)
        as (evs2 & H2 & Hadded).
      exists ((AddMessage m :: evs1) ++ evs2). split.
      * simpl forEach. by eapply adds_bind.
      * by rewrite added_app, added_message, Hnone, Hadded.
    + destruct (IH messages {| msalInstance := msalInstance w;
                               trace := trace w ++ [] |} Hp)
        as (evs2 & H2 & Hadded).
      exists ([] ++ evs2). split; [|done].
      simpl forEach. eapply adds_bind; [by apply handlePart_blank|done].
Qed.

Lemma forEach_chunks (chunks : list string) (messages : list value) (w : World) :
  parses JSON_parse (chunk_pieces chunks) messages →
  ∃ evs, adds (forEach chunks (handleChunk JSON_parse greater_than_zero)) w evs
         ∧ added evs = messages.
Proof.
  revert messages w. induction chunks as [|chunk chunks IH]; intros messages w Hp.
  - apply Forall2_nil_inv_l in Hp as ->. exists []. split; [apply adds_nil|done].
  - unfold chunk_pieces in Hp. rewrite bind_cons in Hp.
    apply Forall2_app_inv_l in Hp as (ms1 & ms2 & H1 & H2 & ->).
    destruct (forEach_parts _ ms1 w H1) as (evs1 & Hadds1 & Hadded1).
    destruct (IH ms2 {| msalInstance := msalInstance w;
                        trace := trace w ++ evs1 |} H2)
      as (evs2 & Hadds2 & Hadded2).
    exists (evs1 ++ evs2). split.
    + simpl forEach. by eapply adds_bind.
    + by rewrite added_app, Hadded1, Hadded2.
Qed.

(** A run of [callApi] on one streamed answer whose pieces all parse. *)
Lemma callApi_streamed (chunks : list string) (messages : list value)
    (authorization : option string) (w : World) :
  parses JSON_parse (chunk_pieces chunks) messages →
  ∃ evs, adds (callApi JSON_parse greater_than_zero
                 [Resolved (streamed chunks)] authorization) w
              (Fetch authorization :: evs)
         ∧ added evs = messages.
Proof.
  intros Hp.
  destruct (forEach_chunks chunks messages
              {| msalInstance := msalInstance w;
                 trace := trace w ++ [Fetch authorization] |} Hp)
    as (evs & Hadds & Hadded).
  exists evs. split; [|done].
  unfold adds in *. simpl in Hadds.
  cbv [callApi attempt try_catch mbind M_bind bind emit lift ret readBody
       streamed status body Nat.eqb].
  simpl. rewrite Hadds. simpl. by rewrite <- app_assoc.
Qed.

Lemma append_cons (x : ascii) (a b : string) :
  String x a +:+ b = String x (a +:+ b).
Proof. reflexivity. Qed.

Lemma append_nil_l (b : string) : EmptyString +:+ b = b.
Proof. reflexivity. Qed.

Lemma append_assoc (a b c : string) : (a +:+ b) +:+ c = a +:+ (b +:+ c).
Proof.
  induction a as [|x a IH]; [done|]. by rewrite !append_cons, IH.
Qed.

Lemma append_nil_r (a : string) : a +:+ EmptyString = a.
Proof. induction a as [|x a IH]; [done|]. by rewrite append_cons, IH. Qed.

Lemma split_cons (sep : ascii) (s : string) :
  ∃ p ps, JsString.split sep s = p :: ps.
Proof.
  induction s as [|c s (p & ps & IH)]; simpl; [by eexists _, _|].
  destruct (Ascii.eqb c sep); [by eexists _, _|].
  rewrite IH. by eexists _, _.
Qed.

(** Cutting a text that contains a separator: the pieces before it, then
    the pieces after it. *)
Lemma split_app_sep (sep : ascii) (s t : string) :
  JsString.split sep (s +:+ String sep t)
  = JsString.split sep s ++ JsString.split sep t.
Proof.
  induction s as [|c s IH].
  - rewrite append_nil_l. simpl. by rewrite Ascii.eqb_refl.
  - rewrite append_cons. simpl.
    destruct (Ascii.eqb c sep); [by rewrite IH|].
    rewrite IH. by destruct (split_cons sep s) as (p & ps & ->).
Qed.

Lemma pieces_app_LF (s t : string) :
  pieces (s +:+ String JsString.LF t) = pieces s ++ pieces t.
Proof.
  unfold pieces. by rewrite split_app_sep, fmap_app, List.filter_app.
Qed.

Lemma pieces_ends_with_LF (chunk rest : string) :
  ends_with_LF chunk →
  pieces (chunk +:+ rest) = pieces chunk ++ pieces rest.
Proof.
  intros [s ->]. rewrite append_assoc, append_cons, append_nil_l.
  rewrite !pieces_app_LF. by rewrite app_nil_r.
Qed.

(** When every chunk but the last ends with a line feed, cutting chunk by
    chunk gives the lines of the stream. *)
Lemma chunk_pieces_stream_lines (chunks : list string) (last : string) :
  Forall ends_with_LF chunks →
  chunk_pieces (chunks ++ [last]) = stream_lines (chunks ++ [last]).
Proof.
  unfold chunk_pieces, stream_lines.
  induction 1 as [|chunk chunks Hchunk _ IH]; simpl.
  - by rewrite append_nil_r, app_nil_r.
  - rewrite pieces_ends_with_LF by done. by rewrite <- IH.
Qed.

Lemma new_events_adds (m : M unit) (w : World) (evs : list event) :
  adds m w evs → new_events w (m w).2 = evs.
Proof. unfold adds, new_events. intros ->. simpl. apply drop_app_length. Qed.

(** C2, amended. The consumer cuts every chunk on its own: when the
    trimmed non-blank pieces of the chunks all parse, each of them is
    passed to [addMessage] once, in the order of arrival. When moreover
    every chunk but the last ends with a line feed, so that no line spans
    two chunks, these are the lines of the stream. *)
Theorem writer_decodes_chunk_by_chunk :
  (∀ chunks messages authorization w,
     parses JSON_parse (chunk_pieces chunks) messages →
     added (new_events w
              (callApi JSON_parse greater_than_zero
                 [Resolved (streamed chunks)] authorization w).2)
     = messages)
  ∧ (∀ chunks last messages authorization w,
       Forall ends_with_LF chunks →
       parses JSON_parse (stream_lines (chunks ++ [last])) messages →
       added (new_events w
                (callApi JSON_parse greater_than_zero
                   [Resolved (streamed (chunks ++ [last]))] authorization w).2)
       = messages).
Proof.
  assert (Hchunks : ∀ chunks messages authorization w,
     parses JSON_parse (chunk_pieces chunks) messages →
     added (new_events w
              (callApi JSON_parse greater_than_zero
                 [Resolved (streamed chunks)] authorization w).2)
     = messages).
  { intros chunks messages authorization w Hp.
    destruct (callApi_streamed chunks messages authorization w Hp)
      as (evs & Hadds & Hadded).
    rewrite (new_events_adds _ _ _ Hadds). by rewrite <- Hadded. }
  split; [done|].
  intros chunks last messages authorization w Hlf Hp.
  apply Hchunks. by rewrite chunk_pieces_stream_lines.
Qed.

(** If the first piece of the first chunk is not JSON on its own, as is
    the first half of a line cut by a chunk boundary, the failure is
    reported and nothing else of the stream is read. *)
Lemma broken_first_piece_is_reported (chunk piece : string)
    (rest chunks : list string) (e : string) (authorization : option string)
    (w : World) :
  JsString.split JsString.LF chunk = piece :: rest →
  nonblank (JsString.trim piece) = true →
  JSON_parse (JsString.trim piece) = Rejected e →
  new_events w
    (callApi JSON_parse greater_than_zero
       [Resolved (streamed (chunk :: chunks))] authorization w).2
  = [Fetch authorization; AddMessage (error_message api_failed)].
Proof.
  intros Hsplit Hb Hparse. unfold new_events, nonblank in *.
  cbv [callApi attempt try_catch mbind M_bind bind emit lift ret readBody
       streamed status body Nat.eqb handleChunk].
  simpl. rewrite Hsplit. simpl.
  cbv [mbind M_bind bind handlePart]. rewrite Hb, Hparse. simpl.
  rewrite <- app_assoc. apply drop_app_length.
Qed.

End WriterFacts.

(** C2 fails as stated: the line [12] arriving as the chunks [1] and [2]
    is passed to [addMessage] as the two messages 1 and 2. *)
Lemma split_line_is_parsed_twice :
  ¬ Store.decodes_lines_across_chunks Store.parse_numeral Store.number_gt0.
Proof.
  intros Hclaim.
  specialize (Hclaim ["1"; "2"] [Json.VNumber 12] None
                (Store.mkWorld None [])).
  assert (Hlines : Store.parses Store.parse_numeral
                     (Store.stream_lines ["1"; "2"]) [Json.VNumber 12]).
  { repeat constructor. }
  specialize (Hclaim Hlines). vm_compute in Hclaim. discriminate Hclaim.
Qed.

Lemma writer_decodes_chunk_by_chunk_witness :
  Store.added
    (Store.new_events (Store.mkWorld None [])
       (Store.callApi Store.parse_numeral Store.number_gt0
          [Store.Resolved
             (Store.streamed (["1" +:+ String JsString.LF "2" +:+ String JsString.LF ""]
                              ++ [" 3 "]))]
          None (Store.mkWorld None [])).2)
  = [Json.VNumber 1; Json.VNumber 2; Json.VNumber 3].
Proof.
  apply (writer_decodes_chunk_by_chunk Store.parse_numeral Store.number_gt0).
  - repeat constructor.
    by exists ("1" +:+ String JsString.LF "2").
  - repeat constructor.
Defined.


(** ** Failure handling *)
Section RecoveryFacts.
Import Json Store.

Lemma extends_refl (w : World) : extends w w.
Proof. exists []. by rewrite app_nil_r. Qed.

Lemma extends_trans (w1 w2 w3 : World) :
  extends w1 w2 → extends w2 w3 → extends w1 w3.
Proof.
  intros [evs1 H1] [evs2 H2]. exists (evs1 ++ evs2).
  by rewrite H2, H1, app_assoc.
Qed.

Lemma monotone_ret {A} (a : A) : monotone (mret a : M A).
Proof. intros w. apply extends_refl. Qed.

Lemma monotone_throw {A} (e : string) : monotone (throw e : M A).
Proof. intros w. apply extends_refl. Qed.

Lemma monotone_lift {A} (o : outcome A) : monotone (lift o).
Proof. intros w. apply extends_refl. Qed.

Lemma monotone_emit (e : event) : monotone (emit e).
Proof. intros w. by exists [e]. Qed.

Lemma monotone_get_instance : monotone get_instance.
Proof. intros w. apply extends_refl. Qed.

Lemma monotone_put_instance (m : Msal) : monotone (put_instance m).
Proof. intros w. exists []. simpl. by rewrite app_nil_r. Qed.

Lemma monotone_bind {A B} (m : M A) (k : A → M B) :
  monotone m → (∀ a, monotone (k a)) → monotone (m ≫= k).
Proof.
  intros Hm Hk w. unfold mbind, M_bind, bind.
  specialize (Hm w). destruct (m w) as [[a|e] w']; simpl in *; [|done].
  eapply extends_trans; [done|apply Hk].
Qed.

Lemma monotone_try_catch {A} (m : M A) (handler : string → M A) :
  monotone m → (∀ e, monotone (handler e)) → monotone (try_catch m handler).
Proof.
  intros Hm Hh w. unfold try_catch.
  specialize (Hm w). destruct (m w) as [[a|e] w']; simpl in *; [done|].
  eapply extends_trans; [done|apply Hh].
Qed.

Lemma monotone_forEach {A} (l : list A) (f : A → M unit) :
  (∀ x, monotone (f x)) → monotone (forEach l f).
Proof.
  intros Hf. induction l as [|x l IH]; simpl.
  - apply (monotone_ret tt).
  - apply monotone_bind; [apply Hf|by intros _].
Qed.

(** Proves that a computation built from the primitives is monotone. *)
Ltac monotonicity :=
  repeat first
    [ apply monotone_bind; [|intros ?]
    | apply monotone_try_catch; [|intros ?]
    | apply monotone_forEach; intros ?
    | apply monotone_emit
    | apply monotone_get_instance
    | apply monotone_put_instance
    | apply monotone_lift
    | apply monotone_throw
    | apply @monotone_ret
    | match goal with
      | |- monotone (match ?x with _ => _ end) => destruct x
      | |- monotone (let (_, _) := ?x in _) => destruct x
      end
    | assumption
    | solve [auto] ].

Lemma monotone_call_getAllAccounts : monotone call_getAllAccounts.
Proof. unfold call_getAllAccounts. monotonicity. Qed.

Lemma monotone_call_acquireTokenSilent : monotone call_acquireTokenSilent.
Proof. unfold call_acquireTokenSilent. monotonicity. Qed.

Lemma monotone_call_acquireTokenPopup : monotone call_acquireTokenPopup.
Proof. unfold call_acquireTokenPopup. monotonicity. Qed.

Lemma monotone_call_loginPopup : monotone call_loginPopup.
Proof. unfold call_loginPopup. monotonicity. Qed.

Lemma monotone_getAuthToken : monotone getAuthToken.
Proof.
  pose proof monotone_call_getAllAccounts.
  pose proof monotone_call_acquireTokenSilent.
  pose proof monotone_call_acquireTokenPopup.
  unfold getAuthToken. monotonicity.
Qed.

Section WithParser.
Variable JSON_parse : string → outcome value.
Variable greater_than_zero : value → bool.

Lemma monotone_handlePart (part : string) :
  monotone (handlePart JSON_parse greater_than_zero part).
Proof. unfold handlePart. monotonicity. Qed.

Lemma monotone_readBody (response : Response) :
  monotone (readBody JSON_parse greater_than_zero response).
Proof.
  unfold readBody, handleChunk. monotonicity. apply monotone_handlePart.
Qed.

Lemma monotone_reauthenticate : monotone reauthenticate.
Proof.
  pose proof monotone_call_loginPopup. pose proof monotone_getAuthToken.
  unfold reauthenticate. monotonicity.
Qed.

(** Every run of the [try] block starts by sending the request. *)
Lemma attempt_sends_first (o : outcome Response) (authorization : option string)
    (w : World) :
  ∃ evs, trace (attempt JSON_parse greater_than_zero o authorization w).2
         = trace w ++ Fetch authorization :: evs.
Proof.
  unfold attempt, try_catch.
  set (rest := (response ← lift o; _) : M (option string)).
  assert (Hrest : monotone rest).
  { pose proof monotone_reauthenticate. pose proof monotone_readBody.
    unfold rest. monotonicity. }
  unfold mbind at 1, M_bind at 1, bind at 1, emit at 1.
  specialize (Hrest {| msalInstance := msalInstance w;
                       trace := trace w ++ [Fetch authorization] |}).
  destruct (rest _) as [[r|e] w'] eqn:Hrun; destruct Hrest as [evs Hevs];
    simpl in *.
  - exists evs. by rewrite Hevs, <- app_assoc.
  - exists (evs ++ [AddMessage (error_message api_failed)]).
    unfold mbind, M_bind, bind, emit. simpl.
    by rewrite Hevs, <- !app_assoc.
Qed.

Lemma monotone_attempt (o : outcome Response) (authorization : option string) :
  monotone (attempt JSON_parse greater_than_zero o authorization).
Proof.
  intros w. destruct (attempt_sends_first o authorization w) as [evs Hevs].
  by exists (Fetch authorization :: evs).
Qed.

Lemma callApi_sends_first (network : list (outcome Response))
    (authorization : option string) (w : World) :
  ∃ evs, trace (callApi JSON_parse greater_than_zero network authorization w).2
         = trace w ++ Fetch authorization :: evs.
Proof.
  revert authorization w.
  induction network as [|o network IH]; intros authorization w; cbn [callApi].
  - destruct (attempt_sends_first (Rejected no_answer) authorization w)
      as [evs Hevs].
    unfold mbind, M_bind, bind.
    destruct (attempt _ _ _ _ w) as [[r|e] w']; by exists evs.
  - destruct (attempt_sends_first o authorization w) as [evs Hevs].
    unfold mbind, M_bind, bind.
    destruct (attempt _ _ _ _ w) as [[[auth|]|e] w']; simpl in *;
      try by exists evs.
    destruct (IH (Some auth) w') as [evs' Hevs'].
    exists (evs ++ Fetch (Some auth) :: evs').
    by rewrite Hevs', Hevs, <- app_assoc.
Qed.

(** *** The writer request *)

(** A 401 answered by a successful [loginPopup] and a usable new token:
    the call goes on as a new call with the new header. *)
Lemma callApi_reissues (response : Response) (network : list (outcome Response))
    (authorization : option string) (w w2 : World) (m : Msal)
    (token : option string) (t : string) :
  status response = 401 →
  msalInstance w = Some m →
  answer (loginPopup m) = Resolved tt →
  getAuthToken (after_login w m authorization) = (Resolved token, w2) →
  usable token = Some t →
  callApi JSON_parse greater_than_zero (Resolved response :: network)
    authorization w
  = callApi JSON_parse greater_than_zero network (Some (bearer t)) w2.
Proof.
  intros Hstatus Hinst Hlogin Htoken Husable.
  cbn [callApi].
  assert (Hattempt :
    attempt JSON_parse greater_than_zero (Resolved response) authorization w
    = (Resolved (Some (bearer t)), w2)).
  { unfold attempt, try_catch at 1.
    cbv [mbind M_bind bind emit lift]. rewrite Hstatus. simpl.
    unfold reauthenticate.
    cbv [mbind M_bind bind get_instance try_catch call_loginPopup
         put_instance emit lift]. simpl. rewrite Hinst. simpl.
    unfold answer in Hlogin. unfold after_login in Htoken.
    destruct (next (loginPopup m)) as [o rest] eqn:Hnext.
    simpl in Hlogin. subst o. simpl in *.
    rewrite <- app_assoc. simpl.
    rewrite Htoken, Husable. done. }
  unfold mbind at 1, M_bind at 1, bind at 1. by rewrite Hattempt.
Qed.

Lemma callApi_fetch_rejected (e : string) (network : list (outcome Response))
    (authorization : option string) (w : World) :
  new_events w
    (callApi JSON_parse greater_than_zero (Rejected e :: network)
       authorization w).2
  = [Fetch authorization; AddMessage (error_message api_failed)].
Proof.
  unfold new_events. simpl. rewrite <- app_assoc. apply drop_app_length.
Qed.

Lemma callApi_login_rejected (response : Response)
    (network : list (outcome Response)) (authorization : option string)
    (w : World) (m : Msal) (e : string) :
  status response = 401 →
  msalInstance w = Some m →
  answer (loginPopup m) = Rejected e →
  new_events w
    (callApi JSON_parse greater_than_zero (Resolved response :: network)
       authorization w).2
  = [Fetch authorization; LoginPopup; AddMessage (error_message reauth_failed)].
Proof.
  intros Hstatus Hinst Hlogin. unfold new_events. cbn [callApi].
  unfold attempt, try_catch at 1.
  cbv [mbind M_bind bind emit lift]. rewrite Hstatus. simpl.
  unfold reauthenticate.
  cbv [mbind M_bind bind get_instance try_catch call_loginPopup
       put_instance emit lift]. simpl. rewrite Hinst. simpl.
  unfold answer in Hlogin.
  destruct (next (loginPopup m)) as [o rest] eqn:Hnext.
  simpl in Hlogin. subst o. simpl.
  rewrite <- !app_assoc. apply drop_app_length.
Qed.

End WithParser.

(** *** The patient search *)

Lemma getAuthToken_calls (w : World) :
  ∃ token inst toks,
    getAuthToken w
    = (Resolved token, {| msalInstance := inst; trace := trace w ++ toks |})
    ∧ Forall (fun e => is_token_call e = true) toks.
Proof.
  destruct w as [[[accounts silent popup login]|] tr].
  - cbv [getAuthToken fetchPatient handleSearch try_catch mbind M_bind bind mret
         M_ret ret throw lift emit get_instance put_instance
         call_getAllAccounts call_acquireTokenSilent call_acquireTokenPopup
         call_loginPopup next answer msalInstance trace].
    destruct accounts as [|[[|n]|e] accounts];
      destruct silent as [|[t|e'] silent];
      destruct popup as [|[t'|e''] popup]; simpl;
      rewrite <- ?app_assoc; simpl;
      eexists _, _, _; (split; [reflexivity|repeat constructor]).
  - exists None, None, []. simpl. by rewrite app_nil_r.
Qed.

Lemma token_calls_only_report (toks : list event) :
  Forall (fun e => is_token_call e = true) toks →
  only_reports toks ∧ ∀ auth, only_reports (toks ++ [Fetch auth]).
Proof.
  intros Htoks.
  assert (Hfetch : List.filter is_fetch toks = []).
  { apply filter_nil_iff. intros e He.
    rewrite Forall_forall in Htoks. specialize (Htoks e He). by destruct e. }
  assert (Hlogin : LoginPopup ∉ toks).
  { intros Hin. rewrite Forall_forall in Htoks. by specialize (Htoks _ Hin). }
  split; [|intros auth]; unfold only_reports.
  - rewrite Hfetch. split; [simpl; lia|done].
  - rewrite List.filter_app, Hfetch. split; [simpl; lia|].
    rewrite elem_of_app, list_elem_of_singleton. by intros [?|?].
Qed.

(** [fetchPatient] asks for a token and then sends at most one request,
    after which it calls nothing. *)
Lemma fetchPatient_calls (network : list (outcome Response)) (w : World) :
  ∃ r inst toks,
    Forall (fun e => is_token_call e = true) toks
    ∧ (fetchPatient network w
       = (r, {| msalInstance := inst; trace := trace w ++ toks |})
       ∨ ∃ auth, fetchPatient network w
                 = (r, {| msalInstance := inst;
                          trace := trace w ++ toks ++ [Fetch auth] |})).
Proof.
  destruct (getAuthToken_calls w) as (token & inst & toks & Htoken & Htoks).
  remember (fetchPatient network w) as run eqn:Hrun.
  unfold fetchPatient in Hrun. cbv [mbind M_bind bind] in Hrun.
  rewrite Htoken in Hrun. destruct (usable token) as [t|].
  - cbv [emit lift throw] in Hrun. simpl in Hrun.
    rewrite <- app_assoc in Hrun.
    destruct (next network).1 as [response|e];
      [destruct (status response =? 401);
         [|destruct (negb (ok response))]|];
      subst run; eexists _, inst, toks; (split; [done|right]);
      by exists (Some (bearer t)).
  - subst run. eexists _, inst, toks. split; [done|by left].
Qed.

Lemma handleSearch_calls (st : PatientState) (network : list (outcome Response))
    (w : World) :
  ∃ st' inst toks,
    Forall (fun e => is_token_call e = true) toks
    ∧ (handleSearch st network w
       = (Resolved st', {| msalInstance := inst; trace := trace w ++ toks |})
       ∨ ∃ auth, handleSearch st network w
                 = (Resolved st', {| msalInstance := inst;
                                     trace := trace w ++ toks ++ [Fetch auth] |}))
    ∧ (nonblank (JsString.trim (searchId st)) = true →
       loading st' = false
       ∧ ∀ e, (fetchPatient network w).1 = Rejected e →
              patientData st' = VNull ∧ error st' = error_for e).
Proof.
  remember (handleSearch st network w) as run eqn:Hrun.
  unfold handleSearch, nonblank in *. simpl in Hrun.
  destruct (JsString.truthy (JsString.trim (searchId st))); simpl in Hrun.
  - destruct (fetchPatient_calls network w)
      as (r & inst & toks & Htoks & Hfetch).
    cbv [mbind M_bind bind try_catch] in Hrun.
    assert (Hcases : ∃ w', fetchPatient network w = (r, w')
              ∧ (w' = {| msalInstance := inst; trace := trace w ++ toks |}
                 ∨ ∃ auth, w' = {| msalInstance := inst;
                                   trace := trace w ++ toks ++ [Fetch auth] |})).
    { destruct Hfetch as [->|[auth ->]]; eexists; split; eauto. }
    destruct Hcases as (w' & Hw' & Hshape). rewrite Hw' in Hrun |- *.
    destruct r as [response|e]; [destruct (nullish response)|];
      simpl in Hrun; subst run;
      eexists _, inst, toks; (split; [done|]);
      (split; [destruct Hshape as [->|[auth ->]]; [by left|right; by exists auth]|]);
      intros _; (split; [done|]); intros e' [=]; by subst.
  - subst run. eexists _, (msalInstance w), []. split; [done|].
    split; [left; destruct w; simpl; by rewrite app_nil_r|done].
Qed.

(** C3, amended. A failed patient lookup is only reported: [handleSearch]
    returns normally, sends at most one request, never calls [loginPopup],
    and shows the error chosen from the message of the failure. The writer
    request is different: on a 401 it calls [loginPopup] and, when that
    succeeds and a new token is obtained, sends the request again with the
    new token; a rejected [fetch] and a failed [loginPopup] are only
    reported through [addMessage]. *)
Theorem failures_reported_and_401_retried (JSON_parse : string → outcome value)
    (greater_than_zero : value → bool) :
  (∀ st network w,
     ∃ st', (handleSearch st network w).1 = Resolved st'
       ∧ only_reports (new_events w (handleSearch st network w).2)
       ∧ (nonblank (JsString.trim (searchId st)) = true →
          loading st' = false
          ∧ ∀ e, (fetchPatient network w).1 = Rejected e →
                 patientData st' = VNull ∧ error st' = error_for e))
  ∧ (∀ response network authorization w w2 m token t,
       status response = 401 →
       msalInstance w = Some m →
       answer (loginPopup m) = Resolved tt →
       getAuthToken (after_login w m authorization) = (Resolved token, w2) →
       usable token = Some t →
       ∃ toks evs,
         Forall (fun e => is_token_call e = true) toks
         ∧ new_events w
             (callApi JSON_parse greater_than_zero
                (Resolved response :: network) authorization w).2
           = Fetch authorization :: LoginPopup :: toks
             ++ Fetch (Some (bearer t)) :: evs)
  ∧ (∀ e network authorization w,
       new_events w
         (callApi JSON_parse greater_than_zero (Rejected e :: network)
            authorization w).2
       = [Fetch authorization; AddMessage (error_message api_failed)])
  ∧ (∀ response network authorization w m e,
       status response = 401 →
       msalInstance w = Some m →
       answer (loginPopup m) = Rejected e →
       new_events w
         (callApi JSON_parse greater_than_zero (Resolved response :: network)
            authorization w).2
       = [Fetch authorization; LoginPopup;
          AddMessage (error_message reauth_failed)]).
Proof.
  split; [|split; [|split]].
  - intros st network w.
    destruct (handleSearch_calls st network w)
      as (st' & inst & toks & Htoks & Hrun & Hshown).
    exists st'. apply token_calls_only_report in Htoks as [Hnone Hone].
    unfold new_events.
    destruct Hrun as [->|[auth ->]]; simpl; rewrite drop_app_length; eauto.
  - intros response network authorization w w2 m token t
      Hstatus Hinst Hlogin Htoken Husable.
    rewrite (callApi_reissues JSON_parse greater_than_zero response network
               authorization w w2 m token t) by done.
    destruct (getAuthToken_calls (after_login w m authorization))
      as (token' & inst & toks & Hcalls & Htoks).
    assert (Hw2 : trace w2 = trace w ++ [Fetch authorization; LoginPopup] ++ toks).
    { rewrite Hcalls in Htoken. injection Htoken as _ <-.
      simpl. by rewrite <- app_assoc. }
    destruct (callApi_sends_first JSON_parse greater_than_zero network
                (Some (bearer t)) w2) as [evs Hevs].
    exists toks, evs. split; [done|].
    unfold new_events. rewrite Hevs, Hw2.
    rewrite <- !app_assoc. by rewrite drop_app_length.
  - intros e network authorization w. apply callApi_fetch_rejected.
  - intros response network authorization w m e. apply callApi_login_rejected.
Qed.

End RecoveryFacts.

Lemma failures_reported_and_401_retried_witness :
  (∃ st', (Store.handleSearch Store.searching
             [Store.Resolved Store.unauthorized] Store.signed_in).1
          = Store.Resolved st'
     ∧ Store.loading st' = false
     ∧ Store.patientData st' = Json.VNull
     ∧ Store.error st'
       = Store.error_for "Authentication failed. Please log in again.")
  ∧ (∃ toks evs,
       Forall (fun e => Store.is_token_call e = true) toks
       ∧ Store.new_events Store.signed_in
           (Store.callApi Store.parse_numeral Store.number_gt0
              [Store.Resolved Store.unauthorized;
               Store.Resolved (Store.streamed [])]
              None Store.signed_in).2
         = Store.Fetch None :: Store.LoginPopup :: toks
           ++ Store.Fetch (Some (Store.bearer "t1")) :: evs)
  ∧ Store.new_events Store.login_refused
      (Store.callApi Store.parse_numeral Store.number_gt0
         [Store.Resolved Store.unauthorized] None Store.login_refused).2
    = [Store.Fetch None; Store.LoginPopup;
       Store.AddMessage (Store.error_message Store.reauth_failed)].
Proof.
  destruct (failures_reported_and_401_retried Store.parse_numeral
              Store.number_gt0) as (Hsearch & Hretry & _ & Hlogin).
  split; [|split].
  - destruct (Hsearch Store.searching [Store.Resolved Store.unauthorized]
                Store.signed_in) as (st' & Hres & _ & Hshown).
    exists st'. split; [exact Hres|].
    destruct Hshown as [Hloading Herror]; [reflexivity|].
    split; [exact Hloading|].
    apply Herror. reflexivity.
  - eapply Hretry; reflexivity.
  - eapply (Hlogin _ _ _ _ (Store.mkMsal [] [] [] [])); reflexivity.
Defined.

(** C3 fails as stated: after a 401 the writer logs in again and sends the
    request a second time, with the new token. *)
Lemma writer_logs_in_again_after_401 :
  ¬ Store.writer_only_reports Store.parse_numeral Store.number_gt0.
Proof.
  intros Hclaim.
  destruct (Hclaim [Store.Resolved Store.unauthorized;
                    Store.Resolved (Store.streamed [])]
              Store.signed_in) as [Hfetches _].
  vm_compute in Hfetches. lia.
Qed.

(** The run of the counterexample, call by call. *)
Example writer_run_after_401 :
  Store.trace
    (Store.startWritingTask Store.parse_numeral Store.number_gt0
       [Store.Resolved Store.unauthorized; Store.Resolved (Store.streamed [])]
       Store.signed_in).2
  = [Store.GetAllAccounts; Store.AcquireTokenSilent;
     Store.Fetch (Some "Bearer t1"); Store.LoginPopup;
     Store.GetAllAccounts; Store.AcquireTokenSilent;
     Store.Fetch (Some "Bearer t2")].
Proof. reflexivity. Qed.


(** ** The order of the doubles *)
Section Binary64Facts.
Import Binary64.












End Binary64Facts.

(** ** The scroll spy *)
Section ScrollSpyFacts.
Import PatientSOAP Binary64 ScrollSpy.

Variable container : Container.
Variable sectionRefs : TabKey → option DOMRect.

Lemma visibilityRatio_visible_fraction (rect : DOMRect) :
  visibilityRatio container rect = visible_fraction container rect.
Proof. reflexivity. Qed.









End ScrollSpyFacts.


(** Rounding at the threshold: scrolled by less than 6 pixels, with 16
    pixels of content below the container, the sum [scrollTop +
    clientHeight] rounds to 390 and the tab of the last section is
    selected. *)
Example handleScroll_rounds_at_threshold :
  SFltb (ScrollSpy.scrollTop ScrollSpy.container_below_threshold) (Binary64.of_Z 6)
  = true
  ∧ ScrollSpy.handleScroll (Some ScrollSpy.container_below_threshold)
      ScrollSpy.four_sections PatientSOAP.KSubjective = PatientSOAP.KPlan.
Proof. by vm_compute. Qed.

(** * Further properties of the sources *)

(** ** The patient store: appending to the current patient *)
Section PatientSliceComposition.
Import PatientSlice.

Lemma array_set_set arr i v v' :
  array_set (array_set arr i v) i v' = array_set arr i v'.
Proof.
  unfold array_set at 1.
  assert (Hlen := array_set_length arr i v).
  destruct (decide (i < length (array_set arr i v))) as [_|Hge]; [|lia].
  unfold array_set. case_decide.
  - apply list_insert_insert_eq.
  - rewrite insert_app_r_alt by lia.
    rewrite insert_app_r_alt by (rewrite length_replicate; lia).
    rewrite length_replicate.
    by replace (i - length arr - (i - length arr)) with 0 by lia.
Qed.

(** X1. Appending two texts to the current patient one after the other
    leaves the store in the same state as appending their concatenation
    once. *)
Theorem addToCurrentPatient_compose (s : IPatientCollection) (a b : string) :
  addToCurrentPatient (addToCurrentPatient s a) b = addToCurrentPatient s (a +:+ b).
Proof.
  unfold addToCurrentPatient. simpl.
  rewrite !array_get_set, array_set_set. simpl.
  by rewrite append_assoc.
Qed.

(** X2. When [current] is a valid index, [addToCurrentPatient] keeps the
    number of patients and [current], leaves every other patient as it is,
    and puts the old text followed by the payload both in the current slot
    and in [currentPatient]. *)
Theorem addToCurrentPatient_frame (s : IPatientCollection) (payload : string) :
  current s < length (patients s) →
  length (patients (addToCurrentPatient s payload)) = length (patients s)
  ∧ current (addToCurrentPatient s payload) = current s
  ∧ (∀ j, j ≠ current s →
       patients (addToCurrentPatient s payload) !! j = patients s !! j)
  ∧ (∀ x, patients s !! current s = Some x →
       patients (addToCurrentPatient s payload) !! current s
       = Some (Str (to_string x +:+ payload))
       ∧ currentPatient (addToCurrentPatient s payload)
         = Str (to_string x +:+ payload)).
Proof.
  intros Hlt. unfold addToCurrentPatient. simpl.
  rewrite array_set_length.
  split; [lia|]. split; [done|]. split.
  - intros j Hj. unfold array_set. case_decide; [|lia].
    by rewrite list_lookup_insert_ne.
  - intros x Hx. rewrite array_get_set.
    unfold array_get at 1 2. rewrite Hx. simpl. split; [|done].
    unfold array_set. case_decide; [|lia]. by rewrite list_lookup_insert_eq.
Qed.

(** X3. In a state reached from the initial one that holds no patient,
    [addToCurrentPatient] creates a first patient whose text is
    ["undefined"] followed by the payload, and makes it the current one. *)
Theorem addToCurrentPatient_on_empty_store (acts : list action) (payload : string) :
  patients (dispatch_all acts) = [] →
  let s := addToCurrentPatient (dispatch_all acts) payload in
  patients s = [Str ("undefined" +:+ payload)]
  ∧ current s = 0
  ∧ currentPatient s = Str ("undefined" +:+ payload).
Proof.
  intros Hempty.
  assert (Hs : consistent (dispatch_all acts))
    by apply foldl_reducer_consistent, initialState_consistent.
  apply consistent_empty in Hs as [Hcur _]; [|done].
  unfold addToCurrentPatient. simpl. by rewrite Hcur, Hempty.
Qed.

Lemma addToCurrentPatient_on_empty_store_witness :
  let s := addToCurrentPatient (dispatch_all [AddPatient "MRN-1"; ClearPatients]) " text" in
  patients s = [Str ("undefined" +:+ " text")]
  ∧ current s = 0
  ∧ currentPatient s = Str ("undefined" +:+ " text").
Proof.
  apply (addToCurrentPatient_on_empty_store [AddPatient "MRN-1"; ClearPatients]).
  reflexivity.
Defined.

Lemma addToCurrentPatient_frame_witness :
  let s := mkState 1 [Str "a"; Str "b"; Str "c"] (Str "b") in
  length (patients (addToCurrentPatient s "!")) = length (patients s)
  ∧ current (addToCurrentPatient s "!") = current s
  ∧ (∀ j, j ≠ current s →
       patients (addToCurrentPatient s "!") !! j = patients s !! j)
  ∧ (∀ x, patients s !! current s = Some x →
       patients (addToCurrentPatient s "!") !! current s
       = Some (Str (to_string x +:+ "!"))
       ∧ currentPatient (addToCurrentPatient s "!")
         = Str (to_string x +:+ "!")).
Proof.
  intros s. apply (addToCurrentPatient_frame s "!"). simpl. lia.
Defined.

(** X4. Selecting the patient at a valid index and then appending a
    text changes that patient only: it becomes its old text followed by the
    payload, which is also what [currentPatient] holds. *)
Theorem select_then_append (s : IPatientCollection) (i : Z) (x : jsstr)
    (payload : string) :
  (0 ≤ i)%Z →
  patients s !! Z.to_nat i = Some x →
  let s' := addToCurrentPatient (setCurrentPatient s i) payload in
  currentPatient s' = Str (to_string x +:+ payload)
  ∧ patients s' = <[Z.to_nat i := Str (to_string x +:+ payload)]> (patients s).
Proof.
  intros Hi Hx s'. subst s'.
  assert (Hlt : Z.to_nat i < length (patients s)) by by eapply lookup_lt_Some.
  unfold setCurrentPatient.
  destruct (_ || _) eqn:Hrange.
  { apply orb_true_iff in Hrange as [H|H];
      [apply Z.ltb_lt in H|apply Z.leb_le in H]; lia. }
  unfold addToCurrentPatient. simpl.
  rewrite array_get_set. unfold array_get. rewrite Hx. simpl.
  split; [done|]. unfold array_set. by case_decide; [|lia].
Qed.

Lemma select_then_append_witness :
  let s := mkState 1 [Str "a"; Str "b"] (Str "b") in
  let s' := addToCurrentPatient (setCurrentPatient s 0) "+" in
  currentPatient s' = Str (to_string (Str "a") +:+ "+")
  ∧ patients s' = <[Z.to_nat 0 := Str (to_string (Str "a") +:+ "+")]> (patients s).
Proof.
  intros s. apply (select_then_append s 0 (Str "a") "+"); [lia|reflexivity].
Defined.

End PatientSliceComposition.

(** ** Requests and the identity library *)
Section RequestFacts.
Import Json Store Backend.

Ltac step :=
  cbv [getAuthToken try_catch mbind M_bind bind mret M_ret ret throw lift emit
       get_instance put_instance call_getAllAccounts call_acquireTokenSilent
       call_acquireTokenPopup call_loginPopup next answer msalInstance trace].

(** X5. The calls [getAuthToken] makes to the identity library: none
    without an MSAL instance; otherwise [getAllAccounts] first, then
    nothing more when there is no account, [acquireTokenSilent] when there
    is one, followed by [acquireTokenPopup] exactly when the silent
    acquisition fails; when [getAllAccounts] itself fails the popup
    acquisition of the [catch] block is the only other call. *)
Theorem getAuthToken_interaction (w : World) :
  match msalInstance w with
  | None => getAuthToken w = (Resolved None, w)
  | Some m =>
      new_events w (getAuthToken w).2
      = match answer (getAllAccounts m) with
        | Resolved 0 => [GetAllAccounts]
        | Resolved (S _) =>
            match answer (acquireTokenSilent m) with
            | Resolved _ => [GetAllAccounts; AcquireTokenSilent]
            | Rejected _ => [GetAllAccounts; AcquireTokenSilent; AcquireTokenPopup]
            end
        | Rejected _ => [GetAllAccounts; AcquireTokenPopup]
        end
  end.
Proof.
  destruct w as [[[accounts silent popup login]|] tr]; [|done].
  unfold new_events. step.
  destruct accounts as [|[[|n]|e] accounts];
    destruct silent as [|[t|e'] silent];
    destruct popup as [|[t'|e''] popup]; simpl;
    rewrite <- ?app_assoc; apply drop_app_length.
Qed.

Lemma fetchPatient_unfold (network : list (outcome Response)) (w w' : World)
    (token : option string) :
  getAuthToken w = (Resolved token, w') →
  fetchPatient network w
  = match usable token with
    | None =>
        (Rejected "Authentication token not available. Please log in again.", w')
    | Some t =>
        (patient_result network,
         {| msalInstance := msalInstance w';
            trace := trace w' ++ [Fetch (Some (bearer t))] |})
    end.
Proof.
  intros Htoken. unfold fetchPatient, patient_result.
  unfold mbind at 1, M_bind at 1, bind at 1. rewrite Htoken.
  destruct (usable token) as [t|]; [|done].
  cbv [mbind M_bind bind emit lift throw answer]. simpl.
  destruct (next network).1 as [response|e]; [|done].
  destruct (status response =? 401); [done|].
  by destruct (negb (ok response)).
Qed.

Lemma usable_nonempty (token : option string) (t : string) :
  usable token = Some t → token = Some t ∧ t ≠ EmptyString.
Proof.
  unfold usable. destruct token as [[|c s]|]; simpl; [done| |done].
  by intros [= <-].
Qed.

(** X6. [fetchPatient] never sends a request without credentials: every
    request it adds to the trace carries a bearer token that is not empty,
    and without a usable token it throws before any request is sent. *)
Theorem fetchPatient_never_anonymous (network : list (outcome Response))
    (w : World) :
  (∃ evs, trace (fetchPatient network w).2 = trace w ++ evs
          ∧ Forall authenticated evs)
  ∧ (∀ token w', getAuthToken w = (Resolved token, w') →
       usable token = None →
       fetchPatient network w
       = (Rejected "Authentication token not available. Please log in again.", w')).
Proof.
  destruct (getAuthToken_calls w) as (token & inst & toks & Htoken & Htoks).
  assert (Hauth : Forall authenticated toks).
  { eapply Forall_impl; [exact Htoks|]. by intros [] ?. }
  split.
  - rewrite (fetchPatient_unfold _ _ _ _ Htoken).
    destruct (usable token) as [t|] eqn:Ht; simpl.
    + exists (toks ++ [Fetch (Some (bearer t))]). split; [by rewrite app_assoc|].
      apply Forall_app. split; [done|]. constructor; [|done].
      exists t. split; [done|]. by apply usable_nonempty in Ht as [_ ?].
    + by exists toks.
  - intros token' w' Htoken' Hnone.
    rewrite (fetchPatient_unfold _ _ _ _ Htoken'). by rewrite Hnone.
Qed.

(** X7. [fetchPatient] resolves only when the backend answered with a
    status from 200 to 299, and then to the JSON body of that answer. *)
Theorem fetchPatient_resolves_only_on_success (network : list (outcome Response))
    (w : World) (v : value) :
  (fetchPatient network w).1 = Resolved v →
  ∃ response, answer network = Resolved response
    ∧ Nat.leb 200 (status response) && Nat.leb (status response) 299 = true
    ∧ json response = Resolved v.
Proof.
  destruct (getAuthToken_calls w) as (token & inst & toks & Htoken & _).
  rewrite (fetchPatient_unfold _ _ _ _ Htoken).
  destruct (usable token); [|done]. simpl. unfold patient_result.
  destruct (answer network) as [response|e]; [|done].
  destruct (status response =? 401); [done|].
  destruct (ok response) eqn:Hok; [|done]. simpl. intros Hjson.
  by exists response.
Qed.

Lemma fetchPatient_resolves_only_on_success_witness :
  ∃ response, answer [Resolved patient_answer] = Resolved response
    ∧ Nat.leb 200 (status response) && Nat.leb (status response) 299 = true
    ∧ json response = Resolved patient_record.
Proof.
  apply (fetchPatient_resolves_only_on_success [Resolved patient_answer] one_token).
  reflexivity.
Defined.

(** X8. A search for an MRN that is blank once trimmed clears the
    patient shown and sets the error ['Please enter an MRN.']; the search
    text, the loading flag and the visibility of the form stay as they
    were, no token is asked for and no request is sent. *)
Theorem handleSearch_blank (st : PatientState) (network : list (outcome Response))
    (w : World) :
  JsString.trim (searchId st) = EmptyString →
  handleSearch st network w
  = (Resolved {| patientData := VNull; searchId := searchId st;
                 loading := loading st; error := "Please enter an MRN.";
                 showSearch := showSearch st |}, w).
Proof. intros Hblank. unfold handleSearch. simpl. by rewrite Hblank. Qed.

Lemma handleSearch_blank_witness :
  handleSearch (mkPatientState patient_record "   " false "stale" false)
    [Resolved patient_answer] one_token
  = (Resolved {| patientData := VNull; searchId := "   ";
                 loading := false; error := "Please enter an MRN.";
                 showSearch := false |}, one_token).
Proof.
  apply (handleSearch_blank
           (mkPatientState patient_record "   " false "stale" false)).
  reflexivity.
Defined.

(** What [handleSearch] leaves in the state once [fetchPatient] ended. *)
Lemma handleSearch_unfold (st : PatientState) (network : list (outcome Response))
    (w : World) :
  nonblank (JsString.trim (searchId st)) = true →
  (handleSearch st network w).1
  = Resolved
      match (fetchPatient network w).1 with
      | Resolved response =>
          if nullish response
          then mkPatientState VNull (searchId st) false (error_for type_error)
                 (showSearch st)
          else mkPatientState
                 (if truthy (prop response "patient")
                  then prop response "patient" else response)
                 (searchId st) false "" false
      | Rejected e =>
          mkPatientState VNull (searchId st) false (error_for e) (showSearch st)
      end.
Proof.
  unfold nonblank, handleSearch. simpl. intros ->. simpl.
  cbv [mbind M_bind bind try_catch].
  destruct (fetchPatient network w) as [[response|e] w']; simpl; [|done].
  by destruct (nullish response).
Qed.

(** X9. A search that ends without a usable token, or with the status
    401, shows the same message asking to log in again, clears the patient
    and the loading flag, and keeps the search form as it was. *)
Theorem handleSearch_authentication_failures (st : PatientState)
    (network : list (outcome Response)) (w w' : World) (token : option string) :
  nonblank (JsString.trim (searchId st)) = true →
  getAuthToken w = (Resolved token, w') →
  usable token = None
  ∨ (∃ response, answer network = Resolved response ∧ status response = 401) →
  (handleSearch st network w).1
  = Resolved {| patientData := VNull; searchId := searchId st; loading := false;
                error := "Authentication failed. Please refresh the page and log in again.";
                showSearch := showSearch st |}.
Proof.
  intros Hsearch Htoken Hcase.
  rewrite handleSearch_unfold by done.
  rewrite (fetchPatient_unfold _ _ _ _ Htoken).
  destruct Hcase as [->|(response & Hanswer & Hstatus)]; [done|].
  destruct (usable token); [|done]. simpl.
  unfold patient_result. by rewrite Hanswer, Hstatus.
Qed.

Lemma handleSearch_authentication_failures_witness :
  (handleSearch searching [Resolved unauthorized] one_token).1
  = Resolved {| patientData := VNull; searchId := searchId searching;
                loading := false;
                error := "Authentication failed. Please refresh the page and log in again.";
                showSearch := showSearch searching |}.
Proof.
  eapply (handleSearch_authentication_failures searching
            [Resolved unauthorized] one_token).
  - reflexivity.
  - reflexivity.
  - right. exists unauthorized. split; reflexivity.
Defined.

(** X10. A successful search shows the [patient] property of the
    answer, or the answer itself when it has none, clears the error and
    the loading flag, and hides the search form. *)
Theorem handleSearch_success (st : PatientState)
    (network : list (outcome Response)) (w : World) (response : value) :
  nonblank (JsString.trim (searchId st)) = true →
  (fetchPatient network w).1 = Resolved response →
  nullish response = false →
  (handleSearch st network w).1
  = Resolved {| patientData := if truthy (prop response "patient")
                               then prop response "patient" else response;
                searchId := searchId st; loading := false; error := "";
                showSearch := false |}.
Proof.
  intros Hsearch Hfetch Hnull.
  rewrite handleSearch_unfold by done. by rewrite Hfetch, Hnull.
Qed.

Lemma handleSearch_success_witness :
  (handleSearch searching [Resolved patient_answer] one_token).1
  = Resolved {| patientData :=
                  if truthy (prop patient_record "patient")
                  then prop patient_record "patient" else patient_record;
                searchId := searchId searching; loading := false; error := "";
                showSearch := false |}.
Proof.
  apply (handleSearch_success searching [Resolved patient_answer] one_token
           patient_record); reflexivity.
Defined.

End RequestFacts.

(** ** The writer request: ends, retries, failures *)
Section WriterRunFacts.
Import Json Store Backend.

Variable JSON_parse : string → outcome value.
Variable greater_than_zero : value → bool.

Lemma emits_ret {A} P (a : A) : emits P (mret a : M A).
Proof. intros w. exists []. by rewrite app_nil_r. Qed.

Lemma emits_throw {A} P (e : string) : emits P (throw e : M A).
Proof. intros w. exists []. by rewrite app_nil_r. Qed.

Lemma emits_lift {A} P (o : outcome A) : emits P (lift o).
Proof. intros w. exists []. by rewrite app_nil_r. Qed.

Lemma emits_emit (P : event → Prop) (e : event) : P e → emits P (emit e).
Proof. intros He w. exists [e]. split; [done|]. by constructor. Qed.

Lemma emits_bind {A B} P (m : M A) (k : A → M B) :
  emits P m → (∀ a, emits P (k a)) → emits P (m ≫= k).
Proof.
  intros Hm Hk w. unfold mbind, M_bind, bind.
  destruct (Hm w) as (evs1 & H1 & HP1).
  destruct (m w) as [[a|e] w']; simpl in *; [|by exists evs1].
  destruct (Hk a w') as (evs2 & H2 & HP2).
  exists (evs1 ++ evs2). split; [by rewrite H2, H1, app_assoc|].
  by apply Forall_app.
Qed.

Lemma emits_try_catch {A} P (m : M A) (handler : string → M A) :
  emits P m → (∀ e, emits P (handler e)) → emits P (try_catch m handler).
Proof.
  intros Hm Hh w. unfold try_catch.
  destruct (Hm w) as (evs1 & H1 & HP1).
  destruct (m w) as [[a|e] w']; simpl in *; [by exists evs1|].
  destruct (Hh e w') as (evs2 & H2 & HP2).
  exists (evs1 ++ evs2). split; [by rewrite H2, H1, app_assoc|].
  by apply Forall_app.
Qed.

Lemma emits_forEach {A} P (l : list A) (f : A → M unit) :
  (∀ x, emits P (f x)) → emits P (forEach l f).
Proof.
  intros Hf. induction l as [|x l IH]; simpl.
  - apply (emits_ret P tt).
  - apply emits_bind; [apply Hf|by intros _].
Qed.

Lemma emits_getAuthToken (P : event → Prop) :
  (∀ e, is_token_call e = true → P e) → emits P getAuthToken.
Proof.
  intros HP w.
  destruct (getAuthToken_calls w) as (token & inst & toks & Hrun & Htoks).
  exists toks. rewrite Hrun. split; [done|].
  eapply Forall_impl; [exact Htoks|]. apply HP.
Qed.

Lemma emits_readBody (response : Response) :
  emits is_callback (readBody JSON_parse greater_than_zero response).
Proof.
  unfold readBody. destruct (body response) as [chunks|]; [|apply emits_ret].
  apply emits_forEach. intros chunk. apply emits_forEach. intros part.
  unfold handlePart.
  destruct (negb _); [apply emits_ret|].
  apply emits_bind; [apply emits_lift|]. intros message.
  apply emits_bind; [by apply emits_emit|]. intros _.
  destruct (nullish message); [apply emits_throw|].
  destruct (is_string _ "writer").
  { destruct (_ && _); [by apply emits_emit|apply emits_ret]. }
  destruct (is_string _ "partial"); [|apply emits_ret].
  destruct (_ && _); [by apply emits_emit|apply emits_ret].
Qed.

Lemma emits_weaken {A} (P Q : event → Prop) (m : M A) :
  (∀ e, P e → Q e) → emits P m → emits Q m.
Proof.
  intros HPQ Hm w. destruct (Hm w) as (evs & Hevs & HP).
  exists evs. split; [done|]. by eapply Forall_impl.
Qed.

Lemma emits_get_instance P : emits P get_instance.
Proof. intros w. exists []. by rewrite app_nil_r. Qed.

Lemma emits_call_loginPopup (P : event → Prop) :
  P LoginPopup → emits P call_loginPopup.
Proof.
  intros HP w. unfold call_loginPopup.
  cbv [mbind M_bind bind get_instance throw put_instance emit lift].
  destruct (msalInstance w) as [m|]; simpl.
  - destruct (next (loginPopup m)) as [o rest]. simpl.
    exists [LoginPopup]. split; [done|]. by constructor.
  - exists []. by rewrite app_nil_r.
Qed.

Lemma emits_reauthenticate : emits not_fetch reauthenticate.
Proof.
  unfold reauthenticate.
  apply emits_bind; [apply emits_get_instance|]. intros [m|]; [|apply emits_ret].
  apply emits_try_catch.
  - apply emits_bind; [by apply emits_call_loginPopup|]. intros _.
    apply emits_bind; [apply emits_getAuthToken; by intros []|].
    intros token. destruct (usable token); apply emits_ret.
  - intros e. apply emits_bind; [by apply emits_emit|]. intros _. apply emits_ret.
Qed.

Lemma fetches_not_fetch (evs : list event) :
  Forall not_fetch evs → fetches evs = 0.
Proof.
  unfold fetches. induction 1 as [|e evs He _ IH]; [done|].
  simpl. by rewrite He.
Qed.

(** A run of the [try] block sends one request, and asks for another one
    only after a call of [loginPopup]. *)
Lemma attempt_accounting (o : outcome Response) (authorization : option string)
    (w : World) :
  ∃ r w' evs,
    attempt JSON_parse greater_than_zero o authorization w = (Resolved r, w')
    ∧ trace w' = trace w ++ Fetch authorization :: evs
    ∧ fetches evs = 0
    ∧ (is_Some r → 1 ≤ logins evs).
Proof.
  unfold attempt.
  set (rest := (response ← lift o; _) : M (option string)).
  set (w1 := {| msalInstance := msalInstance w;
                trace := trace w ++ [Fetch authorization] |}).
  assert (Hrest : emits not_fetch rest).
  { unfold rest. apply emits_bind; [apply emits_lift|]. intros response.
    apply emits_bind.
    { destruct (_ =? 401); [apply emits_reauthenticate|apply emits_ret]. }
    intros [[auth|]|]; try apply emits_ret.
    apply emits_bind; [|intros _; apply emits_ret].
    eapply emits_weaken; [|apply emits_readBody]. by intros []. }
  assert (Hlogin : ∀ a w', rest w1 = (Resolved (Some a), w') →
            ∃ evs, trace w' = trace w1 ++ LoginPopup :: evs).
  { intros a w'. unfold rest. cbv [mbind M_bind bind lift].
    destruct o as [response|e]; [|done].
    destruct (status response =? 401).
    - unfold reauthenticate.
      cbv [mbind M_bind bind get_instance try_catch call_loginPopup throw
           put_instance emit lift]. simpl.
      destruct (msalInstance w) as [m|]; simpl.
      + destruct (next (loginPopup m)) as [[[]|e] left]; simpl.
        * match goal with |- context [getAuthToken ?W] =>
            destruct (getAuthToken_calls W) as (token & inst & toks & -> & _)
          end.
          destruct (usable token) as [t|]; simpl.
          -- intros [= <- <-]. simpl. exists toks. by rewrite <- app_assoc.
          -- by destruct (readBody _ _ _ _) as [[|] ?].
        * done.
      + by destruct (readBody _ _ _ _) as [[|] ?].
    - simpl. by destruct (readBody _ _ _ _) as [[|] ?]. }
  unfold try_catch. unfold mbind at 1, M_bind at 1, bind at 1, emit at 1.
  fold w1. destruct (Hrest w1) as (evs & Hevs & Hnot).
  destruct (rest w1) as [[r|e] w'] eqn:Hrun; simpl in *.
  - exists r, w', evs. split; [done|]. split; [|split].
    + by rewrite Hevs, <- app_assoc.
    + by apply fetches_not_fetch.
    + intros [a ->]. destruct (Hlogin a w' eq_refl) as (evs' & Hevs').
      rewrite Hevs in Hevs'. apply app_inv_head in Hevs' as ->.
      unfold logins. simpl. lia.
  - eexists None, _, (evs ++ [AddMessage (error_message api_failed)]).
    cbv [mbind M_bind bind emit ret]. simpl. split; [done|]. split; [|split].
    + by rewrite Hevs, <- !app_assoc.
    + apply fetches_not_fetch, Forall_app. split; [done|]. by constructor.
    + by intros [? ?].
Qed.

Lemma fetches_app (a b : list event) : fetches (a ++ b) = fetches a + fetches b.
Proof. unfold fetches. by rewrite List.filter_app, length_app. Qed.

Lemma logins_app (a b : list event) : logins (a ++ b) = logins a + logins b.
Proof. unfold logins. by rewrite List.filter_app, length_app. Qed.

Lemma callApi_accounting (network : list (outcome Response))
    (authorization : option string) (w : World) :
  ∃ w' evs,
    callApi JSON_parse greater_than_zero network authorization w
    = (Resolved tt, w')
    ∧ trace w' = trace w ++ evs
    ∧ 1 ≤ fetches evs ≤ 1 + logins evs.
Proof.
  revert authorization w.
  induction network as [|o network IH]; intros authorization w; cbn [callApi].
  - destruct (attempt_accounting (Rejected no_answer) authorization w)
      as (r & w' & evs & Hrun & Htrace & Hfetch & _).
    unfold mbind, M_bind, bind. rewrite Hrun. simpl.
    exists w', (Fetch authorization :: evs). split; [done|]. split; [done|].
    change (Fetch authorization :: evs) with ([Fetch authorization] ++ evs).
    rewrite fetches_app, logins_app, Hfetch. unfold fetches, logins. simpl. lia.
  - destruct (attempt_accounting o authorization w)
      as (r & w' & evs & Hrun & Htrace & Hfetch & Hlogin).
    unfold mbind, M_bind, bind. rewrite Hrun.
    destruct r as [auth|]; simpl.
    + destruct (IH (Some auth) w') as (w'' & evs' & Hrec & Htrace' & Hle).
      exists w'', ((Fetch authorization :: evs) ++ evs'). split; [done|]. split.
      * by rewrite Htrace', Htrace, <- app_assoc.
      * specialize (Hlogin (ex_intro _ auth eq_refl)).
        change (Fetch authorization :: evs) with ([Fetch authorization] ++ evs).
        rewrite !fetches_app, !logins_app, Hfetch.
        unfold fetches at 1, logins at 1. simpl. lia.
    + exists w', (Fetch authorization :: evs). split; [done|]. split; [done|].
      change (Fetch authorization :: evs) with ([Fetch authorization] ++ evs).
      rewrite fetches_app, logins_app, Hfetch. unfold fetches, logins. simpl. lia.
Qed.

(** X11. No exception leaves [callApi] or [startWritingTask]: a run that
    ends never ends in a rejection, whatever failed inside. Nothing is
    said on whether a run ends: the source asks again for as long as the
    answers are 401 and the logins succeed, and a run of the model follows
    a finite list of answers. *)
Theorem startWritingTask_never_throws (network : list (outcome Response))
    (authorization : option string) (w : World) (e : string) :
  (callApi JSON_parse greater_than_zero network authorization w).1 ≠ Rejected e
  ∧ (startWritingTask JSON_parse greater_than_zero network w).1 ≠ Rejected e.
Proof.
  split.
  - by destruct (callApi_accounting network authorization w) as (w' & evs & -> & _).
  - unfold startWritingTask, mbind, M_bind, bind.
    destruct (getAuthToken_calls w) as (token & inst & toks & -> & _).
    match goal with |- context [callApi _ _ network ?A ?W] =>
      by destruct (callApi_accounting network A W) as (w' & evs & -> & _)
    end.
Qed.

(** X12. [callApi] sends at least one request, and at most one more
    than the number of its calls of [loginPopup]: a request is repeated
    only after a new login. *)
Theorem callApi_requests_follow_logins (network : list (outcome Response))
    (authorization : option string) (w : World) :
  let evs :=
    new_events w (callApi JSON_parse greater_than_zero network authorization w).2 in
  1 ≤ fetches evs ≤ 1 + logins evs.
Proof.
  destruct (callApi_accounting network authorization w)
    as (w' & evs & Hrun & Htrace & Hle).
  simpl. rewrite Hrun. unfold new_events. simpl.
  by rewrite Htrace, drop_app_length.
Qed.

Lemma fails_bind_l (m k : M unit) (w : World) (e : string) (evs : list event) :
  fails m w e evs → fails (m;; k) w e evs.
Proof. unfold fails, mbind, M_bind, bind. by intros ->. Qed.

Lemma fails_bind_r (m k : M unit) (w : World) (e : string)
    (evs1 evs2 : list event) :
  adds m w evs1 →
  fails k {| msalInstance := msalInstance w; trace := trace w ++ evs1 |} e evs2 →
  fails (m;; k) w e (evs1 ++ evs2).
Proof.
  unfold adds, fails, mbind, M_bind, bind. intros -> ->. simpl.
  by rewrite app_assoc.
Qed.

Lemma handlePart_rejected (part e : string) (w : World) :
  nonblank (JsString.trim part) = true →
  JSON_parse (JsString.trim part) = Rejected e →
  fails (handlePart JSON_parse greater_than_zero part) w e [].
Proof.
  unfold nonblank, handlePart, fails. intros -> Hparse. simpl.
  cbv [mbind M_bind bind lift]. rewrite Hparse. rewrite app_nil_r. by destruct w.
Qed.

Lemma forEach_parts_fail (parts good rest : list string) (bad e : string)
    (messages : list value) (w : World) :
  List.filter nonblank (JsString.trim <$> parts) = good ++ bad :: rest →
  parses JSON_parse good messages →
  JSON_parse bad = Rejected e →
  ∃ evs, fails (forEach parts (handlePart JSON_parse greater_than_zero)) w e evs
         ∧ added evs = messages.
Proof.
  revert good messages w.
  induction parts as [|part parts IH]; intros good messages w Hparts Hgood Hbad.
  { by destruct good. }
  simpl in Hparts. destruct (nonblank (JsString.trim part)) eqn:Hb.
  - destruct good as [|g good].
    + simpl in Hparts. injection Hparts as Hpart _.
      apply Forall2_nil_inv_l in Hgood as ->.
      exists []. split; [|done]. simpl forEach. apply fails_bind_l.
      apply handlePart_rejected; [done|]. by rewrite Hpart.
    + simpl in Hparts. injection Hparts as Hpart Hparts.
      apply Forall2_cons_inv_l in Hgood as (m & ms & [Hparse Hnull] & Hms & ->).
      rewrite <- Hpart in Hparse.
      destruct (handlePart_message JSON_parse greater_than_zero part m w
                  Hb Hparse Hnull) as (evs1 & H1 & Hnone).
      destruct (IH good ms {| msalInstance := msalInstance w;
                              trace := trace w ++ AddMessage m :: evs1 |}
                  Hparts Hms Hbad) as (evs2 & H2 & Hadded).
      exists ((AddMessage m :: evs1) ++ evs2). split.
      * simpl forEach. by eapply fails_bind_r.
      * by rewrite added_app, added_message, Hnone, Hadded.
  - destruct (IH good messages {| msalInstance := msalInstance w;
                                  trace := trace w ++ [] |}
                Hparts Hgood Hbad) as (evs2 & H2 & Hadded).
    exists ([] ++ evs2). split; [|done].
    simpl forEach. eapply fails_bind_r; [by apply handlePart_blank|done].
Qed.

Lemma forEach_chunks_fail (chunks : list string) (good rest : list string)
    (bad e : string) (messages : list value) (w : World) :
  chunk_pieces chunks = good ++ bad :: rest →
  parses JSON_parse good messages →
  JSON_parse bad = Rejected e →
  ∃ evs, fails (forEach chunks (handleChunk JSON_parse greater_than_zero)) w e evs
         ∧ added evs = messages.
Proof.
  revert good messages w.
  induction chunks as [|chunk chunks IH]; intros good messages w Hpieces Hgood Hbad.
  { by destruct good. }
  unfold chunk_pieces in Hpieces. rewrite bind_cons in Hpieces.
  apply app_eq_app in Hpieces as [l [[Hchunk Hrest]|[Hgood' Hrest]]].
  - destruct l as [|x l].
    + rewrite app_nil_r in Hchunk. simpl in Hrest.
      destruct (forEach_parts JSON_parse greater_than_zero
                  (JsString.split JsString.LF chunk) messages w) as (evs1 & H1 & Ha1).
      { fold (pieces chunk). by rewrite Hchunk. }
      destruct (IH [] [] {| msalInstance := msalInstance w;
                            trace := trace w ++ evs1 |})
        as (evs2 & H2 & Ha2); [by unfold chunk_pieces; rewrite <- Hrest|constructor|done|].
      exists (evs1 ++ evs2). split.
      * simpl forEach. by eapply fails_bind_r.
      * by rewrite added_app, Ha1, Ha2, app_nil_r.
    + simpl in Hrest. injection Hrest as <- Hrest.
      destruct (forEach_parts_fail (JsString.split JsString.LF chunk) good l
                  bad e messages w) as (evs & Hf & Ha); try done.
      exists evs. split; [|done]. simpl forEach. by apply fails_bind_l.
  - subst good. apply Forall2_app_inv_l in Hgood as (ms1 & ms2 & H1 & H2 & ->).
    destruct (forEach_parts JSON_parse greater_than_zero
                (JsString.split JsString.LF chunk) ms1 w H1) as (evs1 & Hadds & Ha1).
    destruct (IH l ms2 {| msalInstance := msalInstance w;
                          trace := trace w ++ evs1 |})
      as (evs2 & Hf & Ha2); [done|done|done|].
    exists (evs1 ++ evs2). split.
    + simpl forEach. by eapply fails_bind_r.
    + by rewrite added_app, Ha1, Ha2.
Qed.

(** X13. When a piece of the stream does not parse, the writer has
    passed on the messages of the pieces before it, reports the failure
    once through [addMessage], and handles nothing of what follows. *)
Theorem writer_stops_at_first_bad_piece (chunks good rest : list string)
    (bad e : string) (messages : list value) (authorization : option string)
    (w : World) :
  chunk_pieces chunks = good ++ bad :: rest →
  parses JSON_parse good messages →
  JSON_parse bad = Rejected e →
  added (new_events w
           (callApi JSON_parse greater_than_zero
              [Resolved (streamed chunks)] authorization w).2)
  = messages ++ [error_message api_failed].
Proof.
  intros Hpieces Hgood Hbad.
  destruct (forEach_chunks_fail chunks good rest bad e messages
              {| msalInstance := msalInstance w;
                 trace := trace w ++ [Fetch authorization] |}
              Hpieces Hgood Hbad) as (evs & Hfail & Hadded).
  unfold fails in Hfail. simpl in Hfail. unfold new_events.
  cbv [callApi attempt try_catch mbind M_bind bind emit lift ret readBody
       streamed status body Nat.eqb].
  simpl. rewrite Hfail. simpl.
  rewrite <- !app_assoc, drop_app_length. simpl.
  by rewrite added_app, Hadded.
Qed.

(** X14. Without an MSAL instance [startWritingTask] still sends its
    request, and sends it without an [Authorization] header. *)
Theorem startWritingTask_without_token (network : list (outcome Response))
    (w : World) :
  msalInstance w = None →
  ∃ evs,
    new_events w (startWritingTask JSON_parse greater_than_zero network w).2
    = Fetch None :: evs.
Proof.
  intros Hnone. unfold startWritingTask, mbind, M_bind, bind.
  assert (Htoken : getAuthToken w = (Resolved None, w)).
  { destruct w as [[m|] tr]; [done|reflexivity]. }
  rewrite Htoken. simpl.
  destruct (callApi_sends_first JSON_parse greater_than_zero network None w)
    as [evs Hevs].
  exists evs. unfold new_events. by rewrite Hevs, drop_app_length.
Qed.

End WriterRunFacts.

Lemma startWritingTask_without_token_witness :
  ∃ evs,
    Store.new_events Store.signed_out
      (Store.startWritingTask Store.parse_numeral Store.number_gt0
         [Store.Resolved (Store.streamed [])] Store.signed_out).2
    = Store.Fetch None :: evs.
Proof.
  apply (startWritingTask_without_token Store.parse_numeral Store.number_gt0).
  reflexivity.
Defined.

Lemma writer_stops_at_first_bad_piece_witness :
  Store.added
    (Store.new_events Store.signed_out
       (Store.callApi Store.parse_numeral Store.number_gt0
          [Store.Resolved
             (Store.streamed ["1" +:+ String JsString.LF "2x"; "3"])]
          None Store.signed_out).2)
  = [Json.VNumber 1] ++ [Store.error_message Store.api_failed].
Proof.
  apply (writer_stops_at_first_bad_piece Store.parse_numeral Store.number_gt0
           ["1" +:+ String JsString.LF "2x"; "3"] ["1"] ["3"] "2x"
           "SyntaxError: Unexpected token").
  - reflexivity.
  - repeat constructor.
  - reflexivity.
Defined.

(** ** The checks against Microsoft Graph *)
Section GraphFacts.
Import Json Store Backend.

Lemma elem_of_authorizedGroups (env : GroupEnv) (id : string) :
  id ∈ authorizedGroups env
  ↔ id ≠ EmptyString
    ∧ (VITE_CLINICAL_STAFF_GROUP_ID env = Some id ∨ VITE_ADMIN_GROUP_ID env = Some id).
Proof.
  unfold authorizedGroups, configured.
  destruct env as [[[|c a]|] [[|d b]|]]; simpl;
    rewrite ?elem_of_cons, ?elem_of_nil; split;
    try (intros [? [?|?]]; simplify_eq; tauto);
    intros; intuition (simplify_eq; auto).
Qed.

Lemma some_authorized_true (groups : list string) (userGroups : list value) :
  some_authorized groups userGroups = Resolved true →
  ∃ group id, group ∈ userGroups ∧ prop group "id" = VString id ∧ id ∈ groups.
Proof.
  induction userGroups as [|group rest IH]; simpl; [done|].
  destruct (nullish group); [done|].
  destruct (includes_id groups (prop group "id")) eqn:Hid.
  - intros _. unfold includes_id in Hid.
    destruct (prop group "id") as [| | | |id| |] eqn:Hprop; try done.
    apply bool_decide_eq_true in Hid.
    exists group, id. split; [apply list_elem_of_here|done].
  - intros (g & id & Hin & Hg)%IH. exists g, id.
    split; [by apply list_elem_of_further|done].
Qed.

Lemma some_authorized_none (userGroups : list value) :
  some_authorized [] userGroups ≠ Resolved true.
Proof.
  intros (g & id & _ & _ & Hin)%some_authorized_true. by apply elem_of_nil in Hin.
Qed.

Lemma checkUserGroupMembership_unfold (env : GroupEnv)
    (network : list (outcome Response)) (w w' : World) (token : option string) :
  getAuthToken w = (Resolved token, w') →
  ∃ w'', checkUserGroupMembership env network w
         = (Resolved (membership_result env network token), w'')
    ∧ extends w' w''.
Proof.
  intros Htoken. unfold checkUserGroupMembership, membership_result, try_catch.
  unfold mbind at 1, M_bind at 1, bind at 1. rewrite Htoken.
  destruct (usable token) as [t|]; [|eexists; split; [done|apply extends_refl]].
  cbv [mbind M_bind bind emit lift throw ret]. simpl.
  assert (Hext : extends w' {| msalInstance := msalInstance w';
                               trace := trace w' ++ [Fetch (Some (bearer t))] |})
    by by exists [Fetch (Some (bearer t))].
  destruct (answer network) as [response|e]; simpl; [|by eexists].
  destruct (ok response); simpl; [|by eexists].
  destruct (json response) as [data|e]; simpl; [|by eexists].
  destruct (nullish data); simpl; [by eexists|].
  destruct (if truthy (prop data "value") then prop data "value" else VArray []);
    simpl; try by eexists.
  destruct (some_authorized _ _) as [b|e]; by eexists.
Qed.

Lemma membership_result_true (env : GroupEnv) (network : list (outcome Response))
    (token : option string) :
  membership_result env network token = true →
  ∃ response data items group id,
    answer network = Resolved response
    ∧ ok response = true
    ∧ json response = Resolved data
    ∧ prop data "value" = VArray items
    ∧ group ∈ items
    ∧ prop group "id" = VString id
    ∧ id ∈ authorizedGroups env.
Proof.
  unfold membership_result. intros Htrue.
  destruct (usable token); [|done].
  destruct (answer network) as [response|]; [|done].
  apply andb_true_iff in Htrue as [Hok Htrue].
  destruct (json response) as [data|] eqn:Hjson; [|done].
  apply andb_true_iff in Htrue as [_ Htrue].
  destruct (truthy (prop data "value")) eqn:Htruthy; [|done].
  destruct (prop data "value") as [| | | | |items|] eqn:Hvalue; try done.
  destruct (some_authorized _ items) as [[|]|] eqn:Hsome; try done.
  apply some_authorized_true in Hsome as (group & id & Hin & Hid & Hauth).
  exists response, data, items, group, id. repeat split; auto.
Qed.

Lemma membership_result_none (env : GroupEnv) (network : list (outcome Response))
    (token : option string) :
  authorizedGroups env = [] → membership_result env network token = false.
Proof.
  intros Hnone. apply not_true_is_false.
  intros (_ & _ & _ & _ & id & _ & _ & _ & _ & _ & _ & Hin)%membership_result_true.
  rewrite Hnone in Hin. by apply elem_of_nil in Hin.
Qed.

(** X15. [checkUserGroupMembership] never throws and fails closed: it
    answers [true] only when Microsoft Graph answered with success and
    listed a group whose [id] is the non-empty value of one of the two
    group variables; with no group configured it always answers
    [false]. *)
Theorem checkUserGroupMembership_fail_closed (env : GroupEnv)
    (network : list (outcome Response)) (w : World) :
  (∃ b, (checkUserGroupMembership env network w).1 = Resolved b)
  ∧ ((checkUserGroupMembership env network w).1 = Resolved true →
     ∃ response data items group id,
       answer network = Resolved response
       ∧ ok response = true
       ∧ json response = Resolved data
       ∧ prop data "value" = VArray items
       ∧ group ∈ items
       ∧ prop group "id" = VString id
       ∧ id ≠ EmptyString
       ∧ (VITE_CLINICAL_STAFF_GROUP_ID env = Some id
          ∨ VITE_ADMIN_GROUP_ID env = Some id))
  ∧ (authorizedGroups env = [] →
     (checkUserGroupMembership env network w).1 = Resolved false).
Proof.
  destruct (getAuthToken_calls w) as (token & inst & toks & Htoken & _).
  destruct (checkUserGroupMembership_unfold env network _ _ _ Htoken)
    as (w'' & Hrun & _).
  rewrite Hrun. simpl. split; [by eexists|]. split.
  - intros [= Htrue].
    apply membership_result_true in Htrue
      as (response & data & items & group & id & H1 & H2 & H3 & H4 & H5 & H6 & Hin).
    apply elem_of_authorizedGroups in Hin as [Hne Hvar].
    exists response, data, items, group, id. repeat split; auto.
  - intros Hnone. f_equal. by apply membership_result_none.
Qed.

Lemma checkUserGroupMembership_fail_closed_witness :
  (∃ response data items group id,
     answer [Resolved (member_of ["g-other"; "g-clinical"])] = Resolved response
     ∧ ok response = true
     ∧ json response = Resolved data
     ∧ prop data "value" = VArray items
     ∧ group ∈ items
     ∧ prop group "id" = VString id
     ∧ id ≠ EmptyString
     ∧ (VITE_CLINICAL_STAFF_GROUP_ID clinical_only = Some id
        ∨ VITE_ADMIN_GROUP_ID clinical_only = Some id))
  ∧ (checkUserGroupMembership (mkGroupEnv None (Some ""))
       [Resolved (member_of ["g-clinical"])] one_token).1 = Resolved false.
Proof.
  split.
  - apply (checkUserGroupMembership_fail_closed clinical_only
             [Resolved (member_of ["g-other"; "g-clinical"])] one_token).
    by vm_compute.
  - apply (checkUserGroupMembership_fail_closed (mkGroupEnv None (Some ""))).
    reflexivity.
Defined.

(** X16. [getUserProfileWithValidation] never throws; it reports a user
    as authorized only together with a profile and only when a group is
    configured, and a profile it returns is the JSON body of a successful
    answer to the profile request. *)
Theorem getUserProfileWithValidation_sound (env : GroupEnv)
    (network : list (outcome Response)) (w : World) :
  ∃ v, (getUserProfileWithValidation env network w).1 = Resolved v
    ∧ (isAuthorized v = true →
       is_Some (profile v) ∧ authorizedGroups env ≠ [])
    ∧ (∀ p, profile v = Some p →
         ∃ response, answer network = Resolved response
           ∧ ok response = true ∧ json response = Resolved p).
Proof.
  destruct (getAuthToken_calls w) as (token & inst & toks & Htoken & _).
  unfold getUserProfileWithValidation, try_catch.
  unfold mbind at 1, M_bind at 1, bind at 1. rewrite Htoken.
  destruct (usable token) as [t|]; [|by eexists].
  cbv [mbind M_bind bind emit lift ret]. simpl.
  destruct (answer network) as [response|e] eqn:Hanswer; simpl; [|by eexists].
  destruct (ok response) eqn:Hok; simpl; [|by eexists].
  destruct (json response) as [p|e] eqn:Hjson; simpl; [|by eexists].
  match goal with |- context [checkUserGroupMembership env _ ?W] =>
    destruct (getAuthToken_calls W) as (token' & inst' & toks' & Htoken' & _);
    destruct (checkUserGroupMembership_unfold env (next network).2 _ _ _ Htoken')
      as (w'' & -> & _)
  end.
  simpl. eexists. split; [done|]. simpl. split.
  - intros Htrue. split; [by eexists|]. intros Hnone.
    by rewrite membership_result_none in Htrue.
  - intros p' [= <-]. by exists response.
Qed.

End GraphFacts.

(** ** The MSAL configuration *)
Section MsalConfigFacts.
Import JsString AuthConfig MsalConfig.

Lemma blank_false_truthy (v : option string) :
  blank v = false → ∃ s, v = Some s ∧ truthy s = true.
Proof.
  destruct v as [s|]; [|done]. simpl.
  intros [Hs _]%orb_false_iff. exists s. split; [done|].
  by destruct (truthy s).
Qed.

(** X17. When the module initialises, the redirect URI of [msalConfig]
    is the value of [VITE_AZURE_REDIRECT_URI], which starts with [http://]
    or [https://]: the fallback on the origin of the page is never taken;
    client ID and authority are the values of their variables, and the
    check of the login page finds no configuration error. *)
Theorem msalConfig_auth_validated (env : Env) (origin : string) (a : Auth) :
  msalConfig_auth env origin = Returns a →
  ∃ uri, VITE_AZURE_REDIRECT_URI env = Some uri
    ∧ auth_redirectUri a = uri
    ∧ startsWith "http://" uri || startsWith "https://" uri = true
    ∧ auth_clientId a = VITE_AZURE_CLIENT_ID env
    ∧ auth_authority a = VITE_AZURE_AUTHORITY env
    ∧ postLogoutRedirectUri a = origin
    ∧ configError env = EmptyString.
Proof.
  unfold msalConfig_auth, validateRequiredEnvVars.
  rewrite missing_unfold.
  destruct (blank (VITE_AZURE_CLIENT_ID env)) eqn:Hid; [done|].
  destruct (blank (VITE_AZURE_AUTHORITY env)) eqn:Hauth; [done|].
  destruct (blank (VITE_AZURE_REDIRECT_URI env)) eqn:Huri; [done|].
  apply blank_false_truthy in Hid as (id & Hid & Hidt).
  apply blank_false_truthy in Hauth as (au & Hauth & Haut).
  apply blank_false_truthy in Huri as (uri & Huri & Hurit).
  cbn -[startsWith invalid_message missing_message].
  unfold getRedirectUri, configError. rewrite Hid, Hauth, Huri, Hidt, Haut, Hurit.
  cbn -[startsWith invalid_message missing_message].
  destruct (startsWith "http://" uri) eqn:H1;
    destruct (startsWith "https://" uri) eqn:H2;
    cbn -[startsWith invalid_message missing_message];
    intros [= <-]; exists uri; cbn -[startsWith]; rewrite ?H1, ?H2;
    by repeat split.
Qed.

Lemma msalConfig_auth_validated_witness :
  ∃ uri, VITE_AZURE_REDIRECT_URI local_env = Some uri
    ∧ auth_redirectUri local_auth = uri
    ∧ startsWith "http://" uri || startsWith "https://" uri = true
    ∧ auth_clientId local_auth = VITE_AZURE_CLIENT_ID local_env
    ∧ auth_authority local_auth = VITE_AZURE_AUTHORITY local_env
    ∧ postLogoutRedirectUri local_auth = "https://ward.example.org"
    ∧ configError local_env = EmptyString.
Proof.
  apply (msalConfig_auth_validated local_env "https://ward.example.org" local_auth).
  reflexivity.
Defined.

(** X18. The MSAL logger writes nothing for a message that contains
    personal data; what it writes is the message behind a tag, for a level
    from 0 to 3, and in production only errors and warnings. *)
Theorem loggerCallback_privacy (prod : bool) (level : Z) (message : string)
    (containsPii : bool) (ch : channel) (text : string) :
  loggerCallback prod level message containsPii = Some (ch, text) →
  containsPii = false
  ∧ (0 ≤ level ≤ 3)%Z
  ∧ (prod = true → ch = ConsoleError ∨ ch = ConsoleWarn)
  ∧ ∃ tag, text = tag +:+ message.
Proof.
  unfold loggerCallback.
  destruct containsPii; [done|].
  destruct (Z.leb_spec level (if prod then 1 else 3)%Z) as [Hle|]; [|done].
  destruct (Z.eqb_spec level 0) as [->|H0].
  { intros [= <- <-]. repeat split; try lia; eauto. }
  destruct (Z.eqb_spec level 1) as [->|H1].
  { intros [= <- <-]. repeat split; try lia; eauto. }
  destruct (Z.eqb_spec level 2) as [->|H2].
  { intros [= <- <-]. destruct prod; [lia|]. repeat split; try lia; eauto; done. }
  destruct (Z.eqb_spec level 3) as [->|H3]; [|done].
  intros [= <- <-]. destruct prod; [lia|]. repeat split; try lia; eauto; done.
Qed.

Lemma loggerCallback_privacy_witness :
  false = false
  ∧ (0 ≤ 1 ≤ 3)%Z
  ∧ (true = true → ConsoleWarn = ConsoleError ∨ ConsoleWarn = ConsoleWarn)
  ∧ ∃ tag, "[MSAL Warning]: token renewed" = tag +:+ "token renewed".
Proof.
  apply (loggerCallback_privacy true 1 "token renewed" false ConsoleWarn
           "[MSAL Warning]: token renewed").
  reflexivity.
Defined.

(** X19. The list [securityGroups.authorizedUsers] of the
    configuration module and the list [authorizedGroups] computed by
    [checkUserGroupMembership] are the same for every environment. *)
Theorem authorizedUsers_authorizedGroups (env : Backend.GroupEnv) :
  authorizedUsers env = Backend.authorizedGroups env.
Proof.
  destruct env as [[[|c s]|] [[|c' s']|]]; reflexivity.
Qed.

End MsalConfigFacts.

(** ** The URLs of the backend *)
Section UrlFacts.
Import Backend.
Variable githubDevSubsPort : string → N → string.

Lemma endsWith_spec (suffix s : string) :
  JsText.endsWith suffix s = true ↔ ∃ p, s = p +:+ suffix.
Proof.
  induction s as [|c s IH]; cbn [JsText.endsWith].
  - rewrite orb_false_r, String.eqb_eq. split.
    + intros <-. by exists EmptyString.
    + intros ([|? ?] & Hp); [done|discriminate Hp].
  - rewrite orb_true_iff, String.eqb_eq, IH. split.
    + intros [<-|(p & ->)]; [by exists EmptyString|by exists (String c p)].
    + intros ([|x p] & Hp); [by left|].
      rewrite append_cons in Hp. injection Hp as <- ->. right. by exists p.
Qed.

Lemma withSlash_shape (endpoint : string) :
  ∃ p, withSlash endpoint = p +:+ "/".
Proof.
  unfold withSlash. destruct (JsText.endsWith "/" endpoint) eqn:He.
  - by apply endsWith_spec in He.
  - by exists endpoint.
Qed.

(** X20. The URL of [fetchPatient] always ends with [/api/patient/]
    and the patient identifier, whatever the endpoint; without
    [VITE_API_URL] it is the URL of [startWritingTask] followed by [/] and
    the identifier. *)
Theorem patientUrl_shape (apiBaseUrl : option string)
    (hostname patient_id : string) :
  (∃ p, patientUrl githubDevSubsPort apiBaseUrl hostname patient_id
        = p +:+ "/api/patient/" +:+ patient_id)
  ∧ patientUrl githubDevSubsPort None hostname patient_id
    = writerUrl githubDevSubsPort hostname +:+ "/" +:+ patient_id.
Proof.
  unfold patientUrl, writerUrl. split.
  - match goal with |- context [withSlash ?e] =>
      destruct (withSlash_shape e) as (p & ->) end.
    exists p. by rewrite append_assoc.
  - by rewrite append_assoc.
Qed.

(** X21. A trailing slash on [VITE_API_URL] makes no difference to the
    URL of [fetchPatient], and neither does the host name of the page once
    the variable is set. *)
Theorem patientUrl_trailing_slash (base hostname hostname' patient_id : string) :
  base ≠ EmptyString →
  JsText.endsWith "/" base = false →
  patientUrl githubDevSubsPort (Some (base +:+ "/")) hostname patient_id
  = patientUrl githubDevSubsPort (Some base) hostname' patient_id.
Proof.
  intros Hbase Hslash. unfold patientUrl.
  destruct base as [|c base]; [done|]. rewrite append_cons. simpl JsString.truthy.
  cbv iota. rewrite <- append_cons. unfold withSlash. rewrite Hslash.
  assert (Hends : JsText.endsWith "/" (String c base +:+ "/") = true).
  { apply endsWith_spec. by eexists. }
  by rewrite Hends.
Qed.

End UrlFacts.

Lemma patientUrl_trailing_slash_witness :
  Backend.patientUrl (λ h _, h) (Some ("https://api.example.org" +:+ "/"))
    "localhost" "42"
  = Backend.patientUrl (λ h _, h) (Some "https://api.example.org")
      "ward.github.dev" "42".
Proof.
  apply (patientUrl_trailing_slash (λ h _, h) "https://api.example.org");
    [discriminate|reflexivity].
Defined.

(** ** The patient cards *)
Section PatientCardFacts.
Import PatientCards.

Lemma length_8_inv (s : string) :
  String.length s = 8 →
  ∃ y1 y2 y3 y4 m1 m2 d1 d2,
    s = String y1 (String y2 (String y3 (String y4
          (String m1 (String m2 (String d1 (String d2 EmptyString))))))).
Proof.
  intros Hlen.
  do 8 (destruct s as [|? s]; [discriminate Hlen|]).
  destruct s; [|discriminate Hlen]. by repeat eexists.
Qed.

Lemma formatDate_8 (y1 y2 y3 y4 m1 m2 d1 d2 : ascii) :
  formatDate (Some (String y1 (String y2 (String y3 (String y4
     (String m1 (String m2 (String d1 (String d2 EmptyString)))))))))
  = String m1 (String m2 (String "/" (String d1 (String d2 (String "/"
      (String y1 (String y2 (String y3 (String y4 EmptyString))))))))).
Proof. reflexivity. Qed.

(** X22. [formatDate] never returns the empty string, so the fallback
    ['MM/DD/YYYY'] of the admission line is never shown; and formatting a
    formatted date again changes nothing. *)
Theorem formatDate_total_idempotent (dateStr : option string) :
  formatDate dateStr ≠ EmptyString
  ∧ admittedText dateStr = formatDate dateStr
  ∧ formatDate (Some (formatDate dateStr)) = formatDate dateStr.
Proof.
  assert (Hne : formatDate dateStr ≠ EmptyString).
  { destruct dateStr as [s|]; [|done]. unfold formatDate.
    destruct s as [|c s]; [done|]. cbn [JsString.truthy negb].
    destruct (Nat.eqb_spec (String.length (String c s)) 8) as [Hlen|]; [|done].
    apply length_8_inv in Hlen as (?&?&?&?&?&?&?&?&->). done. }
  split; [done|]. split.
  - unfold admittedText.
    destruct (formatDate dateStr); [by destruct Hne|reflexivity].
  - destruct dateStr as [s|]; [|done].
    destruct s as [|c s]; [done|].
    destruct (Nat.eqb_spec (String.length (String c s)) 8) as [Hlen|Hlen].
    + apply length_8_inv in Hlen as (?&?&?&?&?&?&?&?&->). done.
    + assert (Hkept : formatDate (Some (String c s)) = String c s).
      { unfold formatDate. cbn [JsString.truthy negb].
        apply Nat.eqb_neq in Hlen. by rewrite Hlen. }
      by rewrite !Hkept.
Qed.

(** X23. On a date of eight characters [formatDate] returns ten
    characters, with a slash at the third and at the sixth place, from
    which the date is recovered: year, month and day are moved, not
    changed. *)
Theorem formatDate_round_trip (s : string) :
  String.length s = 8 →
  let shown := formatDate (Some s) in
  String.length shown = 10
  ∧ JsText.substring shown 2 3 = "/"
  ∧ JsText.substring shown 5 6 = "/"
  ∧ JsText.substring shown 6 10 +:+ JsText.substring shown 0 2
      +:+ JsText.substring shown 3 5 = s.
Proof.
  intros (?&?&?&?&?&?&?&?&->)%length_8_inv. rewrite formatDate_8. done.
Qed.

Lemma formatDate_round_trip_witness :
  let shown := formatDate (Some "20240131") in
  String.length shown = 10
  ∧ JsText.substring shown 2 3 = "/"
  ∧ JsText.substring shown 5 6 = "/"
  ∧ JsText.substring shown 6 10 +:+ JsText.substring shown 0 2
      +:+ JsText.substring shown 3 5 = "20240131".
Proof. apply (formatDate_round_trip "20240131"). reflexivity. Defined.

Lemma upper_char_facts (c : ascii) :
  JsText.is_word (JsString.upper_char c) = JsText.is_word c
  ∧ JsString.upper_char (JsString.upper_char c) = JsString.upper_char c
  ∧ (c ≠ "_"%char → JsString.upper_char c ≠ "_"%char).
Proof.
  destruct c as [[] [] [] [] [] [] [] []]; vm_compute; by repeat split.
Qed.

Lemma no_underscore_replaceUnderscores (s : string) :
  no_underscore (replaceUnderscores s).
Proof.
  induction s as [|c s IH]; simpl; [done|]. split; [|done].
  destruct (Ascii.eqb_spec c "_"); [done|done].
Qed.

Lemma replaceUnderscores_id (s : string) :
  no_underscore s → replaceUnderscores s = s.
Proof.
  induction s as [|c s IH]; simpl; [done|]. intros [Hc Hs].
  rewrite (IH Hs). by destruct (Ascii.eqb_spec c "_").
Qed.

Lemma no_underscore_capitalizeWords (afterWord : bool) (s : string) :
  no_underscore s → no_underscore (capitalizeWords afterWord s).
Proof.
  revert afterWord. induction s as [|c s IH]; intros afterWord; simpl; [done|].
  intros [Hc Hs]. split; [|by apply IH].
  destruct (_ && _); [by apply upper_char_facts|done].
Qed.

Lemma capitalizeWords_idempotent (afterWord : bool) (s : string) :
  capitalizeWords afterWord (capitalizeWords afterWord s)
  = capitalizeWords afterWord s.
Proof.
  revert afterWord. induction s as [|c s IH]; intros afterWord; simpl; [done|].
  destruct (upper_char_facts c) as (Hword & Hup & _).
  destruct (JsText.is_word c) eqn:Hc, afterWord; simpl;
    rewrite ?Hword, ?Hc, ?Hup; simpl; by rewrite ?IH.
Qed.

Lemma length_replaceUnderscores (s : string) :
  String.length (replaceUnderscores s) = String.length s.
Proof. induction s as [|c s IH]; simpl; by rewrite ?IH. Qed.

Lemma length_capitalizeWords (afterWord : bool) (s : string) :
  String.length (capitalizeWords afterWord s) = String.length s.
Proof.
  revert afterWord. induction s as [|c s IH]; intros afterWord; simpl; by rewrite ?IH.
Qed.

(** X24. [formatPredictionName] keeps the length of the name, leaves
    no underscore in it, and applied to its own result changes nothing. *)
Theorem formatPredictionName_display (name : string) :
  String.length (formatPredictionName name) = String.length name
  ∧ no_underscore (formatPredictionName name)
  ∧ formatPredictionName (formatPredictionName name) = formatPredictionName name.
Proof.
  unfold formatPredictionName. split; [|split].
  - by rewrite length_capitalizeWords, length_replaceUnderscores.
  - apply no_underscore_capitalizeWords, no_underscore_replaceUnderscores.
  - rewrite (replaceUnderscores_id (capitalizeWords false _)).
    + apply capitalizeWords_idempotent.
    + apply no_underscore_capitalizeWords, no_underscore_replaceUnderscores.
Qed.

Example formatPredictionName_example :
  formatPredictionName "risk_of_30day_readmission" = "Risk Of 30day Readmission".
Proof. reflexivity. Qed.

End PatientCardFacts.

(** ** The SOAP viewer: the role controls *)
Section SoapControlFacts.
Import Json PatientSOAP SoapControls.

Lemma insert_sorted_perm (r : string) (l : list string) :
  insert_sorted r l ≡ₚ r :: l.
Proof.
  induction l as [|x l IH]; simpl; [done|].
  destruct (String.leb r x); [done|]. rewrite IH. apply Permutation_swap.
Qed.

Lemma sort_perm (l : list string) : sort l ≡ₚ l.
Proof.
  induction l as [|x l IH]; simpl; [done|].
  by rewrite insert_sorted_perm, IH.
Qed.

Lemma insert_sorted_sorted (r : string) (l : list string) :
  Sorted leb_string l → Sorted leb_string (insert_sorted r l).
Proof.
  induction l as [|x l IH]; simpl; intros Hl.
  - by repeat constructor.
  - destruct (String.leb r x) eqn:Hrx.
    + constructor; [done|]. by constructor.
    + apply Sorted_inv in Hl as [Hl Hhd]. constructor; [by apply IH|].
      assert (Hxr : leb_string x r).
      { destruct (String.leb_total r x) as [H|H]; [congruence|done]. }
      destruct l as [|y l]; simpl; [by constructor|].
      destruct (String.leb r y); constructor; [done|].
      by apply HdRel_inv in Hhd.
Qed.

Lemma sort_sorted (l : list string) : Sorted leb_string (sort l).
Proof.
  induction l as [|x l IH]; simpl; [constructor|].
  by apply insert_sorted_sorted.
Qed.

Lemma elem_of_set_add (set : list string) (r x : string) :
  x ∈ set_add set r ↔ x ∈ set ∨ x = r.
Proof.
  unfold set_add. case_bool_decide as Hin.
  - split; [by left|]. by intros [?| ->].
  - by rewrite elem_of_app, list_elem_of_singleton.
Qed.

Lemma NoDup_set_add (set : list string) (r : string) :
  NoDup set → NoDup (set_add set r).
Proof.
  intros Hset. unfold set_add. case_bool_decide as Hin; [done|].
  apply NoDup_app. split; [done|]. split; [|apply NoDup_singleton].
  intros x Hx ->%list_elem_of_singleton. done.
Qed.

Lemma collect_roles_spec (entries : list SOAPEntry) (set : list string) :
  let collected :=
    foldl (fun set e =>
             match role e with
             | Some r => if JsString.truthy r then set_add set r else set
             | None => set
             end) set entries in
  (NoDup set → NoDup collected)
  ∧ ∀ r, r ∈ collected
         ↔ r ∈ set ∨ (r ≠ EmptyString ∧ ∃ e, e ∈ entries ∧ role e = Some r).
Proof.
  revert set. induction entries as [|e entries IH]; intros set; simpl.
  - split; [done|]. intros r. split; [by left|].
    intros [|(_ & e & He & _)]; [done|]. by apply not_elem_of_nil in He.
  - destruct (IH (match role e with
                  | Some r => if JsString.truthy r then set_add set r else set
                  | None => set
                  end)) as [Hnodup Hin].
    split.
    + intros Hset. apply Hnodup.
      destruct (role e) as [r|]; [|done].
      destruct (JsString.truthy r); [by apply NoDup_set_add|done].
    + intros r. rewrite Hin. split.
      * intros [Hr|(Hne & e' & He' & Hrole)].
        -- destruct (role e) as [r'|] eqn:Hrole; [|by left].
           destruct (JsString.truthy r') eqn:Ht; [|by left].
           apply elem_of_set_add in Hr as [Hr|Heq]; [by left|]. subst r'.
           right. split; [by destruct r|].
           exists e. split; [apply list_elem_of_here|done].
        -- right. split; [done|]. exists e'.
           split; [by apply list_elem_of_further|done].
      * intros [Hr|(Hne & e' & [->|He']%elem_of_cons & Hrole)].
        -- left. destruct (role e) as [r'|]; [|done].
           destruct (JsString.truthy r'); [|done].
           apply elem_of_set_add. by left.
        -- left. rewrite Hrole. destruct r as [|c r]; [done|]. simpl.
           apply elem_of_set_add. by right.
        -- right. split; [done|]. by exists e'.
Qed.

Lemma allRoles_sorted_distinct_aux (entries : list SOAPEntry) :
  NoDup (allRoles entries)
  ∧ ∀ r, r ∈ allRoles entries
         ↔ r ≠ EmptyString ∧ ∃ e, e ∈ entries ∧ role e = Some r.
Proof.
  unfold allRoles.
  destruct (collect_roles_spec entries []) as [Hnodup Hin].
  split.
  - rewrite sort_perm. apply Hnodup. constructor.
  - intros r. rewrite sort_perm, Hin. split; [|by right].
    intros [Hr|]; [|done]. by apply not_elem_of_nil in Hr.
Qed.

(** X25. [allRoles] lists each role once, in ascending order; a role is
    listed exactly when it is not empty and some entry of the round
    carries it. *)
Theorem allRoles_sorted_distinct (entries : list SOAPEntry) :
  NoDup (allRoles entries)
  ∧ Sorted leb_string (allRoles entries)
  ∧ ∀ r, r ∈ allRoles entries
         ↔ r ≠ EmptyString ∧ ∃ e, e ∈ entries ∧ role e = Some r.
Proof.
  destruct (allRoles_sorted_distinct_aux entries) as [Hnodup Hin].
  split; [done|]. split; [apply sort_sorted|done].
Qed.

(** X26. Toggling a role twice restores the selection, provided another
    role is selected. *)
Theorem toggleRole_twice (allRoles : list string) (role other : string)
    (prev : gset string) :
  other ∈ prev → other ≠ role →
  toggleRole allRoles role (toggleRole allRoles role prev) = prev.
Proof.
  intros Hother Hne.
  assert (Hprev : Nat.eqb (size prev) 0 = false).
  { apply not_true_is_false. intros Hempty%gset_size_zero.
    rewrite Hempty in Hother. by apply not_elem_of_empty in Hother. }
  unfold toggleRole at 2.
  case_bool_decide as Hin.
  - assert (Hkeep : other ∈ prev ∖ {[role]}).
    { apply elem_of_difference. split; [done|]. by rewrite elem_of_singleton. }
    destruct (Nat.eqb (size (prev ∖ {[role]})) 0) eqn:Hsize.
    { apply gset_size_zero in Hsize. rewrite Hsize in Hkeep.
      by apply not_elem_of_empty in Hkeep. }
    unfold toggleRole. rewrite bool_decide_eq_false_2.
    2:{ rewrite elem_of_difference, elem_of_singleton. by intros [_ Hrole]. }
    assert (Hback : prev ∖ {[role]} ∪ {[role]} = prev).
    { apply set_eq. intros x.
      rewrite elem_of_union, elem_of_difference, elem_of_singleton.
      destruct (decide (x = role)) as [->|]; tauto. }
    by rewrite Hback, Hprev.
  - assert (Hadded : role ∈ prev ∪ {[role]}).
    { apply elem_of_union_r. by apply elem_of_singleton. }
    destruct (Nat.eqb (size (prev ∪ {[role]})) 0) eqn:Hsize.
    { apply gset_size_zero in Hsize. rewrite Hsize in Hadded.
      by apply not_elem_of_empty in Hadded. }
    unfold toggleRole. rewrite bool_decide_eq_true_2 by done.
    assert (Hback : (prev ∪ {[role]}) ∖ {[role]} = prev).
    { apply set_eq. intros x.
      rewrite elem_of_difference, elem_of_union, elem_of_singleton.
      destruct (decide (x = role)) as [->|]; tauto. }
    by rewrite Hback, Hprev.
Qed.

Lemma toggleRole_twice_witness :
  toggleRole ["nurse"; "physician"] "nurse"
    (toggleRole ["nurse"; "physician"] "nurse" {[ "nurse"; "physician" ]})
  = {[ "nurse"; "physician" ]}.
Proof.
  apply (toggleRole_twice ["nurse"; "physician"] "nurse" "physician").
  - apply elem_of_union_r, elem_of_singleton. reflexivity.
  - discriminate.
Defined.

(** X27. For a selection among the roles of the round,
    [showAllRolesSelected] holds exactly when every role is selected;
    [toggleAllRoles] then selects the first role only, and otherwise
    selects every role; its result stays among the roles of the round and
    is not empty when the round has roles. *)
Theorem toggleAllRoles_cycle (entries : list SOAPEntry)
    (selectedRoles : gset string) :
  let roles := allRoles entries in
  selectedRoles ⊆ list_to_set roles →
  (showAllRolesSelected roles selectedRoles = true
   ↔ selectedRoles = list_to_set roles)
  ∧ (selectedRoles ≠ list_to_set roles →
     toggleAllRoles roles selectedRoles = list_to_set roles)
  ∧ (selectedRoles = list_to_set roles →
     toggleAllRoles roles selectedRoles
     = match roles with first :: _ => {[ first ]} | [] => ∅ end)
  ∧ toggleAllRoles roles selectedRoles ⊆ list_to_set roles
  ∧ (roles ≠ [] → toggleAllRoles roles selectedRoles ≠ ∅).
Proof.
  intros roles Hsub.
  destruct (allRoles_sorted_distinct_aux entries) as (Hnodup & Hin).
  fold roles in Hnodup, Hin.
  assert (Hall : showAllRolesSelected roles selectedRoles = true
                 ↔ selectedRoles = list_to_set roles).
  { unfold showAllRolesSelected. rewrite Nat.eqb_eq. split.
    - intros Hsize. apply set_subseteq_size_eq; [done|].
      rewrite size_list_to_set by done. lia.
    - intros ->. by apply size_list_to_set. }
  assert (Hfirst : ∀ first rest, roles = first :: rest →
                   JsString.truthy first = true).
  { intros first rest Hroles.
    destruct (Hin first) as [Hne _]. destruct Hne as [Hne _].
    - rewrite Hroles. apply list_elem_of_here.
    - by destruct first. }
  split; [done|]. unfold toggleAllRoles.
  destruct (showAllRolesSelected roles selectedRoles) eqn:Hshow.
  - assert (Heq : selectedRoles = list_to_set roles) by by apply Hall.
    destruct roles as [|first rest] eqn:Hroles.
    + repeat split; done.
    + rewrite (Hfirst first rest eq_refl).
      split; [by intros Hne|]. split; [done|]. split.
      * intros x ->%elem_of_singleton. rewrite list_to_set_cons.
        apply elem_of_union_l. by apply elem_of_singleton.
      * intros _. apply non_empty_singleton_L.
  - assert (Hneq : selectedRoles ≠ list_to_set roles).
    { intros Heq%Hall. congruence. }
    split; [done|]. split; [done|]. split; [done|].
    intros Hroles. destruct roles as [|first rest]; [done|].
    rewrite list_to_set_cons. intros Hempty.
    assert (Hfirst' : first ∈ ({[first]} ∪ list_to_set rest : gset string)).
    { apply elem_of_union_l. by apply elem_of_singleton. }
    rewrite Hempty in Hfirst'. by apply not_elem_of_empty in Hfirst'.
Qed.

Lemma toggleAllRoles_cycle_witness :
  let roles := allRoles round_entries_example in
  (showAllRolesSelected roles {[ "physician" ]} = true
   ↔ ({[ "physician" ]} : gset string) = list_to_set roles)
  ∧ (({[ "physician" ]} : gset string) ≠ list_to_set roles →
     toggleAllRoles roles {[ "physician" ]} = list_to_set roles)
  ∧ (({[ "physician" ]} : gset string) = list_to_set roles →
     toggleAllRoles roles {[ "physician" ]}
     = match roles with first :: _ => {[ first ]} | [] => ∅ end)
  ∧ toggleAllRoles roles {[ "physician" ]} ⊆ list_to_set roles
  ∧ (roles ≠ [] → toggleAllRoles roles {[ "physician" ]} ≠ ∅).
Proof.
  apply (toggleAllRoles_cycle round_entries_example {[ "physician" ]}).
  apply (bool_decide_unpack _). by vm_compute.
Defined.

(** Without roles the headings of [block_of] and of [renderEntry] agree:
    both are absent. *)
Lemma shown_imap_renderEntry_no_roles (sectionKey : TabKey)
    (entries : list SOAPEntry) (start : nat) :
  (∀ e, e ∈ entries → present (role e) = false) →
  (fun b => (heading b, content b))
    <$> omap id (imap (fun i => renderEntry [] sectionKey (start + i)) entries)
  = block_of sectionKey
      <$> List.filter (fun e => present (field e sectionKey)) entries.
Proof.
  revert start.
  induction entries as [|e entries IH]; intros start Hnone; [done|].
  rewrite imap_cons. simpl.
  assert (Hshift :
    imap ((fun i => renderEntry [] sectionKey (start + i)) ∘ S) entries
    = imap (fun i => renderEntry [] sectionKey (S start + i)) entries).
  { apply imap_ext. intros i x _. simpl. f_equal. lia. }
  assert (Hrest : ∀ e', e' ∈ entries → present (role e') = false).
  { intros e' He'. apply Hnone. by apply list_elem_of_further. }
  rewrite Hshift. unfold renderEntry at 1, present at 2.
  destruct (field e sectionKey) as [c|] eqn:Hc; [|by apply IH].
  destruct (JsString.truthy c) eqn:Ht; [|by apply IH].
  simpl. f_equal; [|by apply (IH (S start))].
  unfold block_of. rewrite Hc, andb_false_r.
  by rewrite (Hnone e (list_elem_of_here _ _)).
Qed.

(** X28. When no entry of the round carries a role, or when the
    selection is empty, the role filter is off: a section shows, in order,
    every entry with text for it, and ['No data available'] appears only
    when the round has no entry at all. *)
Theorem renderSectionContent_filter_off (currentEntries : list SOAPEntry)
    (selectedRoles : gset string) (sectionKey : TabKey) :
  (∀ e, e ∈ currentEntries → present (role e) = false) ∨ selectedRoles = ∅ →
  let el := renderSectionContent currentEntries selectedRoles sectionKey in
  shown el
  = block_of sectionKey
      <$> List.filter (fun e => present (field e sectionKey)) currentEntries
  ∧ (el = NoDataAvailable ↔ currentEntries = []).
Proof.
  intros Hoff el. subst el. unfold renderSectionContent.
  assert (Hcond : Nat.ltb 0 (length (allRoles currentEntries))
                  && Nat.ltb 0 (size selectedRoles) = false).
  { destruct Hoff as [Hnone| ->].
    - assert (Hroles : allRoles currentEntries = []).
      { destruct (allRoles currentEntries) eqn:Hroles; [done|].
        assert (Hne : allRoles currentEntries ≠ []) by by rewrite Hroles.
        apply allRoles_nonempty in Hne as (e & He & Hp).
        by rewrite (Hnone e He) in Hp. }
      by rewrite Hroles.
    - by rewrite size_empty, andb_false_r. }
  rewrite Hcond.
  destruct currentEntries as [|e entries] eqn:Hentries; [done|].
  rewrite <- Hentries in *. simpl Nat.eqb.
  assert (Hlen : Nat.eqb (length currentEntries) 0 = false) by by rewrite Hentries.
  rewrite Hlen. split; [|by rewrite Hentries].
  simpl shown.
  destruct (allRoles currentEntries) as [|r roles] eqn:Hroles.
  - apply (shown_imap_renderEntry_no_roles sectionKey currentEntries 0).
    intros e' He'. apply not_true_is_false. intros Hp.
    assert (Hne : allRoles currentEntries ≠ []).
    { apply allRoles_nonempty. by exists e'. }
    by rewrite Hroles in Hne.
  - by apply (shown_imap_renderEntry (r :: roles) sectionKey currentEntries 0).
Qed.

Lemma renderSectionContent_filter_off_witness :
  let el := renderSectionContent round_entries_example ∅ KSubjective in
  shown el
  = block_of KSubjective
      <$> List.filter (fun e => present (field e KSubjective)) round_entries_example
  ∧ (el = NoDataAvailable ↔ round_entries_example = []).
Proof.
  apply (renderSectionContent_filter_off round_entries_example ∅ KSubjective).
  by right.
Defined.

End SoapControlFacts.

(** ** The SOAP viewer: when the component renders nothing *)
Section RoundKeyFacts.
Import Json PatientSOAP SoapControls.
Variable sortByNumber : list string → list string.
Hypothesis sortByNumber_length : ∀ l, length (sortByNumber l) = length l.

(** X29. Whatever the order [sort] gives the round keys, the viewer
    renders nothing exactly when [rounds] is [null]/[undefined], or is not
    a legacy single round and every value in it is falsy, a value under
    the key [__proto__] apart, which never makes a round. *)
Theorem rendersNothing_spec (rounds : option (gmap string value)) :
  rendersNothing sortByNumber rounds = true
  ↔ rounds = None
    ∨ ∃ fields, rounds = Some fields
        ∧ isSingle fields = false
        ∧ ∀ k v, k ≠ "__proto__" → fields !! k = Some v → truthy v = false.
Proof.
  unfold rendersNothing. destruct rounds as [fields|].
  2:{ split; [by left|done]. }
  unfold roundKeys. rewrite sortByNumber_length, length_fmap, Nat.eqb_eq.
  rewrite length_zero_iff_nil, map_to_list_empty_iff.
  unfold normalizedRounds. split.
  - intros Hempty. right. exists fields. split; [done|].
    destruct (isSingle fields) eqn:Hs.
    { apply (f_equal (λ m, m !! "1")) in Hempty.
      by rewrite lookup_singleton_eq, lookup_empty in Hempty. }
    split; [done|]. intros k v Hproto Hk.
    apply (f_equal (λ m, m !! k)) in Hempty.
    rewrite lookup_forEach_addRound, decide_False, Hk, lookup_empty in Hempty
      by done.
    simpl in Hempty. unfold round_entries in Hempty. by destruct (truthy v).
  - intros [|(fields' & [= <-] & -> & Hall)]; [done|].
    apply map_eq. intros k.
    rewrite lookup_forEach_addRound, lookup_empty.
    case_decide as Hproto; [done|].
    destruct (fields !! k) as [v|] eqn:Hk; [|done]. simpl.
    unfold round_entries. by rewrite (Hall k v Hproto Hk).
Qed.

End RoundKeyFacts.

Lemma insert_by_number_length (k : string) (sorted : list string) :
  length (SoapControls.insert_by_number k sorted) = S (length sorted).
Proof.
  induction sorted as [|x rest IH]; simpl; [done|].
  destruct (_ <=? _)%Z; simpl; by rewrite ?IH.
Qed.

Lemma sort_digit_keys_length (l : list string) :
  length (SoapControls.sort_digit_keys l) = length l.
Proof.
  induction l as [|x l IH]; simpl; [done|].
  by rewrite insert_by_number_length, IH.
Qed.

Lemma rendersNothing_spec_witness :
  SoapControls.rendersNothing SoapControls.sort_digit_keys
    (Some SoapControls.one_null_round) = true
  ↔ Some SoapControls.one_null_round = None
    ∨ ∃ fields, Some SoapControls.one_null_round = Some fields
        ∧ PatientSOAP.isSingle fields = false
        ∧ ∀ k v, k ≠ "__proto__" → fields !! k = Some v → Json.truthy v = false.
Proof.
  apply (rendersNothing_spec SoapControls.sort_digit_keys sort_digit_keys_length).
Defined.
